(** * geetools: the [Asset] path class and its folder-tree operations

    A shallow embedding of [geetools/Asset/__init__.py].  The class wraps a
    [pathlib.PurePosixPath]; the first part of the file embeds the parts of
    [PurePosixPath] the class relies on (argument parsing, [str], [parts],
    [parents], comparison), the second part the class itself, the third the
    remote asset store ([ee.data]) as explicit state with a log of the calls
    issued, and the last part the theorems. *)

From Stdlib Require Import String Ascii List Bool Arith Lia PeanoNat.
From Stdlib Require Import Permutation Sorted.
Import ListNotations.

Local Open Scope string_scope.
Local Open Scope list_scope.

Set Implicit Arguments.

(** ** Python [str] helpers *)

Module PyStr.

Definition sep : ascii := "/"%char.

Definition dquote : ascii := ascii_of_nat 34.

Definition is_sep (c : ascii) : bool := Ascii.eqb c sep.

(** [sep in s] *)
Fixpoint contains_sep (s : string) : bool :=
  match s with
  | EmptyString => false
  | String c s' => is_sep c || contains_sep s'
  end.

(** [c in s] for a character [c] *)
Fixpoint contains (c : ascii) (s : string) : bool :=
  match s with
  | EmptyString => false
  | String d s' => Ascii.eqb c d || contains c s'
  end.

(** [s.split("/")]: never empty, one more field than there are separators. *)
Fixpoint split (s : string) : list string :=
  match s with
  | EmptyString => [EmptyString]
  | String c s' =>
      if is_sep c then EmptyString :: split s'
      else match split s' with
           | x :: xs => String c x :: xs
           | [] => [String c EmptyString]
           end
  end.

(** ["/".join(l)] *)
Fixpoint join (l : list string) : string :=
  match l with
  | [] => EmptyString
  | [x] => x
  | x :: xs => (x ++ String sep (join xs))%string
  end.

(** [s.lstrip("/")] *)
Fixpoint lstrip (s : string) : string :=
  match s with
  | String c s' => if is_sep c then lstrip s' else s
  | EmptyString => EmptyString
  end.

(** [s[1:]] *)
Definition drop1 (s : string) : string :=
  match s with
  | String _ s' => s'
  | EmptyString => EmptyString
  end.

(** [s.startswith(p)], returning what follows the prefix. *)
Fixpoint strip_prefix (p s : string) : option string :=
  match p with
  | EmptyString => Some s
  | String c p' =>
      match s with
      | String d s' => if Ascii.eqb c d then strip_prefix p' s' else None
      | EmptyString => None
      end
  end.

(** [s.replace(old, new, 1)]: only the first occurrence, scanning from the
    left. *)
Fixpoint replace1 (old new s : string) : string :=
  match strip_prefix old s with
  | Some rest => (new ++ rest)%string
  | None =>
      match s with
      | EmptyString => EmptyString
      | String c s' => String c (replace1 old new s')
      end
  end.

(** Python compares strings by code point, lists lexicographically. *)
Fixpoint list_compare (l1 l2 : list string) : comparison :=
  match l1, l2 with
  | [], [] => Eq
  | [], _ :: _ => Lt
  | _ :: _, [] => Gt
  | x :: xs, y :: ys =>
      match String.compare x y with
      | Eq => list_compare xs ys
      | c => c
      end
  end.

End PyStr.

(** ** [pathlib.PurePosixPath] *)

Module PurePosixPath.
Import PyStr.

(** [_root] is [""], ["/"] or ["//"]; [_parts] holds the root first when
    there is one, then the names. *)
Record t : Type := mk { _root : string; _parts : list string }.

(** [_PosixFlavour.splitroot]: exactly two leading slashes are kept as a
    root of their own, any other number collapses to one. *)
Definition splitroot (part : string) : string * string :=
  match part with
  | String c _ =>
      if is_sep c then
        let stripped_part := lstrip part in
        if Nat.eqb (String.length part - String.length stripped_part) 2
        then ("//", stripped_part)
        else ("/", stripped_part)
      else ("", part)
  | EmptyString => ("", part)
  end.

(** [if x and x != '.'] *)
Definition keep_name (x : string) : bool :=
  negb (x =? "") && negb (x =? ".").

(** The loop of [_Flavour.parse_parts] over [reversed(parts)]: empty
    arguments are skipped, and the walk stops at the first argument (from
    the right) that has a root. *)
Fixpoint parse_reversed (it : list string) : string * list string :=
  match it with
  | [] => ("", [])
  | part :: it' =>
      if part =? "" then parse_reversed it'
      else
        let '(root, rel) := splitroot part in
        let names := filter keep_name (split rel) in
        if root =? "" then
          let '(root', names') := parse_reversed it' in (root', names' ++ names)
        else (root, names)
  end.

(** The constructor [PurePosixPath] applied to string arguments. *)
Definition make (args : list string) : t :=
  let '(root, names) := parse_reversed (rev args) in
  mk root (if root =? "" then names else root :: names).

Definition parts (p : t) : list string := _parts p.

Definition is_absolute (p : t) : bool := negb (_root p =? "").

(** [_format_parsed_parts], and ['.'] for the empty path. *)
Definition str (p : t) : string :=
  let s := if _root p =? "" then join (_parts p)
           else (_root p ++ join (tl (_parts p)))%string in
  if s =? "" then "." else s.

Definition as_posix (p : t) : string := str p.

(** [name]: the last part, unless the path is only a root. *)
Definition name (p : t) : string :=
  if Nat.eqb (length (_parts p)) (if _root p =? "" then 0 else 1) then ""
  else last (_parts p) "".

(** [parent] *)
Definition parent (p : t) : t :=
  if Nat.eqb (length (_parts p)) 1 && negb (_root p =? "") then p
  else mk (_root p) (removelast (_parts p)).

(** [parents]: [_PathParents], item [idx] is [parts[:-idx - 1]]. *)
Definition parents (p : t) : list t :=
  let n := length (_parts p) in
  let len := if _root p =? "" then n else n - 1 in
  map (fun idx => mk (_root p) (firstn (n - idx - 1) (_parts p))) (seq 0 len).

(** [self / key]: a rooted right operand replaces the left one. *)
Definition truediv (p : t) (key : string) : t :=
  let q := make [key] in
  if _root q =? "" then mk (_root p) (_parts p ++ _parts q) else q.

Definition list_eqb (l1 l2 : list string) : bool :=
  match list_compare l1 l2 with Eq => true | _ => false end.

(** Comparison goes through [_cparts], the parts themselves on POSIX. *)
Definition eqb (p q : t) : bool := list_eqb (_parts p) (_parts q).
Definition ltb (p q : t) : bool :=
  match list_compare (_parts p) (_parts q) with Lt => true | _ => false end.
Definition leb (p q : t) : bool :=
  match list_compare (_parts p) (_parts q) with Gt => false | _ => true end.
Definition gtb (p q : t) : bool := ltb q p.
Definition geb (p q : t) : bool := leb q p.

(** [_abs_parts] of [relative_to]: drive and root as two entries. *)
Definition abs_parts (p : t) : list string :=
  if _root p =? "" then _parts p else "" :: _root p :: tl (_parts p).

Fixpoint is_prefix (l1 l2 : list string) : bool :=
  match l1, l2 with
  | [], _ => true
  | x :: xs, y :: ys => (x =? y) && is_prefix xs ys
  | _ :: _, [] => false
  end.

(** [relative_to(other)]; [None] stands for the [ValueError]. *)
Definition relative_to (p other : t) : option t :=
  let to_abs_parts := abs_parts other in
  let n := length to_abs_parts in
  let bad := if Nat.eqb n 0 then negb (_root p =? "")
             else negb (is_prefix to_abs_parts (abs_parts p)) in
  if bad then None else Some (mk "" (skipn n (abs_parts p))).

Definition is_relative_to (p other : t) : bool :=
  match relative_to p other with Some _ => true | None => false end.

(** [joinpath] with its arguments: [_make_child(args)], of which
    [self / key] is the one-argument case. *)
Definition joinpath (p : t) (args : list string) : t :=
  let q := make args in
  if _root q =? "" then mk (_root p) (_parts p ++ _parts q) else q.

(** [name[-1] == "/"] *)
Fixpoint ends_with_sep (s : string) : bool :=
  match s with
  | EmptyString => false
  | String c EmptyString => is_sep c
  | String _ s' => ends_with_sep s'
  end.

(** [with_name(name)]; [None] stands for either [ValueError].  The new
    name is parsed for the test only: it is appended as it was given. *)
Definition with_name (p : t) (name_ : string) : option t :=
  if name p =? "" then None
  else
    let q := make [name_] in
    if (name_ =? "") || ends_with_sep name_ || negb (_root q =? "")
       || negb (Nat.eqb (length (_parts q)) 1)
    then None
    else Some (mk (_root p) (removelast (_parts p) ++ [name_])).

(** [match(path_pattern)] is written over [fnmatch.fnmatchcase], the
    standard library's test of one name against one shell pattern. *)
Section Match.
Variable fnmatchcase : string -> string -> bool.

(** The loop over [zip(reversed(parts), reversed(pat_parts))]; both
    arguments come reversed. *)
Fixpoint match_zip (parts_ pat_parts : list string) : bool :=
  match parts_, pat_parts with
  | part :: parts', pat :: pats' =>
      if fnmatchcase part pat then match_zip parts' pats' else false
  | _, _ => true
  end.

(** [None] stands for the [ValueError] of an empty pattern. *)
Definition match_ (p : t) (path_pattern : string) : option bool :=
  let q := make [path_pattern] in
  let pat_parts := _parts q in
  if Nat.eqb (length pat_parts) 0 then None
  else if negb (_root q =? "") && negb (_root q =? _root p) then Some false
  else if negb (_root q =? "") then
    if negb (Nat.eqb (length pat_parts) (length (_parts p))) then Some false
    else Some (match_zip (rev (_parts p)) (rev (tl pat_parts)))
  else if Nat.ltb (length (_parts p)) (length pat_parts) then Some false
  else Some (match_zip (rev (_parts p)) (rev pat_parts)).

End Match.

End PurePosixPath.

(** ** Python exceptions and results *)

Inductive exn : Type :=
| ValueError (msg : string)
| TypeError (msg : string)
| EEException (msg : string).

Inductive outcome (A : Type) : Type :=
| Ok (a : A)
| Raise (e : exn).

Arguments Ok {A} a.
Arguments Raise {A} e.

(** ** The fragment of [re] used by [Asset.parents] *)

Module Re.
Import PyStr.

Definition newline : ascii := ascii_of_nat 10.

(** The four patterns are built from literal characters, the class
    [[^/]+] and a final [$]. *)
Inductive atom : Type :=
| Lit (c : ascii)
| NotSepPlus
| Dollar.

Fixpoint lits (s : string) : list atom :=
  match s with
  | EmptyString => []
  | String c s' => Lit c :: lits s'
  end.

(** [[^/]+] followed by the rest of the pattern [k]: one character or more,
    none of them a separator (a negated class also accepts a newline). *)
Fixpoint plus_not_sep (k : string -> bool) (s : string) : bool :=
  match s with
  | EmptyString => false
  | String d s' => negb (is_sep d) && (plus_not_sep k s' || k s')
  end.

(** Matching from the current position.  [$] holds at the end of the text
    or just before a final newline. *)
Fixpoint match_here (p : list atom) (s : string) : bool :=
  match p with
  | [] => true
  | Lit c :: p' =>
      match s with
      | String d s' => Ascii.eqb c d && match_here p' s'
      | EmptyString => false
      end
  | Dollar :: p' =>
      ((s =? "") || (s =? String newline "")) && match_here p' s
  | NotSepPlus :: p' => plus_not_sep (match_here p') s
  end.

(** [re.match(p, s)] for a pattern written [^p]: the match is anchored at
    the start of [s] in any case. *)
Definition match_ (p : list atom) (s : string) : bool := match_here p s.

End Re.

(** ** The remote asset store

    [ee.data] is an external service.  It is modelled as the state the class
    reads and writes: the records in the store's listing order, the sources
    the service refuses to copy (quota, permissions: the only way a leaf copy
    can fail once its target folder exists), and the log of the calls issued
    so far, oldest first. *)

Module Remote.
Import PyStr.

Inductive call : Type :=
| GetAsset (id : string)
| ListAssets (parent : string)
| CreateAsset (id : string)
| CopyAsset (src dst : string)
| DeleteAsset (id : string).

(** An entry is an identifier with its type tag. *)
Definition entry : Type := (string * string)%type.

Record world : Type := mkWorld {
  store : list entry;
  copy_denied : list string;
  log : list call
}.

(** A computation either runs out of recursion depth ([None]), or ends
    with a value or an exception in a new world. *)
Definition M (A : Type) : Type := world -> option (outcome A * world).

Definition ret {A} (a : A) : M A := fun w => Some (Ok a, w).
Definition raise {A} (e : exn) : M A := fun w => Some (Raise e, w).
Definition out_of_fuel {A} : M A := fun _ => None.

Definition bind {A B} (m : M A) (f : A -> M B) : M B :=
  fun w =>
    match m w with
    | Some (Ok a, w') => f a w'
    | Some (Raise e, w') => Some (Raise e, w')
    | None => None
    end.

Definition lift {A} (o : outcome A) : M A :=
  match o with Ok a => ret a | Raise e => raise e end.

(** [try: m  except ee.EEException: handler] *)
Definition try_except_EE {A} (m : M A) (handler : M A) : M A :=
  fun w =>
    match m w with
    | Some (Raise (EEException _), w') => handler w'
    | r => r
    end.

Definition record (c : call) : M unit :=
  fun w => Some (Ok tt, mkWorld (store w) (copy_denied w) (log w ++ [c])).

Definition get_store : M (list entry) := fun w => Some (Ok (store w), w).
Definition get_denied : M (list string) := fun w => Some (Ok (copy_denied w), w).
Definition put_store (s : list entry) : M unit :=
  fun w => Some (Ok tt, mkWorld s (copy_denied w) (log w)).

Fixpoint lookup (id : string) (s : list entry) : option string :=
  match s with
  | [] => None
  | (k, ty) :: s' => if k =? id then Some ty else lookup id s'
  end.

(** [id] is [parent/name] for one non-empty name. *)
Definition is_child (parent id : string) : bool :=
  match strip_prefix (parent ++ String sep "") id with
  | Some name => negb (name =? "") && negb (contains_sep name)
  | None => false
  end.

Definition children (parent : string) (s : list entry) : list entry :=
  filter (fun e => is_child parent (fst e)) s.

Definition remove (id : string) (s : list entry) : list entry :=
  filter (fun e => negb (fst e =? id)) s.

(** Writing a type at [id]: in place when the record exists, at the end of
    the listing otherwise. *)
Fixpoint write (id ty : string) (s : list entry) : list entry :=
  match s with
  | [] => [(id, ty)]
  | (k, ty') :: s' => if k =? id then (k, ty) :: s' else (k, ty') :: write id ty s'
  end.

Local Notation "x <- m ;; k" := (bind m (fun x => k))
  (at level 61, m at next level, right associativity).
Local Notation "m ;;; k" := (bind m (fun _ => k))
  (at level 61, right associativity).

(** [ee.data.getAsset(id)]: the record's type tag, or [EEException]. *)
Definition getAsset (id : string) : M string :=
  record (GetAsset id) ;;;
  s <- get_store ;;
  match lookup id s with
  | Some ty => ret ty
  | None => raise (EEException ("Asset " ++ id ++ " not found."))
  end.

(** [ee.data.listAssets({"parent": id})["assets"]]: one level of children
    in the store's order. *)
Definition listAssets (parent : string) : M (list entry) :=
  record (ListAssets parent) ;;;
  s <- get_store ;;
  ret (children parent s).

(** [ee.data.createAsset({"type": "FOLDER"}, id)]: fails on an existing
    identifier. *)
Definition createAsset (id : string) : M unit :=
  record (CreateAsset id) ;;;
  s <- get_store ;;
  match lookup id s with
  | Some _ => raise (EEException ("Cannot overwrite asset " ++ id ++ "."))
  | None => put_store (s ++ [(id, "FOLDER")])
  end.

(** [ee.data.copyAsset(src, dst, allowOverwrite=True)] *)
Definition copyAsset (src dst : string) : M unit :=
  record (CopyAsset src dst) ;;;
  denied <- get_denied ;;
  s <- get_store ;;
  if existsb (String.eqb src) denied
  then raise (EEException ("Copy of " ++ src ++ " refused."))
  else match lookup src s with
       | Some ty => put_store (write dst ty s)
       | None => raise (EEException ("Asset " ++ src ++ " not found."))
       end.

(** [ee.data.deleteAsset(id)]: a folder must be empty. *)
Definition deleteAsset (id : string) : M unit :=
  record (DeleteAsset id) ;;;
  s <- get_store ;;
  match lookup id s with
  | None => raise (EEException ("Asset " ++ id ++ " not found."))
  | Some ty =>
      if (ty =? "FOLDER") && negb (Nat.eqb (length (children id s)) 0)
      then raise (EEException ("Asset " ++ id ++ " is not empty."))
      else put_store (remove id s)
  end.

(** Loops: [for x in l: body], a loop that rebinds a variable, and a
    comprehension with an effectful filter. *)
Fixpoint for_each {A} (body : A -> M unit) (l : list A) : M unit :=
  match l with
  | [] => ret tt
  | x :: l' => body x ;;; for_each body l'
  end.

Fixpoint fold_m {A S} (body : S -> A -> M S) (l : list A) (s : S) : M S :=
  match l with
  | [] => ret s
  | x :: l' => s' <- body s x ;; fold_m body l' s'
  end.

Fixpoint filter_m {A} (pred : A -> M bool) (l : list A) : M (list A) :=
  match l with
  | [] => ret []
  | x :: l' =>
      b <- pred x ;;
      rest <- filter_m pred l' ;;
      ret (if b then x :: rest else rest)
  end.

End Remote.

Declare Scope remote_scope.
Delimit Scope remote_scope with remote.
Notation "x <- m ;; k" := (Remote.bind m (fun x => k))
  (at level 61, m at next level, right associativity) : remote_scope.
Notation "m ;;; k" := (Remote.bind m (fun _ => k))
  (at level 61, right associativity) : remote_scope.

(** ** The [Asset] class *)

Module Asset.
Import PyStr Remote.
Local Open Scope remote_scope.

Record t : Type := mk { _path : PurePosixPath.t }.

(** *** Path arithmetic *)

(** Second line of [__init__]: an absolute path loses the first character
    of its string form and is parsed again. *)
Definition init_path (p : PurePosixPath.t) : t :=
  mk (if PurePosixPath.is_absolute p
      then PurePosixPath.make [drop1 (PurePosixPath.str p)]
      else p).

(** The constructor on string arguments (the class is always called with
    at least one argument: [args[0]] is read first), [Asset(path)] with a
    [PurePosixPath], whose parts [PurePosixPath] parses again, and
    [Asset(asset)] with another asset, whose path is taken as it is. *)
Definition new (args : list string) : t := init_path (PurePosixPath.make args).
Definition of_path (p : PurePosixPath.t) : t :=
  init_path (PurePosixPath.make (PurePosixPath._parts p)).
Definition of_asset (a : t) : t := init_path (_path a).

Definition as_posix (a : t) : string := PurePosixPath.as_posix (_path a).
Definition str (a : t) : string := as_posix a.

Definition parts (a : t) : list string := PurePosixPath.parts (_path a).
Definition name (a : t) : string := PurePosixPath.name (_path a).
Definition parent (a : t) : t := of_path (PurePosixPath.parent (_path a)).

(** [__truediv__] *)
Definition truediv (a : t) (other : string) : t :=
  of_path (PurePosixPath.truediv (_path a) other).

(** The rich comparisons all rebuild a [PurePosixPath] from [str(other)]. *)
Definition lt (a other : t) : bool :=
  PurePosixPath.ltb (_path a) (PurePosixPath.make [str other]).
Definition gt (a other : t) : bool :=
  PurePosixPath.gtb (_path a) (PurePosixPath.make [str other]).
Definition le (a other : t) : bool :=
  PurePosixPath.leb (_path a) (PurePosixPath.make [str other]).
Definition ge (a other : t) : bool :=
  PurePosixPath.geb (_path a) (PurePosixPath.make [str other]).
Definition eq (a other : t) : bool :=
  PurePosixPath.eqb (_path a) (PurePosixPath.make [str other]).
Definition ne (a other : t) : bool :=
  negb (PurePosixPath.eqb (_path a) (PurePosixPath.make [str other])).

(** The class body defines [__eq__] and no [__hash__]: Python then sets
    [__hash__] to [None], and [hash(asset)] raises. *)
Definition hash (a : t) : outcome nat :=
  Raise (TypeError "unhashable type: 'Asset'").

(** [home()], for the project held in [ee.data._cloud_api_user_project]. *)
Definition home (project : string) : t :=
  new [("projects/" ++ project ++ "/assets/")%string].

Definition is_absolute (a : t) (raised : bool) : outcome bool :=
  if match nth_error (parts a) 0, nth_error (parts a) 2 with
     | Some p0, Some p2 => (p0 =? "projects") && (p2 =? "assets")
     | _, _ => false
     end
  then Ok true
  else if raised
       then Raise (ValueError ("Asset " ++ as_posix a ++ " is not absolute."))
       else Ok false.

Definition is_relative_to (a : t) (other : string) : bool :=
  PurePosixPath.is_relative_to (_path a) (PurePosixPath.make [other]).

Definition expanduser (project : string) (a : t) : t :=
  new [replace1 "~" (as_posix (home project)) (as_posix a)].

(** [is_project]: only the path structure is looked at. *)
Definition is_project (a : t) (raised : bool) : outcome bool :=
  if match is_absolute a false with
     | Ok true => Nat.eqb (length (parts a)) 3
     | _ => false
     end
  then Ok true
  else if raised
       then Raise (ValueError ("Asset " ++ as_posix a ++ " is not a project."))
       else Ok false.

Definition patterns : list (list Re.atom) :=
  [ [Re.Lit "."; Re.Dollar];
    Re.lits "projects" ++ [Re.Dollar];
    Re.lits "projects/" ++ [Re.NotSepPlus; Re.Dollar];
    Re.lits "projects/" ++ [Re.NotSepPlus] ++ Re.lits "/assets" ++ [Re.Dollar] ].

(** [parents]: the ancestors whose string form matches none of the
    patterns. *)
Definition parents (a : t) : list t :=
  map of_path
      (filter (fun a' => negb (existsb (fun p => Re.match_ p (PurePosixPath.str a')) patterns))
              (PurePosixPath.parents (_path a))).

(** *** Queries on the store *)

Definition exists_ (self : t) (raised : bool) : M bool :=
  try_except_EE
    (getAsset (as_posix self) ;;; ret true)
    (if raised
     then raise (ValueError ("Asset " ++ as_posix self ++ " does not exist."))
     else ret false).

(** The [type] property. *)
Definition type (self : t) : M string :=
  exists_ self true ;;;
  getAsset (as_posix self).

Definition is_type (self : t) (asset_type : string) (raised : bool) : M bool :=
  exists_ self true ;;;
  ty <- type self ;;
  if ty =? asset_type then ret true
  else if raised
       then raise (ValueError ("Asset " ++ as_posix self ++ " is not a " ++ asset_type ++ "."))
       else ret false.

Definition is_image (self : t) (raised : bool) : M bool :=
  is_type self "IMAGE" raised.

Definition is_image_collection (self : t) (raised : bool) : M bool :=
  is_type self "IMAGE_COLLECTION" raised.

(** [is_type("FEATURE_COLLECTION", raised) or is_type("TABLE", raised)] *)
Definition is_feature_collection (self : t) (raised : bool) : M bool :=
  b <- is_type self "FEATURE_COLLECTION" raised ;;
  if b then ret true else is_type self "TABLE" raised.

Definition is_folder (self : t) (raised : bool) : M bool :=
  is_type self "FOLDER" raised.

(** The [st_size] property; [sizeBytes] stands for the field of that name
    in the record the service returns for an identifier, read as an
    integer. *)
Definition st_size (sizeBytes : string -> nat) (self : t) : M nat :=
  exists_ self true ;;;
  f <- is_folder self false ;;
  if f then raise (ValueError ("Asset " ++ as_posix self ++ " is a folder."))
  else getAsset (as_posix self) ;;; ret (sizeBytes (as_posix self)).

(** *** Listing *)

(** The inner function of [iterdir]; [recursive] is the enclosing
    method's argument.  [asset_list] is one list object, appended to in
    place and handed back.  [fuel] bounds the depth of the recursion, as
    the interpreter's recursion limit does. *)
Fixpoint _recursive_get (recursive : bool) (fuel : nat) (folder : string)
         (asset_list : list t) : M (list t) :=
  match fuel with
  | O => out_of_fuel
  | S fuel' =>
      assets <- listAssets folder ;;
      fold_m (fun asset_list asset =>
                let asset_list := asset_list ++ [new [fst asset]] in
                if (snd asset =? "FOLDER") && recursive
                then _recursive_get recursive fuel' (fst asset) asset_list
                else ret asset_list)
             assets asset_list
  end.

Definition iterdir (fuel : nat) (self : t) (recursive : bool) : M (list t) :=
  (match is_project self false with
   | Ok true => ret true
   | _ => is_type self "FOLDER" true
   end) ;;;
  if negb recursive
  then asset_ids <- listAssets (as_posix self) ;;
       ret (map (fun asset => new [fst asset]) asset_ids)
  else _recursive_get recursive fuel (str self) [].

(** *** Creation *)

Definition mkdir (self : t) (parents_ exist_ok : bool) : M t :=
  lift (is_absolute self true) ;;;
  to_be_created <-
    filter_m (fun p => e <- exists_ p false ;; ret (negb e)) (parents self) ;;
  e <- exists_ self false ;;
  to_be_created <-
    (if e && negb exist_ok
     then raise (ValueError ("Asset " ++ as_posix self ++ " already exists."))
     else e' <- exists_ self false ;;
          ret (if negb e' then self :: to_be_created else to_be_created)) ;;
  if Nat.ltb 1 (length to_be_created) && negb parents_
  then raise (ValueError ("Parent Asset " ++ String dquote (str (last to_be_created self))
                            ++ String dquote " does not exist."))
  else
    for_each (fun p => createAsset (as_posix p)) (rev to_be_created) ;;;
    ret self.

(** *** Deletion *)

Definition unlink (self : t) : M unit :=
  exists_ self true ;;;
  deleteAsset (as_posix self).

Definition delete (self : t) : M unit := unlink self.

(** [assets_ordered.setdefault(lvl, [])] followed by
    [assets_ordered[lvl].append(asset)], on a dict kept in insertion
    order. *)
Fixpoint setdefault_append (d : list (nat * list t)) (lvl : nat) (asset : t)
  : list (nat * list t) :=
  match d with
  | [] => [(lvl, [asset])]
  | (k, b) :: d' =>
      if Nat.eqb k lvl then (k, b ++ [asset]) :: d'
      else (k, b) :: setdefault_append d' lvl asset
  end.

Fixpoint insert_reverse (e : nat * list t) (d : list (nat * list t))
  : list (nat * list t) :=
  match d with
  | [] => [e]
  | e' :: d' =>
      if Nat.ltb (fst e') (fst e) then e :: e' :: d'
      else e' :: insert_reverse e d'
  end.

(** [dict(sorted(assets_ordered.items(), reverse=True))]: the keys are
    distinct, the items come out by decreasing key. *)
Definition sorted_reverse (d : list (nat * list t)) : list (nat * list t) :=
  fold_right insert_reverse [] d.

(** [assets_ordered[lvl]] *)
Fixpoint getitem (d : list (nat * list t)) (lvl : nat) : list t :=
  match d with
  | [] => []
  | (k, b) :: d' => if Nat.eqb k lvl then b else getitem d' lvl
  end.

(** The levels of [asset_list], deepest first. *)
Definition assets_ordered (asset_list : list t) : list (nat * list t) :=
  sorted_reverse
    (fold_left (fun d asset => setdefault_append d (length (parts asset)) asset)
               asset_list []).

(** The inner function [delete] of [rmdir]; [dry_run] and [output] are
    variables of the enclosing call.  The identifier is recorded first,
    then deleted unless the run is dry. *)
Definition rmdir_delete (dry_run : bool) (output : list string) (asset : t)
  : M (list string) :=
  let output := output ++ [str asset] in
  (if dry_run then ret tt else deleteAsset (str asset)) ;;;
  ret output.

Definition rmdir (fuel : nat) (self : t) (recursive : bool) (dry_run : option bool)
  : M (list string) :=
  is_type self "FOLDER" true ;;;
  let dry_run := match dry_run with Some d => d | None => recursive end in
  let delete := rmdir_delete dry_run in
  output <-
    (if recursive
     then asset_list <- iterdir fuel self true ;;
          let assets_ordered := assets_ordered asset_list in
          fold_m (fun output lvl => fold_m delete (getitem assets_ordered lvl) output)
                 (map fst assets_ordered) []
     else ret []) ;;
  delete output self.

(** *** Copy and move *)

Definition relative_to (asset self : t) : M PurePosixPath.t :=
  match PurePosixPath.relative_to (_path asset) (_path self) with
  | Some rel => ret rel
  | None => raise (ValueError ("'" ++ str asset ++ "' is not in the subpath of '"
                                  ++ str self
                                  ++ "' OR one path is relative and the other is absolute."))
  end.

(** [copy] and [move] call themselves on each child of a folder; [fuel]
    bounds the depth of that recursion.  The plain [iterdir] they use needs
    none. *)
Fixpoint copy (fuel : nat) (self new_asset : t) (overwrite : bool) : M t :=
  match fuel with
  | O => out_of_fuel
  | S fuel' =>
      e <- exists_ new_asset false ;;
      if e && negb overwrite
      then raise (ValueError ("Asset " ++ as_posix new_asset ++ " already exists."))
      else
        mkdir (parent new_asset) true true ;;;
        f <- is_folder self false ;;
        (if f
         then mkdir new_asset true true ;;;
              children <- iterdir 0 self false ;;
              for_each (fun asset =>
                          rel <- relative_to asset self ;;
                          let loc_asset := truediv new_asset (PurePosixPath.str rel) in
                          copy fuel' asset loc_asset overwrite ;;; ret tt)
                       children
         else copyAsset (as_posix self) (as_posix new_asset)) ;;;
        ret new_asset
  end.

Fixpoint move (fuel : nat) (self new_asset : t) (overwrite : bool) : M t :=
  match fuel with
  | O => out_of_fuel
  | S fuel' =>
      e <- exists_ new_asset false ;;
      if e && negb overwrite
      then raise (ValueError ("Asset " ++ as_posix new_asset ++ " already exists."))
      else
        mkdir (parent new_asset) true true ;;;
        f <- is_folder self false ;;
        (if f
         then mkdir new_asset true true ;;;
              children <- iterdir 0 self false ;;
              for_each (fun asset =>
                          rel <- relative_to asset self ;;
                          let loc_asset := truediv new_asset (PurePosixPath.str rel) in
                          move fuel' asset loc_asset overwrite ;;; ret tt)
                       children
         else copyAsset (as_posix self) (as_posix new_asset)) ;;;
        unlink self ;;;
        ret new_asset
  end.

(** *** Further path methods *)

Definition joinpath (a : t) (args : list string) : t :=
  of_path (PurePosixPath.joinpath (_path a) args).

(** [with_name]: the messages quote the path and the name as [repr] does
    for text without quotes or escapes. *)
Definition with_name (a : t) (name_ : string) : outcome t :=
  match PurePosixPath.with_name (_path a) name_ with
  | Some p => Ok (of_path p)
  | None =>
      Raise (ValueError
               (if name a =? ""
                then "PurePosixPath('" ++ as_posix a ++ "') has an empty name"
                else "Invalid name '" ++ name_ ++ "'")%string)
  end.

(** [is_user_project], for the project held in
    [ee.data._cloud_api_user_project]. *)
Definition is_user_project (project : string) (a : t) (raised : bool) : outcome bool :=
  if is_relative_to a (PurePosixPath.str (_path (home project)))
  then Ok true
  else if raised
       then Raise (ValueError ("Asset " ++ as_posix a
                                 ++ " is not in the same project as the user ("
                                 ++ project ++ ")"))
       else Ok false.

(** The [owner] property: [parts[1]] once the path is known to be
    absolute. *)
Definition owner (a : t) : outcome string :=
  match is_absolute a true with
  | Raise e => Raise e
  | Ok _ => Ok (nth 1 (parts a) "")
  end.

(** *** Pattern matching on listings *)

Section Glob.
Variable fnmatchcase : string -> string -> bool.

Definition match_ (a : t) (pattern : string) : outcome bool :=
  match PurePosixPath.match_ fnmatchcase (_path a) pattern with
  | Some b => Ok b
  | None => Raise (ValueError "empty pattern")
  end.

(** [[a for a in self.iterdir(recursive=False) if a.match(pattern)]] *)
Definition glob (self : t) (pattern : string) : M (list t) :=
  l <- iterdir 0 self false ;;
  filter_m (fun a => lift (match_ a pattern)) l.

Definition rglob (fuel : nat) (self : t) (pattern : string) : M (list t) :=
  l <- iterdir fuel self true ;;
  filter_m (fun a => lift (match_ a pattern)) l.

End Glob.

(** *** Task descriptions *)

(** The character the source writes as an inverted question mark, code
    point 191. *)
Definition inverted_question : ascii := ascii_of_nat 191.

(** [re.sub(pattern, rep, desc)] for a pattern that is an alternation of
    escaped single characters: each occurrence of one of [chars] is
    replaced by [rep]. *)
Fixpoint re_sub (chars : list ascii) (rep : string) (desc : string) : string :=
  match desc with
  | EmptyString => EmptyString
  | String c desc' =>
      if existsb (Ascii.eqb c) chars
      then (rep ++ re_sub chars rep desc')%string
      else String c (re_sub chars rep desc')
  end.

Definition replacements : list (list ascii * string) :=
  [ ([" "%char], "_");
    (["/"%char], "-");
    (["?"%char; "!"%char; inverted_question; "*"%char], ".");
    (["("%char; ")"%char; "["%char; "]"%char; "{"%char; "}"%char], ":") ].

(** [format_description]; [anyascii] is the transliteration function of
    the package of that name. *)
Definition format_description (anyascii : string -> string) (description : string)
  : string :=
  let desc := anyascii description in
  let desc := fold_left (fun desc r => re_sub (fst r) (snd r) desc) replacements desc in
  substring 0 100 desc.

Definition as_description (anyascii : string -> string) (a : t) : string :=
  format_description anyascii (name a).

End Asset.

(** ** Well-formed paths and specification-level notions *)

Module Spec.
Import PyStr.

(** A name as the parser leaves it: not empty, not ["."], no separator. *)
Definition valid_name (x : string) : bool :=
  PurePosixPath.keep_name x && negb (contains_sep x).

(** The shape of every path the constructor returns. *)
Definition wf_path (p : PurePosixPath.t) : Prop :=
  exists names,
    forallb valid_name names = true /\
    ((PurePosixPath._root p = "" /\ PurePosixPath._parts p = names) \/
     (PurePosixPath._root p = "/" /\ PurePosixPath._parts p = "/" :: names) \/
     (PurePosixPath._root p = "//" /\ PurePosixPath._parts p = "//" :: names)).

(** An asset in normal form: no root left, valid names only. *)
Definition normal (a : Asset.t) : Prop :=
  PurePosixPath._root (Asset._path a) = "" /\
  forallb valid_name (Asset.parts a) = true.

(** The first character, if any, is not a separator. *)
Definition head_not_sep (s : string) : Prop :=
  match s with
  | String c _ => is_sep c = false
  | EmptyString => True
  end.

(** The test [parents] applies to the string form of an ancestor. *)
Definition scaffolding (s : string) : bool :=
  existsb (fun p => Re.match_ p s) Asset.patterns.

End Spec.

(** ** The listing and deletion orders of the specification *)

Module TreeSpec.
Import PyStr Remote.

(** Pre-order over the store [s]: the entries of one listing are taken in
    the store's order; each is followed at once by the whole listing of its
    own subtree when its type is [FOLDER], and by nothing otherwise, before
    the next sibling comes. *)
Inductive PreorderOf (s : list entry) : list entry -> list Asset.t -> Prop :=
| PreorderOf_nil : PreorderOf s [] []
| PreorderOf_leaf id ty rest l :
    ty <> "FOLDER" ->
    PreorderOf s rest l ->
    PreorderOf s ((id, ty) :: rest) (Asset.new [id] :: l)
| PreorderOf_sub id rest sub l :
    PreorderOf s (children id s) sub ->
    PreorderOf s rest l ->
    PreorderOf s ((id, "FOLDER") :: rest) (Asset.new [id] :: sub ++ l).

Definition Preorder (s : list entry) (folder : string) (l : list Asset.t) : Prop :=
  PreorderOf s (children folder s) l.

(** The descendants a listing can reach: children, and descendants of
    children of type [FOLDER]. *)
Inductive Reachable (s : list entry) : string -> string -> Prop :=
| Reachable_child folder id ty :
    In (id, ty) (children folder s) -> Reachable s folder id
| Reachable_sub folder mid id :
    In (mid, "FOLDER") (children folder s) ->
    Reachable s mid id ->
    Reachable s folder id.

(** The longest identifier of the store bounds the depth of any listing. *)
Definition max_id_length (s : list entry) : nat :=
  fold_right (fun e m => Nat.max (String.length (fst e)) m) 0 s.

(** A world after more calls, the store untouched. *)
Definition logged (w : world) (cs : list call) : world :=
  mkWorld (store w) (copy_denied w) (log w ++ cs).

Definition is_read (c : call) : bool :=
  match c with
  | GetAsset _ | ListAssets _ => true
  | _ => false
  end.

Definition is_delete (c : call) : bool :=
  match c with
  | DeleteAsset _ => true
  | _ => false
  end.

Definition is_create (c : call) : bool :=
  match c with
  | CreateAsset _ => true
  | _ => false
  end.

(** The identifiers of the [deleteAsset] calls of a log, in order. *)
Fixpoint deleted (cs : list call) : list string :=
  match cs with
  | [] => []
  | DeleteAsset id :: cs' => id :: deleted cs'
  | _ :: cs' => deleted cs'
  end.

(** [len(asset.parts)] *)
Definition depth (a : Asset.t) : nat := length (Asset.parts a).

(** The order in which [rmdir] hands the listed assets to [delete]: level
    after level of [assets_ordered]. *)
Definition deletion_order (asset_list : list Asset.t) : list Asset.t :=
  flat_map (Asset.getitem (Asset.assets_ordered asset_list))
           (map fst (Asset.assets_ordered asset_list)).

(** What [exists()] answers in the store [s]. *)
Definition present (s : list entry) (a : Asset.t) : bool :=
  match lookup (Asset.as_posix a) s with
  | Some _ => true
  | None => false
  end.


(** From [s] to [s'] no identifier is lost; no record changes; no
    identifier outside the subtree of [src] is lost. *)
Definition grows (s s' : list entry) : Prop :=
  forall id, lookup id s <> None -> lookup id s' <> None.

Definition extends (s s' : list entry) : Prop :=
  forall id ty, lookup id s = Some ty -> lookup id s' = Some ty.


(** The dict of [rmdir]: levels with their buckets. *)
Definition levels : Type := list (nat * list Asset.t).

(** Orders on levels and on assets: a deeper level, an asset at least as
    deep. *)
Definition deeper_key (e1 e2 : nat * list Asset.t) : Prop := fst e2 < fst e1.

Definition not_shallower (a b : Asset.t) : Prop := depth b <= depth a.

(** Every bucket holds assets of the depth it is filed under. *)
Definition filed_by_depth (d : levels) : Prop :=
  forall e, In e d -> forall a, In a (snd e) -> depth a = fst e.

(** [x] comes strictly before [y] in [l]. *)
Definition before {A} (l : list A) (x y : A) : Prop :=
  exists l1 l2 l3, l = l1 ++ x :: l2 ++ y :: l3.

(** The store holds identifiers in the form the constructor prints them. *)
Definition canonical (id : string) : bool :=
  Asset.str (Asset.new [id]) =? id.

Definition canonical_store (s : list entry) : Prop :=
  forallb (fun e => canonical (fst e)) s = true.

(** The identifiers of the [createAsset] calls of a log, in order. *)
Fixpoint created (cs : list call) : list string :=
  match cs with
  | [] => []
  | CreateAsset id :: cs' => id :: created cs'
  | _ :: cs' => created cs'
  end.

(** From [w] to [w'] no identifier is lost and no [deleteAsset] call is
    issued. *)
Definition no_deletion (w w' : world) : Prop :=
  grows (store w) (store w') /\
  exists cs, log w' = log w ++ cs /\ deleted cs = [].

(** The store without the records of [ids]. *)
Definition without (ids : list string) (s : list entry) : list entry :=
  filter (fun e => negb (existsb (String.eqb (fst e)) ids)) s.




(** The home folder of [project], component by component. *)
Definition home_parts (project : string) : list string :=
  ["projects"; project; "assets"].

(** The characters [format_description] replaces. *)
Definition replaced_chars : list ascii :=
  flat_map fst Asset.replacements.

End TreeSpec.

(** ** A small store used in the examples *)

Module Example.
Import Remote.

(** The root folder of project [p]; in it a folder [F] holding an image [a]
    and a folder [b], itself holding a table [c]; an image [G] next to
    [F]. *)
Definition store0 : list entry :=
  [ ("projects/p/assets", "FOLDER");
    ("projects/p/assets/F", "FOLDER");
    ("projects/p/assets/F/a", "IMAGE");
    ("projects/p/assets/F/b", "FOLDER");
    ("projects/p/assets/F/b/c", "TABLE");
    ("projects/p/assets/G", "IMAGE") ].

Definition w0 : world := mkWorld store0 [] [].

(** The same store when the service refuses to copy [F/b/c]. *)
Definition w1 : world := mkWorld store0 ["projects/p/assets/F/b/c"] [].

Definition G : Asset.t := Asset.new ["projects/p/assets/G"].
Definition F : Asset.t := Asset.new ["projects/p/assets/F"].
Definition H : Asset.t := Asset.new ["projects/p/assets/H"].

(** Moving [F] to [H] in the first world: the outcome and the world it
    leaves. *)
Definition moved : outcome Asset.t * world :=
  match Asset.move 30 F H false w0 with
  | Some x => x
  | None => (Raise (ValueError "recursion depth exceeded"), w0)
  end.

(** A folder [F] holding an image [a] and an image collection [y], itself
    holding an image [i]. *)
Definition store2 : list entry :=
  [ ("projects/p/assets", "FOLDER");
    ("projects/p/assets/F", "FOLDER");
    ("projects/p/assets/F/a", "IMAGE");
    ("projects/p/assets/F/y", "IMAGE_COLLECTION");
    ("projects/p/assets/F/y/i", "IMAGE") ].

Definition w2 : world := mkWorld store2 [] [].

(** Copying [F] to [H] in the first world. *)
Definition copied : outcome Asset.t * world :=
  match Asset.copy 30 F H false w0 with
  | Some x => x
  | None => (Raise (ValueError "recursion depth exceeded"), w0)
  end.

End Example.

(** * Properties *)

(** ** Strings *)

Section StringFacts.
Import PyStr.

Lemma append_nil_r (s : string) : (s ++ "")%string = s.
Proof. induction s; simpl; congruence. Qed.

Lemma append_assoc (a b c : string) : ((a ++ b) ++ c = a ++ (b ++ c))%string.
Proof. induction a; simpl; congruence. Qed.

Lemma length_append (a b : string) :
  String.length (a ++ b) = String.length a + String.length b.
Proof. induction a; simpl; auto. Qed.

Lemma contains_sep_append (a b : string) :
  contains_sep (a ++ b) = contains_sep a || contains_sep b.
Proof.
  induction a as [|c a IH]; simpl; auto.
  rewrite IH. now rewrite orb_assoc.
Qed.

Lemma split_not_nil (s : string) : split s <> [].
Proof.
  induction s as [|c s IH]; simpl; try discriminate.
  destruct (is_sep c); try discriminate.
  destruct (split s); discriminate.
Qed.

(** A separator-free string is a single field. *)
Lemma split_no_sep (s : string) : contains_sep s = false -> split s = [s].
Proof.
  induction s as [|c s IH]; simpl; auto.
  intros H. apply orb_false_iff in H as [Hc Hs].
  rewrite Hc, (IH Hs). reflexivity.
Qed.

(** Splitting distributes over a separator. *)
Lemma split_append_sep (a b : string) :
  contains_sep a = false ->
  split (a ++ String sep b) = a :: split b.
Proof.
  induction a as [|c a IH]; simpl; intros H.
  - reflexivity.
  - apply orb_false_iff in H as [Hc Hs].
    rewrite Hc, (IH Hs). reflexivity.
Qed.

Lemma split_append_any (a b : string) :
  split (a ++ String sep b) = split a ++ split b.
Proof.
  induction a as [|c a IH]; simpl.
  - reflexivity.
  - destruct (is_sep c); simpl.
    + now rewrite IH.
    + rewrite IH. destruct (split a) eqn:E.
      * now apply split_not_nil in E.
      * reflexivity.
Qed.

Lemma split_fields_no_sep (s : string) :
  Forall (fun x => contains_sep x = false) (split s).
Proof.
  induction s as [|c s IH]; simpl.
  - repeat constructor.
  - destruct (is_sep c) eqn:Hc.
    + constructor; auto.
    + destruct (split s) as [|x xs].
      * constructor; [simpl; now rewrite Hc | constructor].
      * inversion IH as [|? ? Hx Hxs]; subst.
        constructor; [simpl; now rewrite Hc, Hx | assumption].
Qed.

Lemma split_join (l : list string) :
  l <> [] ->
  Forall (fun x => contains_sep x = false) l ->
  split (join l) = l.
Proof.
  induction l as [|x l IH]; intros Hne Hall; [congruence|].
  inversion Hall as [|? ? Hx Hl]; subst.
  destruct l as [|y l].
  - simpl. now apply split_no_sep.
  - change (join (x :: y :: l)) with (x ++ String sep (join (y :: l)))%string.
    rewrite split_append_sep by assumption.
    rewrite IH; auto. discriminate.
Qed.

Lemma strip_prefix_append (p s : string) : strip_prefix p (p ++ s) = Some s.
Proof.
  induction p as [|c p IH]; simpl; auto.
  now rewrite Ascii.eqb_refl.
Qed.

Lemma strip_prefix_Some (p s r : string) :
  strip_prefix p s = Some r -> s = (p ++ r)%string.
Proof.
  revert s; induction p as [|c p IH]; simpl; intros s H.
  - congruence.
  - destruct s as [|d s]; try discriminate.
    destruct (Ascii.eqb c d) eqn:E; try discriminate.
    apply Ascii.eqb_eq in E; subst. f_equal. auto.
Qed.

Example split_example : split "a//b/" = ["a"; ""; "b"; ""].
Proof. reflexivity. Qed.

End StringFacts.

(** ** Parsing and printing paths *)

Section PathFacts.
Import PyStr Spec.

Lemma valid_name_inv (x : string) :
  valid_name x = true ->
  x <> "" /\ x <> "." /\ contains_sep x = false /\ head_not_sep x.
Proof.
  unfold valid_name, PurePosixPath.keep_name. intros H.
  apply andb_true_iff in H as [H Hs]. apply andb_true_iff in H as [He Hd].
  apply negb_true_iff in Hs, He, Hd.
  apply String.eqb_neq in He, Hd.
  repeat split; auto.
  destruct x as [|c x]; simpl in *; auto.
  now apply orb_false_iff in Hs.
Qed.

Lemma valid_names_no_sep (names : list string) :
  forallb valid_name names = true ->
  Forall (fun x => contains_sep x = false) names.
Proof.
  intros H. apply Forall_forall. intros x Hx.
  rewrite forallb_forall in H. apply H in Hx.
  now apply valid_name_inv in Hx.
Qed.

Lemma filter_keep_valid (names : list string) :
  forallb valid_name names = true ->
  filter PurePosixPath.keep_name names = names.
Proof.
  induction names as [|x l IH]; simpl; auto.
  intros H. apply andb_true_iff in H as [Hx Hl].
  unfold valid_name in Hx. apply andb_true_iff in Hx as [Hk _].
  now rewrite Hk, IH.
Qed.

Lemma filter_keep_is_valid (s : string) :
  forallb valid_name (filter PurePosixPath.keep_name (split s)) = true.
Proof.
  apply forallb_forall. intros x Hx. apply filter_In in Hx as [Hin Hk].
  unfold valid_name. rewrite Hk. simpl.
  pose proof (split_fields_no_sep s) as Hall.
  rewrite Forall_forall in Hall. now rewrite (Hall x Hin).
Qed.

Lemma join_head_not_sep (names : list string) :
  forallb valid_name names = true -> head_not_sep (join names).
Proof.
  destruct names as [|x l]; simpl; auto.
  intros H. apply andb_true_iff in H as [Hx _].
  apply valid_name_inv in Hx as (Hne & _ & _ & Hh).
  destruct l; [assumption|].
  destruct x; simpl in *; [congruence | assumption].
Qed.

Lemma join_empty_inv (names : list string) :
  forallb valid_name names = true -> join names = "" -> names = [].
Proof.
  destruct names as [|x l]; auto.
  simpl. intros H. apply andb_true_iff in H as [Hx _].
  apply valid_name_inv in Hx as (Hne & _).
  destruct l; intros E; [congruence|].
  destruct x; simpl in E; [congruence | discriminate].
Qed.

Lemma lstrip_head_not_sep (s : string) : head_not_sep s -> lstrip s = s.
Proof. destruct s; simpl; auto. now intros ->. Qed.

Lemma splitroot_plain (s : string) :
  head_not_sep s -> PurePosixPath.splitroot s = ("", s).
Proof. destruct s; simpl; auto. now intros ->. Qed.

(** Parsing the joined names gives the names back. *)
Lemma parse_join (names : list string) :
  forallb valid_name names = true ->
  filter PurePosixPath.keep_name (split (join names)) = names.
Proof.
  intros H. destruct names as [|x l].
  - reflexivity.
  - rewrite split_join; [now apply filter_keep_valid | discriminate |
                         now apply valid_names_no_sep].
Qed.

Lemma make_join (names : list string) :
  forallb valid_name names = true ->
  PurePosixPath.make [join names] = PurePosixPath.mk "" names.
Proof.
  intros H. unfold PurePosixPath.make. simpl rev.
  unfold PurePosixPath.parse_reversed.
  destruct (join names =? "") eqn:E.
  - apply String.eqb_eq in E. now rewrite (join_empty_inv _ H E).
  - rewrite splitroot_plain by now apply join_head_not_sep.
    rewrite parse_join by assumption. reflexivity.
Qed.

Lemma parse_reversed_names (it : list string) :
  forallb valid_name it = true ->
  PurePosixPath.parse_reversed it = ("", rev it).
Proof.
  induction it as [|part it IH]; intros Hv; [reflexivity|].
  cbn [forallb] in Hv. apply andb_true_iff in Hv as [Hp Hit].
  pose proof (valid_name_inv _ Hp) as (Hne & _ & Hsep & Hh).
  cbn [PurePosixPath.parse_reversed]. apply String.eqb_neq in Hne. rewrite Hne.
  rewrite (splitroot_plain _ Hh), (split_no_sep _ Hsep), (IH Hit).
  cbn [filter String.eqb]. unfold valid_name in Hp.
  apply andb_true_iff in Hp as [-> _]. reflexivity.
Qed.

Lemma make_names (names : list string) :
  forallb valid_name names = true ->
  PurePosixPath.make names = PurePosixPath.mk "" names.
Proof.
  intros Hv. unfold PurePosixPath.make.
  rewrite parse_reversed_names, rev_involutive; [reflexivity|].
  rewrite forallb_forall in *. intros x Hx. apply Hv. now apply in_rev.
Qed.

(** On the paths the class builds, parsing the parts again changes
    nothing. *)
Lemma of_path_names (names : list string) :
  forallb valid_name names = true ->
  Asset.of_path (PurePosixPath.mk "" names) = Asset.mk (PurePosixPath.mk "" names).
Proof.
  intros Hv. unfold Asset.of_path. cbn [PurePosixPath._parts].
  now rewrite (make_names _ Hv).
Qed.

Lemma make_rooted1 (names : list string) :
  forallb valid_name names = true ->
  PurePosixPath.make [String sep (join names)] = PurePosixPath.mk "/" ("/" :: names).
Proof.
  intros H. unfold PurePosixPath.make. simpl rev.
  unfold PurePosixPath.parse_reversed, PurePosixPath.splitroot.
  change (String sep (join names) =? "") with false.
  change (is_sep sep) with true. cbv iota.
  change (lstrip (String sep (join names))) with (lstrip (join names)).
  rewrite lstrip_head_not_sep by now apply join_head_not_sep.
  assert (E : String.length (String sep (join names)) - String.length (join names) = 1)
    by (cbn [String.length]; lia).
  rewrite E. simpl Nat.eqb. cbv iota.
  rewrite parse_join by assumption. reflexivity.
Qed.

Lemma make_rooted2 (names : list string) :
  forallb valid_name names = true ->
  PurePosixPath.make [String sep (String sep (join names))]
  = PurePosixPath.mk "//" ("//" :: names).
Proof.
  intros H. unfold PurePosixPath.make. simpl rev.
  unfold PurePosixPath.parse_reversed, PurePosixPath.splitroot.
  change (String sep (String sep (join names)) =? "") with false.
  change (is_sep sep) with true. cbv iota.
  change (lstrip (String sep (String sep (join names)))) with (lstrip (join names)).
  rewrite lstrip_head_not_sep by now apply join_head_not_sep.
  assert (E : String.length (String sep (String sep (join names)))
              - String.length (join names) = 2)
    by (cbn [String.length]; lia).
  rewrite E. simpl Nat.eqb. cbv iota.
  rewrite parse_join by assumption. reflexivity.
Qed.

Lemma str_unrooted (names : list string) :
  forallb valid_name names = true ->
  PurePosixPath.str (PurePosixPath.mk "" names)
  = match names with [] => "." | _ => join names end.
Proof.
  intros H. unfold PurePosixPath.str. simpl.
  destruct (join names =? "") eqn:E.
  - apply String.eqb_eq in E. now rewrite (join_empty_inv _ H E).
  - destruct names; [discriminate | reflexivity].
Qed.

(** [PurePosixPath(str(p)) == p] on every well-formed path. *)
Lemma make_str (p : PurePosixPath.t) :
  wf_path p -> PurePosixPath.make [PurePosixPath.str p] = p.
Proof.
  intros (names & Hv & [[Hr Hp] | [[Hr Hp] | [Hr Hp]]]);
    destruct p as [root parts]; simpl in *; subst.
  - rewrite str_unrooted by assumption.
    destruct names; [reflexivity|]. now apply make_join.
  - unfold PurePosixPath.str. simpl. now apply make_rooted1.
  - unfold PurePosixPath.str. simpl. now apply make_rooted2.
Qed.

Lemma splitroot_cases (part : string) :
  let '(root, rel) := PurePosixPath.splitroot part in
  root = "" \/ root = "/" \/ root = "//".
Proof.
  unfold PurePosixPath.splitroot. destruct part as [|c s]; auto.
  destruct (is_sep c); auto.
  destruct (Nat.eqb _ _); auto.
Qed.

Lemma parse_reversed_wf (it : list string) :
  let '(root, names) := PurePosixPath.parse_reversed it in
  forallb valid_name names = true /\ (root = "" \/ root = "/" \/ root = "//").
Proof.
  induction it as [|part it IH]; simpl.
  - auto.
  - destruct (part =? ""); [assumption|].
    pose proof (splitroot_cases part) as Hc.
    destruct (PurePosixPath.splitroot part) as [root rel].
    destruct (PurePosixPath.parse_reversed it) as [root' names'].
    destruct IH as [Hv Hr].
    destruct Hc as [-> | [-> | ->]]; simpl.
    + split; auto. rewrite forallb_app, Hv. apply filter_keep_is_valid.
    + split; auto. apply filter_keep_is_valid.
    + split; auto. apply filter_keep_is_valid.
Qed.

Lemma make_wf (args : list string) : wf_path (PurePosixPath.make args).
Proof.
  unfold PurePosixPath.make.
  pose proof (parse_reversed_wf (rev args)) as H.
  destruct (PurePosixPath.parse_reversed (rev args)) as [root names].
  destruct H as [Hv [-> | [-> | ->]]]; exists names; simpl; auto.
Qed.

(** The constructor's second line on the three kinds of root. *)
Lemma init_path_cases (p : PurePosixPath.t) :
  wf_path p ->
  (PurePosixPath._root p = "" /\ Asset.init_path p = Asset.mk p) \/
  (exists names, forallb valid_name names = true /\
     p = PurePosixPath.mk "/" ("/" :: names) /\
     Asset.init_path p = Asset.mk (PurePosixPath.mk "" names)) \/
  (exists names, forallb valid_name names = true /\
     p = PurePosixPath.mk "//" ("//" :: names) /\
     Asset.init_path p = Asset.mk (PurePosixPath.mk "/" ("/" :: names))).
Proof.
  intros (names & Hv & [[Hr Hp] | [[Hr Hp] | [Hr Hp]]]);
    destruct p as [root parts]; simpl in *; subst.
  - left. split; auto.
  - right; left. exists names. repeat split; auto.
    unfold Asset.init_path, PurePosixPath.is_absolute, PurePosixPath.str. simpl.
    now rewrite make_join.
  - right; right. exists names. repeat split; auto.
    unfold Asset.init_path, PurePosixPath.is_absolute, PurePosixPath.str. simpl.
    now rewrite make_rooted1.
Qed.

Lemma init_path_wf (p : PurePosixPath.t) :
  wf_path p -> wf_path (Asset._path (Asset.init_path p)).
Proof.
  intros H. destruct (init_path_cases H) as [[_ ->] | [(n & Hv & _ & ->) | (n & Hv & _ & ->)]].
  - assumption.
  - exists n; simpl; auto.
  - exists n; simpl; auto.
Qed.

Lemma new_wf (args : list string) : wf_path (Asset._path (Asset.new args)).
Proof. apply init_path_wf, make_wf. Qed.

Lemma normal_wf (a : Asset.t) : normal a -> wf_path (Asset._path a).
Proof.
  intros [Hr Hv]. exists (Asset.parts a). split; auto.
Qed.

(** Building an asset from the string form of a normal asset gives it
    back. *)
Lemma new_str_normal (a : Asset.t) : normal a -> Asset.new [Asset.str a] = a.
Proof.
  intros Hn. pose proof (normal_wf Hn) as Hwf. destruct Hn as [Hr _].
  unfold Asset.new, Asset.str, Asset.as_posix, PurePosixPath.as_posix.
  rewrite make_str by assumption.
  unfold Asset.init_path, PurePosixPath.is_absolute. rewrite Hr. simpl.
  now destruct a.
Qed.

(** The constructor returns a normal asset unless its argument has the
    double-slash root. *)
Lemma new_normal (args : list string) :
  PurePosixPath._root (PurePosixPath.make args) <> "//" ->
  normal (Asset.new args).
Proof.
  intros Hr. unfold Asset.new.
  destruct (init_path_cases (make_wf args))
    as [[Hr0 E] | [(n & Hv & Ep & E) | (n & Hv & Ep & E)]]; rewrite E.
  - destruct (make_wf args) as (names & Hv & [[_ Hp] | [[Hr1 _] | [Hr1 _]]]);
      try congruence.
    split; simpl; auto. unfold Asset.parts, PurePosixPath.parts. simpl. now rewrite Hp.
  - split; simpl; auto.
  - rewrite Ep in Hr. simpl in Hr. congruence.
Qed.

Example make_example_rooted :
  PurePosixPath.make ["/projects/p/assets/x/y"]
  = PurePosixPath.mk "/" ["/"; "projects"; "p"; "assets"; "x"; "y"].
Proof. reflexivity. Qed.

Example make_example_double_slash :
  PurePosixPath.str (PurePosixPath.make ["//a/./b//c"; "d"]) = "//a/b/c/d".
Proof. reflexivity. Qed.

Example make_example_reset :
  PurePosixPath.str (PurePosixPath.make ["a"; "///b"; "c"]) = "/b/c".
Proof. reflexivity. Qed.

Example new_example :
  Asset.parts (Asset.new ["/projects/p/assets/x/y"]) = ["projects"; "p"; "assets"; "x"; "y"] /\
  Asset.is_absolute (Asset.new ["/projects/p/assets/x/y"]) false = Ok true /\
  Asset.name (Asset.new ["/projects/p/assets/x/y"]) = "y" /\
  Asset.parts (Asset.parent (Asset.new ["/projects/p/assets/x/y"]))
  = ["projects"; "p"; "assets"; "x"].
Proof. repeat split; reflexivity. Qed.

End PathFacts.

(** ** Construction is idempotent, except on the double-slash root *)

Section Parsing.
Import PyStr Spec.

(** Re-parsing the string form of an asset gives the asset back whenever
    the first parse did not see the double-slash root. *)
Lemma new_idempotent (x : string) :
  PurePosixPath._root (PurePosixPath.make [x]) <> "//" ->
  Asset.new [Asset.str (Asset.new [x])] = Asset.new [x].
Proof. intros H. now apply new_str_normal, new_normal. Qed.

Lemma new_idempotent_example :
  Asset.new [Asset.str (Asset.new ["///projects//p/./assets/x/"])]
  = Asset.new ["///projects//p/./assets/x/"].
Proof. apply new_idempotent. vm_compute. discriminate. Qed.

(** C4: on the input ["//a"] the constructor keeps a leading separator and
    re-parsing the string form gives a different asset. *)
Theorem C4_double_slash_not_idempotent :
  Asset.str (Asset.new ["//a"]) = "/a" /\
  Asset.parts (Asset.new ["//a"]) = ["/"; "a"] /\
  Asset.parts (Asset.new [Asset.str (Asset.new ["//a"])]) = ["a"] /\
  Asset.new [Asset.str (Asset.new ["//a"])] <> Asset.new ["//a"].
Proof. repeat split; try reflexivity. vm_compute. discriminate. Qed.

End Parsing.

(** ** Equality and ordering *)

Section Comparisons.
Import PyStr Spec.

Lemma string_compare_refl (y : string) : String.compare y y = Eq.
Proof.
  pose proof (String.compare_antisym y y) as H.
  destruct (String.compare y y); simpl in H; congruence.
Qed.

Lemma list_compare_eq_iff (l1 l2 : list string) :
  list_compare l1 l2 = Eq <-> l1 = l2.
Proof.
  revert l2; induction l1 as [|x l1 IH]; destruct l2 as [|y l2]; simpl;
    try (split; [discriminate | congruence]); try tauto.
  destruct (String.compare x y) eqn:E.
  - apply String.compare_eq_iff in E; subst. rewrite IH.
    split; congruence.
  - split; [discriminate|]. intros H; inversion H; subst.
    rewrite string_compare_refl in E. discriminate.
  - split; [discriminate|]. intros H; inversion H; subst.
    rewrite string_compare_refl in E. discriminate.
Qed.

Lemma list_compare_antisym (l1 l2 : list string) :
  list_compare l2 l1 = CompOpp (list_compare l1 l2).
Proof.
  revert l2; induction l1 as [|x l1 IH]; destruct l2 as [|y l2]; simpl; auto.
  rewrite (String.compare_antisym y x).
  destruct (String.compare x y); simpl; auto.
Qed.

Lemma make_str_new (args : list string) :
  PurePosixPath.make [Asset.str (Asset.new args)] = Asset._path (Asset.new args).
Proof. apply make_str, new_wf. Qed.

(** Two literal strings, one normalized component sequence. *)
Lemma eq_example : Asset.eq (Asset.new ["a/b"]) (Asset.new ["/a//./b/"]) = true.
Proof. reflexivity. Qed.

(** Componentwise order and the order of the joined strings disagree on
    these two paths of different depth. *)
Lemma lt_example :
  Asset.lt (Asset.new ["a/c"]) (Asset.new ["a-b"]) = true /\
  String.ltb "a/c" "a-b" = false.
Proof. split; reflexivity. Qed.

(** C5 as stated fails on hashing: equal assets have no hash at all. *)
Lemma C5_equal_assets_have_no_hash :
  Asset.parts (Asset.new ["a/b"]) = Asset.parts (Asset.new ["a//b"]) /\
  Asset.eq (Asset.new ["a/b"]) (Asset.new ["a//b"]) = true /\
  ~ (exists h, Asset.hash (Asset.new ["a/b"]) = Ok h /\
               Asset.hash (Asset.new ["a//b"]) = Ok h).
Proof.
  repeat split; try reflexivity.
  intros (h & H & _). discriminate H.
Qed.

(** C5 (amended): on any two constructed assets, [==] holds exactly when
    the component sequences are equal, [!=] is its negation, and [<], [>],
    [<=], [>=] are the lexicographic comparison of the component sequences
    with componentwise string comparison; [hash] raises [TypeError]. *)
Theorem C5_comparisons_on_components (x y : list string) :
  let a := Asset.new x in
  let b := Asset.new y in
  let c := list_compare (Asset.parts a) (Asset.parts b) in
  (Asset.eq a b = true <-> Asset.parts a = Asset.parts b) /\
  Asset.ne a b = negb (Asset.eq a b) /\
  Asset.lt a b = match c with Lt => true | _ => false end /\
  Asset.gt a b = match c with Gt => true | _ => false end /\
  Asset.le a b = match c with Gt => false | _ => true end /\
  Asset.ge a b = match c with Lt => false | _ => true end /\
  Asset.hash a = Raise (TypeError "unhashable type: 'Asset'").
Proof.
  intros a b c. subst a b c.
  unfold Asset.eq, Asset.ne, Asset.lt, Asset.gt, Asset.le, Asset.ge.
  rewrite make_str_new.
  unfold PurePosixPath.eqb, PurePosixPath.list_eqb, PurePosixPath.gtb,
    PurePosixPath.geb, PurePosixPath.ltb, PurePosixPath.leb,
    Asset.parts, PurePosixPath.parts.
  set (l1 := PurePosixPath._parts (Asset._path (Asset.new x))).
  set (l2 := PurePosixPath._parts (Asset._path (Asset.new y))).
  rewrite (list_compare_antisym l1 l2).
  pose proof (list_compare_eq_iff l1 l2) as Heq.
  destruct (list_compare l1 l2); simpl; repeat split; auto;
    try (intros _; now apply Heq); try discriminate;
    intros H; apply Heq in H; discriminate.
Qed.

End Comparisons.

(** ** Ancestors *)

Section Parents.
Import PyStr Spec.

Lemma dollar_rejects_sep (p : list Re.atom) (s : string) :
  contains_sep s = true -> Re.match_here (Re.Dollar :: p) s = false.
Proof.
  intros H. simpl.
  destruct s as [|c s]; [discriminate|].
  destruct s as [|d s]; simpl.
  - simpl in H. rewrite orb_false_r in H.
    unfold is_sep in H. apply Ascii.eqb_eq in H. subst c. reflexivity.
  - destruct (Ascii.eqb c Re.newline); reflexivity.
Qed.

Lemma plus_dollar_rejects_sep (s : string) :
  contains_sep s = true ->
  Re.plus_not_sep (Re.match_here [Re.Dollar]) s = false.
Proof.
  induction s as [|c s IH]; intros H; [reflexivity|].
  cbn [Re.plus_not_sep]. simpl in H.
  destruct (is_sep c) eqn:Hc; simpl in H; [reflexivity|].
  rewrite IH, dollar_rejects_sep by assumption. reflexivity.
Qed.

Lemma plus_dollar_accepts_name (o : string) :
  contains_sep o = false -> o <> "" ->
  Re.plus_not_sep (Re.match_here [Re.Dollar]) o = true.
Proof.
  induction o as [|c o IH]; intros Hs Hne; [congruence|].
  cbn [Re.plus_not_sep]. simpl in Hs. apply orb_false_iff in Hs as [Hc Hs].
  rewrite Hc. destruct o as [|d o].
  - reflexivity.
  - rewrite IH; auto. discriminate.
Qed.

(** Over a separator-free name followed by a separator, [[^/]+] can only
    stop at that separator when the rest of the pattern starts with one. *)
Lemma plus_not_sep_until (k : string -> bool) (o u : string) :
  (forall c s, is_sep c = false -> k (String c s) = false) ->
  contains_sep o = false -> o <> "" ->
  Re.plus_not_sep k (o ++ String sep u) = k (String sep u).
Proof.
  intros Hk. induction o as [|c o IH]; intros Hs Hne; [congruence|].
  simpl in Hs. apply orb_false_iff in Hs as [Hc Hs].
  change ((String c o ++ String sep u)%string) with (String c (o ++ String sep u)).
  cbn [Re.plus_not_sep]. rewrite Hc. destruct o as [|d o].
  - reflexivity.
  - rewrite IH; [|assumption|discriminate].
    simpl in Hs. apply orb_false_iff in Hs as [Hd _].
    change ((String d o ++ String sep u)%string) with (String d (o ++ String sep u)).
    rewrite (Hk d _ Hd). now rewrite orb_false_r.
Qed.

Lemma lit_sep_rejects (p : list Re.atom) :
  forall c s, is_sep c = false -> Re.match_here (Re.Lit sep :: p) (String c s) = false.
Proof.
  intros c s H. cbn [Re.match_here]. unfold is_sep in H.
  rewrite Ascii.eqb_sym in H. now rewrite H.
Qed.

Lemma join_cons (x y : string) (l : list string) :
  join (x :: y :: l) = (x ++ String sep (join (y :: l)))%string.
Proof. reflexivity. Qed.

Lemma match_lits (l : string) (p : list Re.atom) (s : string) :
  Re.match_here (Re.lits l ++ p) (l ++ s) = Re.match_here p s.
Proof.
  induction l as [|c l IH]; simpl; auto.
  now rewrite Ascii.eqb_refl.
Qed.

Lemma scaffolding_project (o : string) :
  valid_name o = true ->
  scaffolding (PurePosixPath.str (PurePosixPath.mk "" ["projects"; o; "assets"])) = true.
Proof.
  intros Ho. rewrite str_unrooted by (simpl; now rewrite Ho).
  apply valid_name_inv in Ho as (Hne & _ & Hs & _).
  rewrite !join_cons. cbn [join].
  unfold scaffolding, Asset.patterns, Re.match_. cbn [existsb].
  apply orb_true_iff; right. apply orb_true_iff; right.
  apply orb_true_iff; right. apply orb_true_iff; left.
  change ("projects" ++ String sep (o ++ String sep "assets"))%string
    with ("projects/" ++ (o ++ String sep "assets"))%string.
  rewrite match_lits.
  change (Re.match_here ([Re.NotSepPlus] ++ Re.lits "/assets" ++ [Re.Dollar])
                        (o ++ String sep "assets"))
    with (Re.plus_not_sep (Re.match_here (Re.Lit sep :: Re.lits "assets" ++ [Re.Dollar]))
                          (o ++ String sep "assets")).
  rewrite (@plus_not_sep_until _ o "assets" (@lit_sep_rejects _) Hs Hne).
  reflexivity.
Qed.

Lemma scaffolding_owner (o : string) :
  valid_name o = true ->
  scaffolding (PurePosixPath.str (PurePosixPath.mk "" ["projects"; o])) = true.
Proof.
  intros Ho. rewrite str_unrooted by (simpl; now rewrite Ho).
  apply valid_name_inv in Ho as (Hne & _ & Hs & _).
  rewrite !join_cons. cbn [join].
  unfold scaffolding, Asset.patterns, Re.match_. cbn [existsb].
  apply orb_true_iff; right. apply orb_true_iff; right.
  apply orb_true_iff; left.
  change ("projects" ++ String sep o)%string with ("projects/" ++ o)%string.
  rewrite match_lits.
  now apply plus_dollar_accepts_name.
Qed.

Lemma scaffolding_deeper (o x : string) (r : list string) :
  forallb valid_name ("projects" :: o :: "assets" :: x :: r) = true ->
  scaffolding (PurePosixPath.str
                 (PurePosixPath.mk "" ("projects" :: o :: "assets" :: x :: r))) = false.
Proof.
  intros Hv. rewrite str_unrooted by assumption.
  assert (Ho : valid_name o = true).
  { rewrite forallb_forall in Hv. apply Hv. right; left; reflexivity. }
  apply valid_name_inv in Ho as (Hne & _ & Hs & _).
  rewrite 3!join_cons.
  set (u := join (x :: r)).
  unfold scaffolding, Asset.patterns, Re.match_. cbn [existsb].
  rewrite orb_false_r.
  change ("projects" ++ String sep (o ++ String sep ("assets" ++ String sep u)))%string
    with ("projects/" ++ (o ++ String sep ("assets" ++ String sep u)))%string.
  set (t := (o ++ String sep ("assets" ++ String sep u))%string).
  assert (M1 : Re.match_here [Re.Lit "."; Re.Dollar] ("projects/" ++ t) = false)
    by reflexivity.
  assert (M2 : Re.match_here (Re.lits "projects" ++ [Re.Dollar]) ("projects/" ++ t) = false).
  { change ("projects/" ++ t)%string with ("projects" ++ String sep t)%string.
    rewrite match_lits. apply dollar_rejects_sep. reflexivity. }
  assert (M3 : Re.match_here (Re.lits "projects/" ++ [Re.NotSepPlus; Re.Dollar])
                             ("projects/" ++ t) = false).
  { rewrite match_lits. apply plus_dollar_rejects_sep.
    unfold t. rewrite contains_sep_append. simpl. now rewrite orb_true_r. }
  assert (M4 : Re.match_here
                 (Re.lits "projects/" ++ [Re.NotSepPlus] ++ Re.lits "/assets" ++ [Re.Dollar])
                 ("projects/" ++ t) = false).
  { rewrite match_lits.
    change (Re.match_here ([Re.NotSepPlus] ++ Re.lits "/assets" ++ [Re.Dollar]) t)
      with (Re.plus_not_sep (Re.match_here (Re.Lit sep :: Re.lits "assets" ++ [Re.Dollar])) t).
    unfold t.
    rewrite (@plus_not_sep_until _ o _ (@lit_sep_rejects _) Hs Hne).
    change (String sep ("assets" ++ String sep u))
      with ("/assets" ++ String sep u)%string.
    change (Re.Lit sep :: Re.lits "assets" ++ [Re.Dollar])
      with (Re.lits "/assets" ++ [Re.Dollar]).
    rewrite match_lits. apply dollar_rejects_sep. reflexivity. }
  now rewrite M1, M2, M3, M4.
Qed.

Lemma filter_map_swap {A B} (f : B -> bool) (g : A -> B) (l : list A) :
  filter f (map g l) = map g (filter (fun x => f (g x)) l).
Proof.
  induction l as [|x l IH]; simpl; auto.
  destruct (f (g x)); simpl; now rewrite IH.
Qed.

Lemma filter_all {A} (f : A -> bool) (l : list A) :
  (forall x, In x l -> f x = true) -> filter f l = l.
Proof.
  induction l as [|x l IH]; simpl; intros H; auto.
  rewrite (H x) by auto. f_equal. apply IH. auto.
Qed.

Lemma filter_none {A} (f : A -> bool) (l : list A) :
  (forall x, In x l -> f x = false) -> filter f l = [].
Proof.
  induction l as [|x l IH]; simpl; intros H; auto.
  rewrite (H x) by auto. apply IH. auto.
Qed.

Lemma countdown_seq (m : nat) :
  map (fun idx => m + 4 - idx - 1) (seq 0 m) = rev (seq 4 m).
Proof.
  induction m as [|m IH].
  - reflexivity.
  - rewrite seq_S with (start := 4). rewrite rev_app_distr. simpl rev. simpl app.
    change (seq 0 (S m)) with (0 :: seq 1 m).
    rewrite <- seq_shift, map_cons, map_map.
    f_equal; [lia|].
    rewrite <- IH. apply map_ext. intros idx. lia.
Qed.

Lemma forallb_firstn {A} (f : A -> bool) (k : nat) (l : list A) :
  forallb f l = true -> forallb f (firstn k l) = true.
Proof.
  revert k; induction l as [|x l IH]; intros [|k] H; simpl in *; auto.
  apply andb_true_iff in H as [Hx Hl]. now rewrite Hx, IH.
Qed.

(** An absolute asset of depth four or more, as the constructor returns
    it. *)
Lemma absolute_shape (args : list string) :
  Asset.is_absolute (Asset.new args) false = Ok true ->
  4 <= length (Asset.parts (Asset.new args)) ->
  exists o x r,
    Asset._path (Asset.new args)
    = PurePosixPath.mk "" ("projects" :: o :: "assets" :: x :: r) /\
    forallb valid_name ("projects" :: o :: "assets" :: x :: r) = true.
Proof.
  intros Habs Hlen.
  destruct (new_wf args) as (names & Hv & Hcase).
  unfold Asset.is_absolute, Asset.parts, PurePosixPath.parts in *.
  destruct (Asset._path (Asset.new args)) as [root parts]. simpl in *.
  destruct parts as [|p0 [|p1 [|p2 [|p3 r]]]]; simpl in Hlen; try lia.
  simpl in Habs.
  destruct ((p0 =? "projects") && (p2 =? "assets")) eqn:E; [|discriminate].
  apply andb_true_iff in E as [E0 E2].
  apply String.eqb_eq in E0, E2. subst p0 p2.
  destruct Hcase as [[Hr Hp] | [[_ Hp] | [_ Hp]]]; try discriminate.
  subst. exists p1, p3, r. auto.
Qed.

(** C7: for an absolute asset of depth at least 4, [parents] is exactly the
    proper prefixes of length depth-1 down to 4, immediate parent first; so
    the empty path, [projects], [projects/<owner>] and
    [projects/<owner>/assets] never occur in it. *)
Theorem C7_parents_skip_scaffolding (args : list string) :
  let a := Asset.new args in
  let n := length (Asset.parts a) in
  Asset.is_absolute a false = Ok true ->
  4 <= n ->
  Asset.parents a
  = map (fun k => Asset.mk (PurePosixPath.mk "" (firstn k (Asset.parts a))))
        (rev (seq 4 (n - 4))) /\
  forall q, In q (Asset.parents a) ->
    forall owner,
      ~ In (Asset.parts q)
           [[]; ["projects"]; ["projects"; owner]; ["projects"; owner; "assets"]].
Proof.
  intros a n Habs Hn. subst a n.
  destruct (absolute_shape args Habs Hn) as (o & x & r & Hp & Hv).
  assert (Hparents :
    Asset.parents (Asset.new args)
    = map (fun k => Asset.mk (PurePosixPath.mk "" (firstn k (Asset.parts (Asset.new args)))))
          (rev (seq 4 (length (Asset.parts (Asset.new args)) - 4)))).
  { unfold Asset.parents, Asset.parts, PurePosixPath.parts, PurePosixPath.parents.
    rewrite Hp. cbn [PurePosixPath._root PurePosixPath._parts String.eqb].
    set (parts := "projects" :: o :: "assets" :: x :: r).
    assert (Hlen : length parts = length r + 4) by (unfold parts; simpl; lia).
    rewrite Hlen. replace (length r + 4 - 4) with (length r) by lia.
    rewrite filter_map_swap.
    replace (length r + 4) with (length r + 4)%nat at 1 by reflexivity.
    rewrite seq_app, filter_app.
    rewrite filter_all.
    - replace (filter _ _) with (@nil nat).
      + rewrite app_nil_r, map_map.
        rewrite <- countdown_seq, map_map.
        apply map_ext_in. intros idx Hin. apply in_seq in Hin.
        rewrite of_path_names; [reflexivity|]. now apply forallb_firstn.
      + assert (Ho : valid_name o = true).
        { rewrite forallb_forall in Hv. apply Hv. right; left; reflexivity. }
        symmetry. apply filter_none. intros idx Hin. apply in_seq in Hin.
        apply negb_false_iff.
        fold (scaffolding (PurePosixPath.str
                (PurePosixPath.mk "" (firstn (length r + 4 - idx - 1) parts)))).
        assert (Hk : length r + 4 - idx - 1 = 3 \/ length r + 4 - idx - 1 = 2 \/
                     length r + 4 - idx - 1 = 1 \/ length r + 4 - idx - 1 = 0) by lia.
        unfold parts.
        destruct Hk as [-> | [-> | [-> | ->]]]; cbn [firstn].
        * now apply scaffolding_project.
        * now apply scaffolding_owner.
        * reflexivity.
        * reflexivity.
    - intros idx Hin. apply in_seq in Hin.
      replace (length r + 4 - idx - 1) with (S (S (S (S (length r - idx - 1))))) by lia.
      unfold parts. cbn [firstn].
      fold (scaffolding (PurePosixPath.str
              (PurePosixPath.mk "" ("projects" :: o :: "assets" :: x
                                    :: firstn (length r - idx - 1) r)))).
      rewrite scaffolding_deeper; [reflexivity|].
      change ("projects" :: o :: "assets" :: x :: firstn (length r - idx - 1) r)
        with (firstn (S (S (S (S (length r - idx - 1)))))
                     ("projects" :: o :: "assets" :: x :: r)).
      now apply forallb_firstn. }
  split; [exact Hparents|].
  intros q Hq owner. rewrite Hparents in Hq.
  apply in_map_iff in Hq as (k & <- & Hk).
  apply in_rev, in_seq in Hk.
  unfold Asset.parts at 1. unfold PurePosixPath.parts. simpl.
  intros Hin.
  assert (Hl : length (firstn k (Asset.parts (Asset.new args))) = k).
  { apply firstn_length_le. lia. }
  simpl in Hin.
  destruct Hin as [E | [E | [E | [E | []]]]]; rewrite <- E in Hl; simpl in Hl; lia.
Qed.

Lemma C7_witness :
  Asset.parents (Asset.new ["projects/ee-geetools/assets/folder/sub/image"])
  = map (fun k => Asset.mk (PurePosixPath.mk ""
           (firstn k ["projects"; "ee-geetools"; "assets"; "folder"; "sub"; "image"])))
        [5; 4] /\
  forall q,
    In q (Asset.parents (Asset.new ["projects/ee-geetools/assets/folder/sub/image"])) ->
    forall owner,
      ~ In (Asset.parts q)
           [[]; ["projects"]; ["projects"; owner]; ["projects"; owner; "assets"]].
Proof.
  apply (C7_parents_skip_scaffolding ["projects/ee-geetools/assets/folder/sub/image"]).
  - reflexivity.
  - simpl. lia.
Defined.

End Parents.

(** ** Running the queries *)

Section Queries.
Import PyStr Remote TreeSpec.

Lemma logged_nil (w : world) : logged w [] = w.
Proof. destruct w. unfold logged. simpl. now rewrite app_nil_r. Qed.

Lemma log_logged (w : world) (cs : list call) : log (logged w cs) = log w ++ cs.
Proof. reflexivity. Qed.

Lemma logged_logged (w : world) (a b : list call) :
  logged (logged w a) b = logged w (a ++ b).
Proof. unfold logged. simpl. now rewrite app_assoc. Qed.

Lemma getAsset_run (id : string) (w : world) :
  getAsset id w
  = Some (match lookup id (store w) with
          | Some ty => Ok ty
          | None => Raise (EEException ("Asset " ++ id ++ " not found."))
          end, logged w [GetAsset id]).
Proof.
  unfold getAsset, bind, record, get_store. simpl.
  destruct (lookup id (store w)); reflexivity.
Qed.

Lemma listAssets_run (parent : string) (w : world) :
  listAssets parent w
  = Some (Ok (children parent (store w)), logged w [ListAssets parent]).
Proof. reflexivity. Qed.

Lemma exists_run (p : Asset.t) (raised : bool) (w : world) :
  Asset.exists_ p raised w
  = Some (match lookup (Asset.as_posix p) (store w) with
          | Some _ => Ok true
          | None =>
              if raised
              then Raise (ValueError ("Asset " ++ Asset.as_posix p ++ " does not exist."))
              else Ok false
          end, logged w [GetAsset (Asset.as_posix p)]).
Proof.
  unfold Asset.exists_, try_except_EE, bind. rewrite getAsset_run.
  destruct (lookup (Asset.as_posix p) (store w)); [reflexivity|].
  destruct raised; reflexivity.
Qed.

Lemma type_run (p : Asset.t) (ty : string) (w : world) :
  lookup (Asset.as_posix p) (store w) = Some ty ->
  Asset.type p w
  = Some (Ok ty, logged w [GetAsset (Asset.as_posix p); GetAsset (Asset.as_posix p)]).
Proof.
  intros H. unfold Asset.type, bind. rewrite exists_run, H, getAsset_run.
  simpl store. rewrite H. now rewrite logged_logged.
Qed.

Lemma is_type_run (p : Asset.t) (asset_type ty : string) (raised : bool) (w : world) :
  lookup (Asset.as_posix p) (store w) = Some ty ->
  Asset.is_type p asset_type raised w
  = Some (if ty =? asset_type then Ok true
          else if raised
               then Raise (ValueError ("Asset " ++ Asset.as_posix p ++ " is not a "
                                         ++ asset_type ++ "."))
               else Ok false,
          logged w [GetAsset (Asset.as_posix p); GetAsset (Asset.as_posix p);
                    GetAsset (Asset.as_posix p)]).
Proof.
  intros H. unfold Asset.is_type, bind. rewrite exists_run, H.
  rewrite (@type_run p ty) by exact H.
  rewrite logged_logged. simpl app.
  destruct (ty =? asset_type); [reflexivity|].
  destruct raised; reflexivity.
Qed.

Lemma is_type_missing (p : Asset.t) (asset_type : string) (raised : bool) (w : world) :
  lookup (Asset.as_posix p) (store w) = None ->
  Asset.is_type p asset_type raised w
  = Some (Raise (ValueError ("Asset " ++ Asset.as_posix p ++ " does not exist.")),
          logged w [GetAsset (Asset.as_posix p)]).
Proof.
  intros H. unfold Asset.is_type, bind. now rewrite exists_run, H.
Qed.

(** Without the raise toggle, [is_feature_collection] answers for both
    tags of the store. *)
Lemma is_feature_collection_quiet (p : Asset.t) (ty : string) (w : world) :
  lookup (Asset.as_posix p) (store w) = Some ty ->
  exists w',
    Asset.is_feature_collection p false w
    = Some (Ok ((ty =? "FEATURE_COLLECTION") || (ty =? "TABLE")), w') /\
    store w' = store w.
Proof.
  intros H. unfold Asset.is_feature_collection, bind.
  rewrite (@is_type_run p _ ty) by exact H.
  destruct (ty =? "FEATURE_COLLECTION").
  - eexists; split; reflexivity.
  - rewrite (@is_type_run p _ ty) by exact H.
    destruct (ty =? "TABLE"); eexists; split; reflexivity.
Qed.

(** With the raise toggle, a [TABLE] asset never reaches the second test:
    the first one raises. *)
Lemma is_feature_collection_raised_table (p : Asset.t) (w : world) :
  lookup (Asset.as_posix p) (store w) = Some "TABLE" ->
  exists w',
    Asset.is_feature_collection p true w
    = Some (Raise (ValueError ("Asset " ++ Asset.as_posix p
                                 ++ " is not a FEATURE_COLLECTION.")), w').
Proof.
  intros H. unfold Asset.is_feature_collection, bind.
  rewrite (@is_type_run p _ "TABLE") by exact H.
  eexists; reflexivity.
Qed.

(** C8: with the raise toggle set, [is_feature_collection] raises on an
    existing asset whose type is [TABLE], one of the two matching types;
    without the toggle it returns [True] on the same asset. *)
Theorem C8_raised_table_is_rejected :
  let w := mkWorld [("projects/p/assets/t", "TABLE")] [] [] in
  let p := Asset.new ["projects/p/assets/t"] in
  (exists w', Asset.is_feature_collection p false w = Some (Ok true, w')) /\
  (exists w', Asset.is_feature_collection p true w
              = Some (Raise (ValueError
                   "Asset projects/p/assets/t is not a FEATURE_COLLECTION."), w')).
Proof. split; eexists; reflexivity. Qed.

End Queries.

(** ** Recursive listing *)

Section Listing.
Import PyStr Remote TreeSpec.

Lemma is_child_inv (parent id : string) :
  is_child parent id = true ->
  exists name, id = (parent ++ String sep name)%string /\
               name <> "" /\ contains_sep name = false.
Proof.
  unfold is_child. intros H.
  destruct (strip_prefix (parent ++ String sep "") id) as [name|] eqn:E; [|discriminate].
  apply strip_prefix_Some in E. apply andb_true_iff in H as [Hne Hs].
  apply negb_true_iff in Hne, Hs. apply String.eqb_neq in Hne.
  exists name. rewrite E, append_assoc. auto.
Qed.

Lemma is_child_longer (parent id : string) :
  is_child parent id = true -> String.length parent < String.length id.
Proof.
  intros H. apply is_child_inv in H as (name & -> & _).
  rewrite length_append. simpl. lia.
Qed.

Lemma max_id_length_ge (s : list entry) (e : entry) :
  In e s -> String.length (fst e) <= max_id_length s.
Proof.
  induction s as [|x s IH]; simpl; intros H; [contradiction|].
  destruct H as [-> | H]; [lia|]. apply IH in H. lia.
Qed.

Lemma children_In (parent : string) (s : list entry) (e : entry) :
  In e (children parent s) <-> In e s /\ is_child parent (fst e) = true.
Proof. unfold children. apply filter_In. Qed.

(** The loop of [_recursive_get] over one listing, given that the calls
    one level down behave. *)
Lemma recursive_get_loop (fuel : nat) (s : list entry) :
  (forall folder acc w,
      store w = s ->
      max_id_length s < fuel + String.length folder -> 0 < fuel ->
      exists l cs,
        Asset._recursive_get true fuel folder acc w = Some (Ok (acc ++ l), logged w cs) /\
        forallb is_read cs = true /\ Preorder s folder l) ->
  forall folder es acc w,
    store w = s ->
    max_id_length s < S fuel + String.length folder ->
    incl es (children folder s) ->
    exists l cs,
      fold_m (fun asset_list asset =>
                if (snd asset =? "FOLDER") && true
                then Asset._recursive_get true fuel (fst asset)
                       (asset_list ++ [Asset.new [fst asset]])
                else ret (asset_list ++ [Asset.new [fst asset]])) es acc w
      = Some (Ok (acc ++ l), logged w cs) /\
      forallb is_read cs = true /\ PreorderOf s es l.
Proof.
  intros IH folder es. induction es as [|[id ty] es IHes]; intros acc w Hs Hfuel Hincl.
  - exists [], []. rewrite app_nil_r, logged_nil. repeat split. constructor.
  - assert (Hin : In (id, ty) (children folder s)) by (apply Hincl; now left).
    apply children_In in Hin as [Hin Hchild]. simpl in Hchild.
    pose proof (is_child_longer _ _ Hchild) as Hlen.
    pose proof (max_id_length_ge _ _ Hin) as Hmax. simpl in Hmax.
    assert (Hincl' : incl es (children folder s)).
    { intros e He. apply Hincl. now right. }
    cbn [fold_m]. unfold bind at 1. cbn [fst snd].
    destruct (ty =? "FOLDER") eqn:Ety; cbn [andb].
    + apply String.eqb_eq in Ety. subst ty.
      destruct (IH id (acc ++ [Asset.new [id]]) w Hs) as (sub & cs1 & -> & Hr1 & Hsub);
        [lia | lia |].
      destruct (IHes ((acc ++ [Asset.new [id]]) ++ sub) (logged w cs1))
        as (l & cs2 & -> & Hr2 & Hl); auto.
      exists (Asset.new [id] :: sub ++ l), (cs1 ++ cs2).
      rewrite logged_logged, forallb_app, Hr1, Hr2.
      repeat split.
      * now rewrite <- !app_assoc.
      * now constructor.
    + apply String.eqb_neq in Ety. unfold ret at 1.
      destruct (IHes (acc ++ [Asset.new [id]]) w) as (l & cs & -> & Hr & Hl); auto.
      exists (Asset.new [id] :: l), cs.
      repeat split; auto.
      * now rewrite <- app_assoc.
      * now constructor.
Qed.

(** With more fuel than the longest identifier is long, the inner function
    returns, leaves the store alone and appends the pre-order listing. *)
Lemma recursive_get_run (fuel : nat) :
  forall folder acc w,
    max_id_length (store w) < fuel + String.length folder -> 0 < fuel ->
    exists l cs,
      Asset._recursive_get true fuel folder acc w = Some (Ok (acc ++ l), logged w cs) /\
      forallb is_read cs = true /\ Preorder (store w) folder l.
Proof.
  induction fuel as [|fuel IH]; intros folder acc w Hfuel Hpos; [lia|].
  cbn [Asset._recursive_get]. unfold bind at 1. rewrite listAssets_run.
  destruct (@recursive_get_loop fuel (store w)) with
    (folder := folder) (es := children folder (store w)) (acc := acc)
    (w := logged w [ListAssets folder])
    as (l & cs & E & Hr & Hl); auto.
  - intros folder' acc' w' Hs Hf Hp. rewrite <- Hs in Hf |- *. now apply IH.
  - apply incl_refl.
  - exists l, (ListAssets folder :: cs). rewrite E, logged_logged.
    repeat split; auto.
Qed.

Lemma preorder_lists_children (s : list entry) (es : list entry) (l : list Asset.t) :
  PreorderOf s es l ->
  forall id ty, In (id, ty) es ->
    In (Asset.new [id]) l /\
    (ty = "FOLDER" -> exists sub, PreorderOf s (children id s) sub /\ incl sub l).
Proof.
  induction 1 as [|id0 ty0 rest l Hty Hrest IH|id0 rest sub l Hsub _ Hrest IH];
    intros id ty Hin.
  - contradiction.
  - destruct Hin as [E | Hin].
    + inversion E; subst. split; [now left|]. intros ->. congruence.
    + destruct (IH _ _ Hin) as [H1 H2]. split; [now right|].
      intros Hf. destruct (H2 Hf) as (sub & Hs & Hi).
      exists sub. split; auto. intros a Ha. right. now apply Hi.
  - destruct Hin as [E | Hin].
    + inversion E; subst. split; [now left|]. intros _.
      exists sub. split; auto. intros a Ha. right. apply in_or_app. now left.
    + destruct (IH _ _ Hin) as [H1 H2]. split.
      * right. apply in_or_app. now right.
      * intros Hf. destruct (H2 Hf) as (sub' & Hs & Hi).
        exists sub'. split; auto. intros a Ha. right. apply in_or_app. right. now apply Hi.
Qed.

(** Every descendant the listing can reach is in the pre-order list. *)
Lemma preorder_complete (s : list entry) (folder id : string) :
  Reachable s folder id ->
  forall l, Preorder s folder l -> In (Asset.new [id]) l.
Proof.
  induction 1 as [folder id ty Hin | folder mid id Hin _ IH]; intros l Hl.
  - now destruct (preorder_lists_children Hl _ _ Hin).
  - destruct (preorder_lists_children Hl _ _ Hin) as [_ H2].
    destruct (H2 eq_refl) as (sub & Hs & Hi).
    apply Hi. now apply IH.
Qed.

(** And nothing else is. *)
Lemma preorder_sound (s : list entry) (es : list entry) (l : list Asset.t) :
  PreorderOf s es l ->
  forall a, In a l ->
    exists id, a = Asset.new [id] /\
      ((exists ty, In (id, ty) es) \/
       (exists mid, In (mid, "FOLDER") es /\ Reachable s mid id)).
Proof.
  induction 1 as [|id0 ty0 rest l Hty Hrest IH|id0 rest sub l Hsub IHsub Hrest IH];
    intros a Ha.
  - contradiction.
  - destruct Ha as [<- | Ha].
    + exists id0. split; auto. left. exists ty0. now left.
    + destruct (IH _ Ha) as (id & -> & [[ty Hin] | (mid & Hin & Hr)]);
        exists id; split; auto.
      * left. exists ty. now right.
      * right. exists mid. split; auto. now right.
  - destruct Ha as [<- | Ha].
    + exists id0. split; auto. left. exists "FOLDER". now left.
    + apply in_app_or in Ha as [Ha | Ha].
      * destruct (IHsub _ Ha) as (id & -> & [[ty Hin] | (mid & Hin & Hr)]);
          exists id; split; auto; right; exists id0; split; try (now left).
        -- now apply Reachable_child with ty.
        -- now apply Reachable_sub with mid.
      * destruct (IH _ Ha) as (id & -> & [[ty Hin] | (mid & Hin & Hr)]);
          exists id; split; auto.
        -- left. exists ty. now right.
        -- right. exists mid. split; auto. now right.
Qed.

Lemma preorder_reachable (s : list entry) (folder : string) (l : list Asset.t) :
  Preorder s folder l ->
  forall a, In a l -> exists id, a = Asset.new [id] /\ Reachable s folder id.
Proof.
  intros Hl a Ha.
  destruct (preorder_sound Hl _ Ha) as (id & -> & [[ty Hin] | (mid & Hin & Hr)]);
    exists id; split; auto.
  - now apply Reachable_child with ty.
  - now apply Reachable_sub with mid.
Qed.

(** The sanity check at the head of [iterdir] passes on a project path and
    on a folder, and only reads. *)
Lemma iterdir_check_run (p : Asset.t) (w : world) :
  Asset.is_project p false = Ok true \/
  lookup (Asset.as_posix p) (store w) = Some "FOLDER" ->
  exists cs,
    (match Asset.is_project p false with
     | Ok true => ret true
     | _ => Asset.is_type p "FOLDER" true
     end) w = Some (Ok true, logged w cs) /\
    forallb is_read cs = true.
Proof.
  intros H.
  destruct (Asset.is_project p false) as [[|]|e] eqn:E.
  - exists []. now rewrite logged_nil.
  - destruct H as [H | H]; [discriminate|].
    rewrite (@is_type_run p _ "FOLDER") by exact H. eexists; split; reflexivity.
  - destruct H as [H | H]; [discriminate|].
    rewrite (@is_type_run p _ "FOLDER") by exact H. eexists; split; reflexivity.
Qed.

(** The recursive [iterdir] on a folder or project path. *)
Lemma iterdir_recursive_run (w : world) (p : Asset.t) (fuel : nat) :
  Asset.is_project p false = Ok true \/
  lookup (Asset.as_posix p) (store w) = Some "FOLDER" ->
  max_id_length (store w) < fuel ->
  exists l cs,
    Asset.iterdir fuel p true w = Some (Ok l, logged w cs) /\
    forallb is_read cs = true /\
    Preorder (store w) (Asset.as_posix p) l /\
    (forall id, Reachable (store w) (Asset.as_posix p) id -> In (Asset.new [id]) l) /\
    (forall a, In a l ->
       exists id, a = Asset.new [id] /\ Reachable (store w) (Asset.as_posix p) id).
Proof.
  intros Hp Hfuel.
  destruct (iterdir_check_run p w Hp) as (cs0 & E0 & Hr0).
  unfold Asset.iterdir, bind at 1. rewrite E0. cbn [negb].
  destruct (@recursive_get_run fuel (Asset.str p) [] (logged w cs0))
    as (l & cs & E & Hr & Hl); [simpl; lia | lia |].
  exists l, (cs0 ++ cs). rewrite E, logged_logged, forallb_app, Hr0, Hr.
  simpl in Hl. repeat split; auto.
  - intros id Hid. now apply (preorder_complete Hid).
  - now apply preorder_reachable.
Qed.

(** C9: on a folder or project path, the recursive [iterdir] returns (given
    recursion depth beyond the longest identifier), only reads the store,
    and its result is the pre-order listing: the children in the store's
    order, each followed at once by the listing of its own subtree when its
    type is [FOLDER] and by nothing otherwise; the listed assets are
    exactly the descendants reachable through folders. *)
Theorem C9_iterdir_preorder (w : world) (p : Asset.t) (fuel : nat) :
  Asset.is_project p false = Ok true \/
  lookup (Asset.as_posix p) (store w) = Some "FOLDER" ->
  max_id_length (store w) < fuel ->
  exists l cs,
    Asset.iterdir fuel p true w = Some (Ok l, logged w cs) /\
    forallb is_read cs = true /\
    Preorder (store w) (Asset.as_posix p) l /\
    (forall id, Reachable (store w) (Asset.as_posix p) id -> In (Asset.new [id]) l) /\
    (forall a, In a l ->
       exists id, a = Asset.new [id] /\ Reachable (store w) (Asset.as_posix p) id).
Proof. intros Hp Hfuel. now apply iterdir_recursive_run. Qed.

Lemma C9_witness :
  exists l cs,
    Asset.iterdir 30 Example.F true Example.w0 = Some (Ok l, logged Example.w0 cs) /\
    forallb is_read cs = true /\
    Preorder (store Example.w0) (Asset.as_posix Example.F) l /\
    (forall id, Reachable (store Example.w0) (Asset.as_posix Example.F) id ->
                In (Asset.new [id]) l) /\
    (forall a, In a l ->
       exists id, a = Asset.new [id] /\
                  Reachable (store Example.w0) (Asset.as_posix Example.F) id).
Proof.
  apply (@C9_iterdir_preorder Example.w0 Example.F 30).
  - right. reflexivity.
  - vm_compute. lia.
Defined.

Example iterdir_example :
  exists w',
    Asset.iterdir 30 Example.F true Example.w0
    = Some (Ok [Asset.new ["projects/p/assets/F/a"];
                Asset.new ["projects/p/assets/F/b"];
                Asset.new ["projects/p/assets/F/b/c"]], w').
Proof. eexists. reflexivity. Qed.

End Listing.

(** ** The levels of [rmdir] *)

Section Levels.
Import Remote TreeSpec.

Lemma flat_map_snd_perm (d d' : levels) :
  Permutation d d' -> Permutation (flat_map snd d) (flat_map snd d').
Proof.
  induction 1 as [|e d d' _ IH|e1 e2 d|d1 d2 d3 _ IH1 _ IH2]; simpl.
  - constructor.
  - now apply Permutation_app_head.
  - rewrite !app_assoc. apply Permutation_app_tail, Permutation_app_comm.
  - now transitivity (flat_map snd d2).
Qed.

Lemma setdefault_append_perm (d : levels) (k : nat) (a : Asset.t) :
  Permutation (flat_map snd (Asset.setdefault_append d k a)) (flat_map snd d ++ [a]).
Proof.
  induction d as [|[k' b] d IH]; simpl.
  - constructor. constructor.
  - destruct (Nat.eqb k' k); simpl.
    + rewrite <- !app_assoc. apply Permutation_app_head, Permutation_app_comm.
    + rewrite <- app_assoc. now apply Permutation_app_head.
Qed.

Lemma setdefault_append_keys (d : levels) (k : nat) (a : Asset.t) :
  (In k (map fst d) /\ map fst (Asset.setdefault_append d k a) = map fst d) \/
  (~ In k (map fst d) /\ map fst (Asset.setdefault_append d k a) = map fst d ++ [k]).
Proof.
  induction d as [|[k' b] d IH]; simpl.
  - right. split; auto.
  - destruct (Nat.eqb k' k) eqn:E.
    + apply Nat.eqb_eq in E. left. split; auto.
    + apply Nat.eqb_neq in E. simpl.
      destruct IH as [[Hin Heq] | [Hnin Heq]]; rewrite Heq.
      * left. split; auto.
      * right. split; auto. intros [H | H]; auto.
Qed.

Lemma setdefault_append_nodup (d : levels) (k : nat) (a : Asset.t) :
  NoDup (map fst d) -> NoDup (map fst (Asset.setdefault_append d k a)).
Proof.
  intros H. destruct (setdefault_append_keys d k a) as [[_ ->] | [Hnin ->]]; auto.
  apply NoDup_rev in H. rewrite <- (rev_involutive (map fst d ++ [k])).
  apply NoDup_rev. rewrite rev_app_distr. simpl. constructor; auto.
  now rewrite <- in_rev.
Qed.

Lemma setdefault_append_filed (d : levels) (k : nat) (a : Asset.t) :
  filed_by_depth d -> depth a = k -> filed_by_depth (Asset.setdefault_append d k a).
Proof.
  unfold filed_by_depth. induction d as [|[k' b] d IH]; simpl; intros Hd Ha e He x Hx.
  - destruct He as [<- | []]. simpl in *. destruct Hx as [<- | []]. assumption.
  - destruct (Nat.eqb k' k) eqn:E.
    + apply Nat.eqb_eq in E. subst k'.
      destruct He as [<- | He]; simpl in *.
      * apply in_app_or in Hx as [Hx | [<- | []]]; auto.
        apply (Hd (k, b)); auto.
      * apply (Hd e); auto.
    + destruct He as [<- | He].
      * apply (Hd (k', b)); auto.
      * apply (IH (fun e0 H0 => Hd e0 (or_intror H0)) Ha e He x Hx).
Qed.

Lemma buckets_fold (l : list Asset.t) :
  forall d,
    NoDup (map fst d) -> filed_by_depth d ->
    let d' := fold_left (fun d asset =>
                Asset.setdefault_append d (length (Asset.parts asset)) asset) l d in
    NoDup (map fst d') /\ filed_by_depth d' /\
    Permutation (flat_map snd d') (flat_map snd d ++ l).
Proof.
  induction l as [|a l IH]; intros d Hn Hf; simpl.
  - rewrite app_nil_r. auto.
  - destruct (IH (Asset.setdefault_append d (length (Asset.parts a)) a))
      as (Hn' & Hf' & Hp).
    + now apply setdefault_append_nodup.
    + now apply setdefault_append_filed.
    + repeat split; auto.
      etransitivity; [exact Hp|].
      change (a :: l) with ([a] ++ l). rewrite app_assoc.
      apply Permutation_app_tail, setdefault_append_perm.
Qed.

Lemma insert_reverse_perm (e : nat * list Asset.t) (d : levels) :
  Permutation (Asset.insert_reverse e d) (e :: d).
Proof.
  induction d as [|e' d IH]; simpl; auto.
  destruct (Nat.ltb (fst e') (fst e)); auto.
  etransitivity; [apply perm_skip, IH | apply perm_swap].
Qed.

Lemma sorted_reverse_perm (d : levels) : Permutation (Asset.sorted_reverse d) d.
Proof.
  induction d as [|e d IH]; simpl; auto.
  etransitivity; [apply insert_reverse_perm | now apply perm_skip].
Qed.

Lemma insert_reverse_sorted (e : nat * list Asset.t) (d : levels) :
  StronglySorted deeper_key d ->
  (forall e', In e' d -> fst e' <> fst e) ->
  StronglySorted deeper_key (Asset.insert_reverse e d).
Proof.
  induction d as [|e' d IH]; simpl; intros Hs Hne.
  - repeat constructor.
  - apply StronglySorted_inv in Hs as [Hs Hall].
    destruct (Nat.ltb (fst e') (fst e)) eqn:E.
    + apply Nat.ltb_lt in E. constructor.
      * constructor; auto.
      * constructor; [exact E|].
        rewrite Forall_forall in Hall |- *. intros x Hx.
        specialize (Hall x Hx). unfold deeper_key in *. lia.
    + apply Nat.ltb_ge in E. constructor.
      * apply IH; auto.
      * rewrite Forall_forall in Hall |- *. intros x Hx.
        apply (Permutation_in _ (insert_reverse_perm e d)) in Hx.
        destruct Hx as [<- | Hx]; auto.
        unfold deeper_key. specialize (Hne e' (or_introl eq_refl)). lia.
Qed.

Lemma sorted_reverse_sorted (d : levels) :
  NoDup (map fst d) -> StronglySorted deeper_key (Asset.sorted_reverse d).
Proof.
  induction d as [|e d IH]; simpl; intros Hn.
  - constructor.
  - inversion Hn as [|? ? Hnin Hn']; subst.
    apply insert_reverse_sorted; auto.
    intros e' He' Heq.
    apply (Permutation_in _ (sorted_reverse_perm d)) in He'.
    apply Hnin. rewrite <- Heq. now apply in_map.
Qed.

Lemma getitem_flat (d : levels) :
  NoDup (map fst d) ->
  flat_map (Asset.getitem d) (map fst d) = flat_map snd d.
Proof.
  induction d as [|[k b] d IH]; simpl; intros Hn; auto.
  inversion Hn as [|? ? Hnin Hn']; subst.
  rewrite Nat.eqb_refl. f_equal.
  rewrite <- IH by assumption.
  rewrite !flat_map_concat_map. f_equal.
  apply map_ext_in. intros k' Hk'.
  destruct (Nat.eqb k k') eqn:E; auto.
  apply Nat.eqb_eq in E. subst. contradiction.
Qed.

Lemma StronglySorted_app {A} (R : A -> A -> Prop) (l1 l2 : list A) :
  StronglySorted R l1 -> StronglySorted R l2 ->
  (forall x y, In x l1 -> In y l2 -> R x y) ->
  StronglySorted R (l1 ++ l2).
Proof.
  induction l1 as [|a l1 IH]; simpl; intros H1 H2 H; auto.
  apply StronglySorted_inv in H1 as [H1 Ha].
  constructor.
  - apply IH; auto.
  - apply Forall_app. split; auto.
    apply Forall_forall. intros y Hy. apply H; auto.
Qed.

Lemma same_depth_sorted (k : nat) (b : list Asset.t) :
  (forall a, In a b -> depth a = k) -> StronglySorted not_shallower b.
Proof.
  induction b as [|a b IH]; intros H; constructor.
  - apply IH. intros; apply H; now right.
  - apply Forall_forall. intros x Hx. unfold not_shallower.
    rewrite (H a), (H x); auto. now right. now left.
Qed.

Lemma flat_levels_sorted (d : levels) :
  StronglySorted deeper_key d -> filed_by_depth d ->
  StronglySorted not_shallower (flat_map snd d).
Proof.
  induction 1 as [|e d Hs IH Hall]; intros Hf; simpl.
  - constructor.
  - apply StronglySorted_app.
    + apply same_depth_sorted with (fst e). intros a Ha. apply (Hf e); auto. now left.
    + apply IH. intros e' He'. apply Hf. now right.
    + intros x y Hx Hy. apply in_flat_map in Hy as (e' & He' & Hy).
      rewrite Forall_forall in Hall. specialize (Hall e' He').
      unfold not_shallower, deeper_key in *.
      rewrite (Hf e (or_introl eq_refl) x Hx), (Hf e' (or_intror He') y Hy). lia.
Qed.

(** What [rmdir] knows about its levels. *)
Lemma assets_ordered_facts (l : list Asset.t) :
  let d := Asset.assets_ordered l in
  NoDup (map fst d) /\ filed_by_depth d /\ StronglySorted deeper_key d /\
  Permutation (flat_map snd d) l.
Proof.
  unfold Asset.assets_ordered.
  destruct (@buckets_fold l []) as (Hn & Hf & Hp); [constructor | intros e [] |].
  simpl in Hp.
  set (b := fold_left _ l []) in *.
  pose proof (sorted_reverse_perm b) as Hperm.
  repeat split.
  - apply Permutation_NoDup with (map fst b); auto.
    apply Permutation_map. now symmetry.
  - intros e He. apply Hf. now apply (Permutation_in _ Hperm).
  - now apply sorted_reverse_sorted.
  - etransitivity; [apply flat_map_snd_perm, Hperm | exact Hp].
Qed.

(** The deletion order is a rearrangement of the listing... *)
Lemma deletion_order_perm (l : list Asset.t) : Permutation (deletion_order l) l.
Proof.
  destruct (assets_ordered_facts l) as (Hn & _ & _ & Hp).
  unfold deletion_order. now rewrite getitem_flat.
Qed.

(** ... in which depth never increases. *)
Lemma deletion_order_sorted (l : list Asset.t) :
  StronglySorted not_shallower (deletion_order l).
Proof.
  destruct (assets_ordered_facts l) as (Hn & Hf & Hs & _).
  unfold deletion_order. rewrite getitem_flat by assumption.
  now apply flat_levels_sorted.
Qed.

Lemma sorted_prefix_rel {A} (R : A -> A -> Prop) (l1 l2 : list A) (a : A) :
  StronglySorted R (l1 ++ a :: l2) -> forall b, In b l1 -> R b a.
Proof.
  induction l1 as [|x l1 IH]; simpl; intros Hs b Hb; [contradiction|].
  apply StronglySorted_inv in Hs as [Hs Hall].
  destruct Hb as [<- | Hb].
  - rewrite Forall_forall in Hall. apply Hall. apply in_elt.
  - now apply IH.
Qed.

(** In a sorted list, an element that may not follow another one comes
    before it. *)
Lemma sorted_before {A} (R : A -> A -> Prop) (l : list A) (a b : A) :
  (forall x, R x x) ->
  StronglySorted R l -> In a l -> In b l -> ~ R b a -> before l a b.
Proof.
  intros Hrefl Hs Ha Hb Hn.
  apply in_split in Ha as (l1 & l2 & ->).
  apply in_app_or in Hb as [Hb | [<- | Hb]].
  - exfalso. apply Hn. now apply (sorted_prefix_rel _ _ _ Hs).
  - exfalso. apply Hn, Hrefl.
  - apply in_split in Hb as (l3 & l4 & ->). now exists l1, l3, l4.
Qed.

Lemma before_map {A B} (f : A -> B) (l : list A) (a b : A) :
  before l a b -> before (map f l) (f a) (f b).
Proof.
  intros (l1 & l2 & l3 & ->).
  exists (map f l1), (map f l2), (map f l3).
  now rewrite map_app, map_cons, map_app, map_cons.
Qed.

Lemma before_last {A} (l : list A) (a z : A) : In a l -> before (l ++ [z]) a z.
Proof.
  intros Ha. apply in_split in Ha as (l1 & l2 & ->).
  exists l1, l2, []. now rewrite <- app_assoc.
Qed.

Lemma before_app_r {A} (l l' : list A) (a b : A) : before l a b -> before (l ++ l') a b.
Proof.
  intros (l1 & l2 & l3 & ->). exists l1, l2, (l3 ++ l').
  now rewrite <- !app_assoc, <- !app_comm_cons, <- app_assoc.
Qed.

End Levels.

(** ** Recursive removal *)

Section Removal.
Import PyStr Remote TreeSpec.

Lemma deleted_app (a b : list call) : deleted (a ++ b) = deleted a ++ deleted b.
Proof.
  induction a as [|c a IH]; simpl; auto.
  destruct c; simpl; auto. now rewrite IH.
Qed.

Lemma deleted_reads (cs : list call) : forallb is_read cs = true -> deleted cs = [].
Proof.
  induction cs as [|c cs IH]; simpl; auto.
  intros H. apply andb_true_iff in H as [Hc H].
  destruct c; simpl in *; auto; discriminate.
Qed.

Lemma deleted_map (ids : list string) : deleted (map DeleteAsset ids) = ids.
Proof. induction ids; simpl; congruence. Qed.

(** A dry [delete] only records. *)
Lemma delete_dry_loop (l : list Asset.t) :
  forall out w,
    fold_m (Asset.rmdir_delete true) l out w = Some (Ok (out ++ map Asset.str l), w).
Proof.
  induction l as [|a l IH]; intros out w; simpl.
  - now rewrite app_nil_r.
  - unfold bind at 1. unfold Asset.rmdir_delete at 1. unfold bind, ret at 1.
    cbn [ret]. rewrite IH. now rewrite <- app_assoc.
Qed.

Lemma delete_dry_levels (d : levels) (keys : list nat) :
  forall out w,
    fold_m (fun output lvl => fold_m (Asset.rmdir_delete true) (Asset.getitem d lvl) output)
           keys out w
    = Some (Ok (out ++ map Asset.str (flat_map (Asset.getitem d) keys)), w).
Proof.
  induction keys as [|k keys IH]; intros out w; simpl.
  - now rewrite app_nil_r.
  - unfold bind at 1. rewrite delete_dry_loop, IH.
    now rewrite map_app, app_assoc.
Qed.

(** [deleteAsset] logs exactly one call, whatever its outcome. *)
Lemma deleteAsset_run (id : string) (w : world) :
  exists r w',
    deleteAsset id w = Some (r, w') /\
    log w' = log w ++ [DeleteAsset id] /\
    copy_denied w' = copy_denied w.
Proof.
  unfold deleteAsset, bind, record, get_store, put_store, raise. simpl.
  destruct (lookup id (store w)) as [ty|]; [|eexists _, _; repeat split].
  destruct ((ty =? "FOLDER") && negb (Nat.eqb (length (children id (store w))) 0));
    eexists _, _; repeat split.
Qed.

(** A live [delete] loop issues its [deleteAsset] calls in the order of the
    list, up to the first failure. *)
Lemma delete_live_loop (l : list Asset.t) :
  forall out w,
    exists r w' done rest,
      fold_m (Asset.rmdir_delete false) l out w = Some (r, w') /\
      log w' = log w ++ map DeleteAsset done /\
      map Asset.str l = done ++ rest /\
      (forall o, r = Ok o -> o = out ++ map Asset.str l /\ rest = []).
Proof.
  induction l as [|a l IH]; intros out w; simpl.
  - exists (Ok out), w, [], []. rewrite !app_nil_r. repeat split; congruence.
  - unfold bind at 1. unfold Asset.rmdir_delete at 1. unfold bind at 1.
    destruct (deleteAsset_run (Asset.str a) w) as (r0 & w0 & -> & Hlog0 & _).
    destruct r0 as [[]|e].
    + unfold ret at 1.
      destruct (IH (out ++ [Asset.str a]) w0) as (r & w' & done & rest & -> & Hlog & Hsplit & Hok).
      exists r, w', (Asset.str a :: done), rest.
      repeat split.
      * rewrite Hlog, Hlog0, <- app_assoc. reflexivity.
      * simpl. now rewrite Hsplit.
      * destruct (Hok o H) as [-> _]. now rewrite <- app_assoc.
      * now destruct (Hok o H).
    + exists (Raise e), w0, [Asset.str a], (map Asset.str l).
      repeat split; auto; discriminate.
Qed.

Lemma delete_live_levels (d : levels) (keys : list nat) :
  forall out w,
    exists r w' done rest,
      fold_m (fun output lvl => fold_m (Asset.rmdir_delete false) (Asset.getitem d lvl) output)
             keys out w = Some (r, w') /\
      log w' = log w ++ map DeleteAsset done /\
      map Asset.str (flat_map (Asset.getitem d) keys) = done ++ rest /\
      (forall o, r = Ok o ->
         o = out ++ map Asset.str (flat_map (Asset.getitem d) keys) /\ rest = []).
Proof.
  induction keys as [|k keys IH]; intros out w; simpl.
  - exists (Ok out), w, [], []. rewrite !app_nil_r. repeat split; congruence.
  - unfold bind at 1.
    destruct (delete_live_loop (Asset.getitem d k) out w)
      as (r0 & w0 & done0 & rest0 & -> & Hlog0 & Hsplit0 & Hok0).
    destruct r0 as [out0|e].
    + destruct (Hok0 out0 eq_refl) as [-> ->]. rewrite app_nil_r in Hsplit0.
      destruct (IH (out ++ map Asset.str (Asset.getitem d k)) w0)
        as (r & w' & done & rest & -> & Hlog & Hsplit & Hok).
      exists r, w', (done0 ++ done), rest.
      repeat split.
      * rewrite Hlog, Hlog0, map_app, <- app_assoc. reflexivity.
      * rewrite map_app, Hsplit, Hsplit0, <- app_assoc. reflexivity.
      * destruct (Hok o H) as [-> _]. now rewrite map_app, app_assoc.
      * now destruct (Hok o H).
    + exists (Raise e), w0, done0,
        (rest0 ++ map Asset.str (flat_map (Asset.getitem d) keys)).
      repeat split; try discriminate; auto.
      rewrite map_app, Hsplit0, <- app_assoc. reflexivity.
Qed.

(** The dry run of a recursive [rmdir], from the listing it obtains. *)
Lemma rmdir_dry_run (w w1 : world) (p : Asset.t) (fuel : nat) (l : list Asset.t)
      (dry_run : option bool) :
  lookup (Asset.as_posix p) (store w) = Some "FOLDER" ->
  dry_run = None \/ dry_run = Some true ->
  Asset.iterdir fuel p true
    (logged w [GetAsset (Asset.as_posix p); GetAsset (Asset.as_posix p);
               GetAsset (Asset.as_posix p)]) = Some (Ok l, w1) ->
  Asset.rmdir fuel p true dry_run w
  = Some (Ok (map Asset.str (deletion_order l) ++ [Asset.str p]), w1).
Proof.
  intros Hp Hd Hl. unfold Asset.rmdir, bind at 1.
  rewrite (@is_type_run p _ "FOLDER") by exact Hp. simpl String.eqb. cbv iota.
  assert (Ed : match dry_run with Some d => d | None => true end = true)
    by (destruct Hd as [-> | ->]; reflexivity).
  rewrite Ed. cbv zeta.
  unfold bind at 1. unfold bind at 1. rewrite Hl.
  rewrite delete_dry_levels. simpl app.
  unfold Asset.rmdir_delete, bind, ret. reflexivity.
Qed.

(** The live run: its [deleteAsset] calls follow the same list. *)
Lemma rmdir_live_run (w w1 : world) (p : Asset.t) (fuel : nat) (l : list Asset.t) :
  lookup (Asset.as_posix p) (store w) = Some "FOLDER" ->
  Asset.iterdir fuel p true
    (logged w [GetAsset (Asset.as_posix p); GetAsset (Asset.as_posix p);
               GetAsset (Asset.as_posix p)]) = Some (Ok l, w1) ->
  exists r w' done rest,
    Asset.rmdir fuel p true (Some false) w = Some (r, w') /\
    log w' = log w1 ++ map DeleteAsset done /\
    map Asset.str (deletion_order l) ++ [Asset.str p] = done ++ rest /\
    (forall o, r = Ok o ->
       o = map Asset.str (deletion_order l) ++ [Asset.str p] /\ rest = []).
Proof.
  intros Hp Hl. unfold Asset.rmdir, bind at 1.
  rewrite (@is_type_run p _ "FOLDER") by exact Hp. simpl String.eqb. cbv iota zeta.
  unfold bind at 1. unfold bind at 1. rewrite Hl.
  destruct (delete_live_levels (Asset.assets_ordered l)
              (map fst (Asset.assets_ordered l)) [] w1)
    as (r0 & w0 & done0 & rest0 & -> & Hlog0 & Hsplit0 & Hok0).
  fold (deletion_order l) in Hsplit0, Hok0.
  destruct r0 as [out0|e].
  - destruct (Hok0 out0 eq_refl) as [-> ->]. rewrite app_nil_r in Hsplit0. simpl app.
    unfold Asset.rmdir_delete, bind at 1.
    destruct (deleteAsset_run (Asset.str p) w0) as (r1 & w2 & -> & Hlog1 & _).
    destruct r1 as [[]|e].
    + exists (Ok (map Asset.str (deletion_order l) ++ [Asset.str p])), w2,
        (done0 ++ [Asset.str p]), [].
      repeat split.
      * rewrite Hlog1, Hlog0, map_app, <- app_assoc. reflexivity.
      * rewrite app_nil_r, Hsplit0. reflexivity.
      * congruence.
    + exists (Raise e), w2, (done0 ++ [Asset.str p]), [].
      repeat split; try discriminate.
      * rewrite Hlog1, Hlog0, map_app, <- app_assoc. reflexivity.
      * rewrite app_nil_r, Hsplit0. reflexivity.
  - exists (Raise e), w0, done0, (rest0 ++ [Asset.str p]).
    repeat split; try discriminate; auto.
    rewrite Hsplit0, <- app_assoc. reflexivity.
Qed.

(** The listing [rmdir] works from, after its type check. *)
Lemma rmdir_listing (w : world) (p : Asset.t) (fuel : nat) :
  lookup (Asset.as_posix p) (store w) = Some "FOLDER" ->
  max_id_length (store w) < fuel ->
  exists l cs,
    Asset.iterdir fuel p true
      (logged w [GetAsset (Asset.as_posix p); GetAsset (Asset.as_posix p);
                 GetAsset (Asset.as_posix p)])
    = Some (Ok l, logged w cs) /\
    forallb is_read cs = true /\
    Preorder (store w) (Asset.as_posix p) l /\
    (forall id, Reachable (store w) (Asset.as_posix p) id -> In (Asset.new [id]) l) /\
    (forall a, In a l ->
       exists id, a = Asset.new [id] /\ Reachable (store w) (Asset.as_posix p) id).
Proof.
  intros Hp Hfuel.
  set (g := GetAsset (Asset.as_posix p)).
  destruct (@iterdir_recursive_run (logged w [g; g; g]) p fuel)
    as (l & cs & E & Hr & Hl & Hc & Hs); auto.
  exists l, ([g; g; g] ++ cs). rewrite E, logged_logged. repeat split; auto.
Qed.

Example rmdir_dry_example :
  exists w',
    Asset.rmdir 30 Example.F true None Example.w0
    = Some (Ok ["projects/p/assets/F/b/c"; "projects/p/assets/F/a";
                "projects/p/assets/F/b"; "projects/p/assets/F"], w') /\
    store w' = store Example.w0 /\
    forallb is_read (log w') = true.
Proof. eexists. split; [vm_compute; reflexivity | split; reflexivity]. Qed.

(** A canonical identifier is the string form of a normal asset. *)
Lemma canonical_inv (id : string) :
  canonical id = true ->
  exists names,
    forallb Spec.valid_name names = true /\
    Asset.new [id] = Asset.mk (PurePosixPath.mk "" names) /\
    id = match names with [] => "." | _ => join names end.
Proof.
  unfold canonical. intros H. apply String.eqb_eq in H.
  unfold Asset.new in *.
  destruct (init_path_cases (make_wf [id]))
    as [[Hr E] | [(n & Hv & Ep & E) | (n & Hv & Ep & E)]].
  - destruct (make_wf [id]) as (names & Hv & [[_ Hp] | [[Hr1 _] | [Hr1 _]]]);
      try congruence.
    exists names. split; auto.
    assert (Em : PurePosixPath.make [id] = PurePosixPath.mk "" names).
    { destruct (PurePosixPath.make [id]); simpl in *; congruence. }
    rewrite E, Em in *. split; auto.
    unfold Asset.str, Asset.as_posix, PurePosixPath.as_posix in H. simpl in H.
    now rewrite str_unrooted in H.
  - exists n. rewrite E in *. repeat split; auto.
    unfold Asset.str, Asset.as_posix, PurePosixPath.as_posix in H. simpl in H.
    now rewrite str_unrooted in H.
  - exfalso. rewrite E in H.
    unfold Asset.str, Asset.as_posix, PurePosixPath.as_posix, PurePosixPath.str in H.
    simpl in H. rewrite <- H in Ep. rewrite make_rooted1 in Ep by assumption.
    discriminate.
Qed.

(** In a canonical store a child is one level deeper than its parent. *)
Lemma canonical_child_depth (id c : string) :
  canonical id = true -> canonical c = true -> is_child id c = true ->
  depth (Asset.new [c]) = S (depth (Asset.new [id])).
Proof.
  intros Hid Hc Hch.
  apply canonical_inv in Hid as (ns & Hvs & Es & Eid).
  apply canonical_inv in Hc as (nc & Hvc & Ec & Ecs).
  apply is_child_inv in Hch as (name & Echild & Hne & Hsep).
  unfold depth, Asset.parts, PurePosixPath.parts. rewrite Es, Ec. simpl.
  assert (Hsplit : split c = split id ++ [name]).
  { rewrite Echild, split_append_any. now rewrite (split_no_sep _ Hsep). }
  destruct nc as [|x nc].
  - exfalso. rewrite Ecs in Echild. apply (f_equal String.length) in Echild.
    rewrite length_append in Echild. simpl in Echild.
    destruct name; [congruence | simpl in Echild; lia].
  - assert (Hc' : split c = x :: nc).
    { rewrite Ecs. apply split_join; [discriminate | now apply valid_names_no_sep]. }
    destruct ns as [|y ns].
    + exfalso. rewrite Eid in Hsplit. simpl in Hsplit. rewrite Hc' in Hsplit.
      inversion Hsplit; subst. simpl in Hvc. discriminate.
    + assert (Hid' : split id = y :: ns).
      { rewrite Eid. apply split_join; [discriminate | now apply valid_names_no_sep]. }
      rewrite Hc', Hid' in Hsplit. rewrite Hsplit, length_app. simpl. lia.
Qed.

Lemma canonical_store_In (s : list entry) (e : entry) :
  canonical_store s -> In e s -> canonical (fst e) = true.
Proof.
  unfold canonical_store. rewrite forallb_forall. auto.
Qed.

Lemma canonical_str_new (id : string) :
  canonical id = true -> Asset.str (Asset.new [id]) = id.
Proof. unfold canonical. apply String.eqb_eq. Qed.

Lemma reachable_in_store (s : list entry) (folder id : string) :
  Reachable s folder id -> exists ty, In (id, ty) s.
Proof.
  induction 1 as [folder id ty Hin | folder mid id _ _ IH]; auto.
  apply children_In in Hin as [Hin _]. now exists ty.
Qed.

(** The children of a reachable folder are reachable. *)
Lemma reachable_extend (s : list entry) (folder id c ty : string) :
  Reachable s folder id ->
  In (id, "FOLDER") s ->
  In (c, ty) (children id s) ->
  Reachable s folder c.
Proof.
  induction 1 as [folder id ty0 Hin | folder mid id Hin _ IH]; intros Hf Hc.
  - apply Reachable_sub with id.
    + apply children_In in Hin as [_ Hch]. apply children_In. split; auto.
    + now apply Reachable_child with ty.
  - apply Reachable_sub with mid; auto.
Qed.

(** In the list a recursive [rmdir] follows, every child of a folder comes
    strictly before the folder. *)
Lemma plan_children_first (s : list entry) (p : Asset.t) (l : list Asset.t) :
  canonical_store s ->
  (forall id, Reachable s (Asset.as_posix p) id -> In (Asset.new [id]) l) ->
  (forall a, In a l ->
     exists id, a = Asset.new [id] /\ Reachable s (Asset.as_posix p) id) ->
  forall x c ty,
    In x (map Asset.str (deletion_order l) ++ [Asset.str p]) ->
    In (x, "FOLDER") s ->
    In (c, ty) (children x s) ->
    before (map Asset.str (deletion_order l) ++ [Asset.str p]) c x.
Proof.
  intros Hcan Hcomplete Hsound x c ty Hx Hfolder Hchild.
  pose proof (deletion_order_perm l) as Hperm.
  assert (Hc_store : In (c, ty) s) by now apply children_In in Hchild.
  pose proof (@canonical_store_In _ _ Hcan Hc_store) as Hc_can. simpl in Hc_can.
  apply in_app_or in Hx as [Hx | [<- | []]].
  + apply in_map_iff in Hx as (a & <- & Ha).
    apply (Permutation_in _ Hperm) in Ha.
    destruct (Hsound a Ha) as (id & -> & Hreach).
    destruct (@reachable_in_store _ _ _ Hreach) as (ty0 & Hid_store).
    pose proof (@canonical_store_In _ _ Hcan Hid_store) as Hid_can. simpl in Hid_can.
    rewrite (@canonical_str_new _ Hid_can) in *.
    assert (Hreach_c : Reachable s (Asset.as_posix p) c)
      by exact (@reachable_extend _ _ _ _ _ Hreach Hfolder Hchild).
    apply before_app_r.
    rewrite <- (@canonical_str_new _ Hc_can), <- (@canonical_str_new _ Hid_can).
    apply before_map.
    apply sorted_before with (R := not_shallower).
    * intros a. unfold not_shallower. lia.
    * apply deletion_order_sorted.
    * apply (Permutation_in _ (Permutation_sym Hperm)). now apply Hcomplete.
    * apply (Permutation_in _ (Permutation_sym Hperm)). assumption.
    * unfold not_shallower.
      apply children_In in Hchild as [_ Hch]. simpl in Hch.
      rewrite (@canonical_child_depth _ _ Hid_can Hc_can Hch). lia.
  + apply before_last.
    rewrite <- (@canonical_str_new _ Hc_can). apply in_map.
    apply (Permutation_in _ (Permutation_sym Hperm)). apply Hcomplete.
    now apply Reachable_child with ty.
Qed.

Example rmdir_live_example :
  exists w',
    Asset.rmdir 30 Example.F true (Some false) Example.w0
    = Some (Ok ["projects/p/assets/F/b/c"; "projects/p/assets/F/a";
                "projects/p/assets/F/b"; "projects/p/assets/F"], w') /\
    store w' = [("projects/p/assets", "FOLDER"); ("projects/p/assets/G", "IMAGE")] /\
    deleted (log w') = ["projects/p/assets/F/b/c"; "projects/p/assets/F/a";
                        "projects/p/assets/F/b"; "projects/p/assets/F"].
Proof. eexists. split; [vm_compute; reflexivity | split; reflexivity]. Qed.

End Removal.

(** ** Folder creation *)

Section Creation.
Import PyStr Remote TreeSpec.

Lemma exists_present (p : Asset.t) (w : world) :
  Asset.exists_ p false w
  = Some (Ok (present (store w) p), logged w [GetAsset (Asset.as_posix p)]).
Proof.
  rewrite exists_run. unfold present.
  now destruct (lookup (Asset.as_posix p) (store w)).
Qed.

(** The comprehension that collects the missing parents. *)
Lemma missing_run (ps : list Asset.t) :
  forall w,
    filter_m (fun p => e <- Asset.exists_ p false ;; ret (negb e))%remote ps w
    = Some (Ok (filter (fun p => negb (present (store w) p)) ps),
            logged w (map (fun p => GetAsset (Asset.as_posix p)) ps)).
Proof.
  induction ps as [|p ps IH]; intros w; simpl.
  - now rewrite logged_nil.
  - unfold bind at 1. unfold bind at 1. rewrite exists_present.
    unfold ret at 1. unfold bind at 1. rewrite IH. simpl store.
    unfold ret. rewrite logged_logged. reflexivity.
Qed.

Lemma reads_getAsset (ps : list Asset.t) :
  forallb is_read (map (fun p => GetAsset (Asset.as_posix p)) ps) = true.
Proof. induction ps; simpl; auto. Qed.

Lemma is_absolute_raised (p : Asset.t) :
  Asset.is_absolute p false = Ok true -> Asset.is_absolute p true = Ok true.
Proof.
  unfold Asset.is_absolute.
  destruct (match nth_error (Asset.parts p) 0 with
            | Some p0 =>
                match nth_error (Asset.parts p) 2 with
                | Some p2 => (p0 =? "projects") && (p2 =? "assets")
                | None => false
                end
            | None => false
            end); [reflexivity | discriminate].
Qed.

(** [mkdir] stops before any creation when it may not create parents and
    has more than one folder to create. *)
Lemma mkdir_refuses (p : Asset.t) (exist_ok : bool) (w : world) :
  Asset.is_absolute p false = Ok true ->
  present (store w) p = false \/ exist_ok = true ->
  let missing := filter (fun q => negb (present (store w) q)) (Asset.parents p) in
  let to_be_created := if present (store w) p then missing else p :: missing in
  1 < length to_be_created ->
  exists cs,
    Asset.mkdir p false exist_ok w
    = Some (Raise (ValueError ("Parent Asset " ++ String dquote (Asset.str (last missing p))
                                 ++ String dquote " does not exist.")),
            logged w cs) /\
    forallb is_read cs = true /\
    missing <> [].
Proof.
  intros Habs Hok missing tbc Hlen.
  unfold Asset.mkdir, bind at 1.
  rewrite (is_absolute_raised _ Habs). cbn [lift]. unfold ret at 1.
  unfold bind at 1. rewrite missing_run. fold missing.
  unfold bind at 1. rewrite exists_present. simpl store.
  unfold bind at 1.
  assert (Hne : missing <> []).
  { subst tbc. destruct (present (store w) p); destruct missing; simpl in Hlen;
      try lia; discriminate. }
  assert (Eand : present (store w) p && negb exist_ok = false).
  { destruct Hok as [-> | ->]; [reflexivity | apply andb_false_r]. }
  rewrite Eand. unfold bind at 1. rewrite exists_present. simpl store.
  unfold ret at 1.
  assert (Etbc : (if negb (present (store w) p) then p :: missing else missing) = tbc).
  { subst tbc. now destruct (present (store w) p). }
  rewrite Etbc.
  assert (Ecmp : Nat.ltb 1 (length tbc) && negb false = true).
  { rewrite andb_true_r. now apply Nat.ltb_lt. }
  rewrite Ecmp.
  assert (Elast : last tbc p = last missing p).
  { subst tbc. destruct (present (store w) p); auto.
    destruct missing; [congruence | reflexivity]. }
  rewrite Elast. unfold raise. rewrite !logged_logged.
  eexists. split; [reflexivity|]. split; auto.
  rewrite forallb_app, reads_getAsset. reflexivity.
Qed.

Lemma sorted_map_seq {B} (R : B -> B -> Prop) (h : nat -> B) (n : nat) :
  forall a,
    (forall i j, a <= i -> i < j -> j < a + n -> R (h i) (h j)) ->
    StronglySorted R (map h (seq a n)).
Proof.
  induction n as [|n IH]; intros a H; simpl; constructor.
  - apply IH. intros i j Hi Hij Hj. apply H; lia.
  - apply Forall_forall. intros y Hy. apply in_map_iff in Hy as (j & <- & Hj).
    apply in_seq in Hj. apply H; lia.
Qed.

Lemma StronglySorted_filter {A} (R : A -> A -> Prop) (f : A -> bool) (l : list A) :
  StronglySorted R l -> StronglySorted R (filter f l).
Proof.
  induction 1 as [|a l Hs IH Hall]; simpl; [constructor|].
  destruct (f a); auto. constructor; auto.
  rewrite Forall_forall in Hall |- *. intros x Hx.
  apply filter_In in Hx as [Hx _]. auto.
Qed.

Lemma StronglySorted_map {A B} (R : B -> B -> Prop) (f : A -> B) (l : list A) :
  StronglySorted (fun x y => R (f x) (f y)) l -> StronglySorted R (map f l).
Proof.
  induction 1 as [|a l Hs IH Hall]; simpl; constructor; auto.
  rewrite Forall_forall in Hall |- *. intros y Hy.
  apply in_map_iff in Hy as (x & <- & Hx). auto.
Qed.

Lemma sorted_last {A} (R : A -> A -> Prop) (l : list A) (d : A) :
  StronglySorted R l ->
  forall x, In x l -> x = last l d \/ R x (last l d).
Proof.
  induction 1 as [|a l Hs IH Hall]; intros x Hx; [contradiction|].
  destruct l as [|b l].
  - destruct Hx as [<- | []]. now left.
  - change (last (a :: b :: l) d) with (last (b :: l) d).
    destruct Hx as [<- | Hx]; [|now apply IH].
    right. rewrite Forall_forall in Hall. apply Hall.
    destruct (IH b (or_introl eq_refl)) as [E | _].
    + rewrite <- E. now left.
    + clear. revert b. induction l as [|c l IHl]; intros b; [now left|].
      right. apply IHl.
Qed.

Lemma last_In {A} (l : list A) (d : A) : l <> [] -> In (last l d) l.
Proof.
  induction l as [|a l IH]; [congruence|]. intros _.
  destruct l as [|b l]; [now left|].
  right. apply IH. discriminate.
Qed.

(** The ancestors of an absolute asset come deepest first. *)
Lemma parents_deepest_first (args : list string) :
  Asset.is_absolute (Asset.new args) false = Ok true ->
  StronglySorted (fun a b => depth b < depth a) (Asset.parents (Asset.new args)).
Proof.
  intros Habs.
  destruct (new_wf args) as (names & Hv & Hcase).
  unfold Asset.is_absolute, Asset.parts, PurePosixPath.parts in Habs.
  unfold Asset.parents, PurePosixPath.parents.
  destruct (Asset._path (Asset.new args)) as [root parts]. simpl in *.
  assert (Hroot : root = "").
  { destruct Hcase as [[Hr _] | [[_ Hp] | [_ Hp]]]; auto; subst parts;
      simpl in Habs; destruct names as [|? [|? ?]]; simpl in Habs; discriminate. }
  subst root. cbn [String.eqb].
  assert (Hparts : forallb Spec.valid_name parts = true).
  { destruct Hcase as [[_ Hp] | [[Hr _] | [Hr _]]];
      [now subst | discriminate Hr | discriminate Hr]. }
  apply StronglySorted_map, StronglySorted_filter, sorted_map_seq.
  intros i j _ Hij Hj. rewrite !of_path_names by now apply forallb_firstn.
  unfold depth, Asset.parts, PurePosixPath.parts. simpl.
  rewrite !firstn_length_le by lia. lia.
Qed.

(** C6: on an absolute path with more than one folder to create (the
    missing parents, and the path itself when it is missing), [mkdir]
    without [parents] raises the error that names a parent which does not
    exist, the shallowest of the missing ones, after reading only: the
    store is unchanged and no [createAsset] call is issued. *)
Theorem C6_mkdir_without_parents_creates_nothing
        (args : list string) (exist_ok : bool) (w : world) :
  let p := Asset.new args in
  let missing := filter (fun q => negb (present (store w) q)) (Asset.parents p) in
  let to_be_created := if present (store w) p then missing else p :: missing in
  Asset.is_absolute p false = Ok true ->
  present (store w) p = false \/ exist_ok = true ->
  1 < length to_be_created ->
  exists q cs,
    Asset.mkdir p false exist_ok w
    = Some (Raise (ValueError ("Parent Asset " ++ String dquote (Asset.str q)
                                 ++ String dquote " does not exist.")),
            logged w cs) /\
    forallb is_read cs = true /\
    In q (Asset.parents p) /\
    present (store w) q = false /\
    (forall q', In q' (Asset.parents p) -> present (store w) q' = false ->
                depth q <= depth q').
Proof.
  intros p missing tbc Habs Hok Hlen.
  destruct (@mkdir_refuses p exist_ok w Habs Hok Hlen) as (cs & E & Hr & Hne).
  fold missing in E, Hne.
  exists (last missing p), cs.
  pose proof (last_In p Hne) as Hin.
  apply filter_In in Hin as [Hin Hmiss]. apply negb_true_iff in Hmiss.
  repeat split; auto.
  intros q' Hq' Hmiss'.
  assert (Hs : StronglySorted (fun a b => depth b < depth a) missing).
  { apply StronglySorted_filter. now apply parents_deepest_first. }
  destruct (sorted_last p Hs q') as [<- | Hlt].
  - apply filter_In. split; auto. now rewrite Hmiss'.
  - lia.
  - lia.
Qed.

Lemma C6_witness :
  exists q cs,
    Asset.mkdir (Asset.new ["projects/p/assets/x/y/z"]) false false Example.w0
    = Some (Raise (ValueError ("Parent Asset " ++ String dquote (Asset.str q)
                                 ++ String dquote " does not exist.")),
            logged Example.w0 cs) /\
    forallb is_read cs = true /\
    In q (Asset.parents (Asset.new ["projects/p/assets/x/y/z"])) /\
    present (store Example.w0) q = false /\
    (forall q', In q' (Asset.parents (Asset.new ["projects/p/assets/x/y/z"])) ->
                present (store Example.w0) q' = false ->
                depth q <= depth q').
Proof.
  apply (@C6_mkdir_without_parents_creates_nothing
           ["projects/p/assets/x/y/z"] false Example.w0).
  - reflexivity.
  - left. reflexivity.
  - vm_compute. lia.
Defined.

Example mkdir_example :
  exists w',
    Asset.mkdir (Asset.new ["projects/p/assets/x/y/z"]) false false Example.w0
    = Some (Raise (ValueError
              ("Parent Asset " ++ String dquote "projects/p/assets/x"
                 ++ String dquote " does not exist.")), w') /\
    store w' = store Example.w0 /\
    forallb is_read (log w') = true.
Proof. eexists. split; [vm_compute; reflexivity | split; reflexivity]. Qed.

End Creation.

(** ** Writes to the store *)

Section Writes.
Import PyStr Remote TreeSpec.

Lemma bind_inv {A B} (m : M A) (f : A -> M B) (w w' : world) (r : outcome B) :
  bind m f w = Some (r, w') ->
  (exists a w1, m w = Some (Ok a, w1) /\ f a w1 = Some (r, w')) \/
  (exists e, m w = Some (Raise e, w') /\ r = Raise e).
Proof.
  unfold bind. destruct (m w) as [[[a|e] w1]|]; intros H.
  - left. eauto.
  - right. inversion H; subst. eauto.
  - discriminate.
Qed.

Lemma grows_refl (s : list entry) : grows s s.
Proof. intros id H. exact H. Qed.

Lemma grows_trans (s1 s2 s3 : list entry) : grows s1 s2 -> grows s2 s3 -> grows s1 s3.
Proof. intros H1 H2 id H. auto. Qed.



Lemma lookup_app (id : string) (s t : list entry) :
  lookup id (s ++ t)
  = match lookup id s with Some ty => Some ty | None => lookup id t end.
Proof.
  induction s as [|[k ty] s IH]; simpl; auto.
  destruct (k =? id); auto.
Qed.

Lemma lookup_write_same (id ty : string) (s : list entry) :
  lookup id (write id ty s) = Some ty.
Proof.
  induction s as [|[k ty'] s IH]; simpl.
  - now rewrite String.eqb_refl.
  - destruct (k =? id) eqn:E; simpl; rewrite E; auto.
Qed.

Lemma lookup_write_other (id id' ty : string) (s : list entry) :
  id' <> id -> lookup id' (write id ty s) = lookup id' s.
Proof.
  intros Hne. induction s as [|[k ty'] s IH]; simpl.
  - apply String.eqb_neq in Hne. rewrite String.eqb_sym in Hne. now rewrite Hne.
  - destruct (k =? id) eqn:E; simpl.
    + apply String.eqb_eq in E. subst k.
      apply String.eqb_neq in Hne. rewrite String.eqb_sym in Hne. now rewrite Hne.
    + destruct (k =? id'); auto.
Qed.

Lemma grows_write (id ty : string) (s : list entry) : grows s (write id ty s).
Proof.
  intros id' H. destruct (String.eqb_spec id' id) as [-> | Hne].
  - rewrite lookup_write_same. discriminate.
  - now rewrite lookup_write_other.
Qed.

Lemma lookup_remove_same (id : string) (s : list entry) : lookup id (remove id s) = None.
Proof.
  induction s as [|[k ty] s IH]; simpl; auto.
  destruct (k =? id) eqn:E; simpl; auto. now rewrite E.
Qed.

Lemma lookup_remove_other (id id' : string) (s : list entry) :
  id' <> id -> lookup id' (remove id s) = lookup id' s.
Proof.
  intros Hne. induction s as [|[k ty] s IH]; simpl; auto.
  destruct (k =? id) eqn:E; simpl.
  - apply String.eqb_eq in E. subst k.
    apply String.eqb_neq in Hne. rewrite String.eqb_sym in Hne. now rewrite Hne.
  - destruct (k =? id'); auto.
Qed.

Lemma extends_refl (s : list entry) : extends s s.
Proof. intros id ty H. exact H. Qed.

Lemma extends_trans (s1 s2 s3 : list entry) :
  extends s1 s2 -> extends s2 s3 -> extends s1 s3.
Proof. intros H1 H2 id ty H. auto. Qed.

Lemma extends_grows (s s' : list entry) : extends s s' -> grows s s'.
Proof.
  intros H id Hid. destruct (lookup id s) as [ty|] eqn:E; [|congruence].
  rewrite (H id ty E). discriminate.
Qed.

Lemma extends_append (s t : list entry) : extends s (s ++ t).
Proof. intros id ty H. now rewrite lookup_app, H. Qed.

(** [createAsset] only adds. *)
Lemma createAsset_run (id : string) (w : world) :
  exists r w',
    createAsset id w = Some (r, w') /\
    extends (store w) (store w') /\
    (r = Ok tt -> lookup id (store w') <> None) /\
    log w' = log w ++ [CreateAsset id].
Proof.
  unfold createAsset, bind, record, get_store, put_store, raise. simpl.
  destruct (lookup id (store w)) as [ty|] eqn:E.
  - eexists _, _. split; [reflexivity|]. simpl.
    repeat split; [apply extends_refl | discriminate].
  - eexists _, _. split; [reflexivity|]. simpl.
    repeat split; [apply extends_append|].
    intros _. rewrite lookup_app, E. simpl. rewrite String.eqb_refl. discriminate.
Qed.

Lemma create_all_run (ps : list Asset.t) :
  forall w,
    exists r w' cs,
      for_each (fun p => createAsset (Asset.as_posix p)) ps w = Some (r, w') /\
      extends (store w) (store w') /\
      (r = Ok tt -> forall p, In p ps -> lookup (Asset.as_posix p) (store w') <> None) /\
      log w' = log w ++ cs /\ deleted cs = [].
Proof.
  induction ps as [|p ps IH]; intros w; simpl.
  - exists (Ok tt), w, []. rewrite app_nil_r.
    repeat split; auto using extends_refl.
  - unfold bind at 1.
    destruct (createAsset_run (Asset.as_posix p) w) as (r0 & w0 & -> & Hg0 & Hok0 & Hl0).
    destruct r0 as [[]|e].
    + destruct (IH w0) as (r & w' & cs & -> & Hg & Hok & Hl & Hd).
      exists r, w', (CreateAsset (Asset.as_posix p) :: cs).
      repeat split; auto.
      * now apply extends_trans with (store w0).
      * intros Hr q [<- | Hq]; auto.
        apply (extends_grows Hg). auto.
      * rewrite Hl, Hl0, <- app_assoc. reflexivity.
    + exists (Raise e), w0, [CreateAsset (Asset.as_posix p)].
      repeat split; auto. discriminate.
Qed.

(** [copyAsset] only adds or overwrites. *)
Lemma copyAsset_run (src dst : string) (w : world) :
  exists r w',
    copyAsset src dst w = Some (r, w') /\
    grows (store w) (store w') /\
    (r = Ok tt -> lookup dst (store w') <> None) /\
    log w' = log w ++ [CopyAsset src dst] /\
    (existsb (String.eqb src) (copy_denied w) = true ->
     (exists e, r = Raise e) /\ store w' = store w).
Proof.
  unfold copyAsset, bind, record, get_store, get_denied, put_store, raise. simpl.
  destruct (existsb (String.eqb src) (copy_denied w)) eqn:Ed.
  - eexists _, _. split; [reflexivity|]. simpl.
    repeat split; eauto using grows_refl; discriminate.
  - destruct (lookup src (store w)) as [ty|].
    + eexists _, _. split; [reflexivity|]. simpl.
      repeat split; try discriminate; [apply grows_write|].
      intros _. rewrite lookup_write_same. discriminate.
    + eexists _, _. split; [reflexivity|]. simpl.
      repeat split; try discriminate. apply grows_refl.
Qed.



(** [mkdir] only adds, never deletes, and its target exists when it
    succeeds. *)
Lemma mkdir_run (p : Asset.t) (parents_ exist_ok : bool) (w : world) :
  exists r w' cs,
    Asset.mkdir p parents_ exist_ok w = Some (r, w') /\
    extends (store w) (store w') /\
    (forall x, r = Ok x -> present (store w') p = true) /\
    log w' = log w ++ cs /\ deleted cs = [].
Proof.
  unfold Asset.mkdir, bind at 1.
  destruct (Asset.is_absolute p true) as [b|e]; cbn [lift].
  2:{ exists (Raise e), w, []. rewrite app_nil_r.
      repeat split; auto using extends_refl. discriminate. }
  unfold ret at 1. unfold bind at 1. rewrite missing_run.
  set (missing := filter (fun q => negb (present (store w) q)) (Asset.parents p)).
  set (cs1 := map (fun q => GetAsset (Asset.as_posix q)) (Asset.parents p)).
  assert (Hd1 : deleted cs1 = []) by (apply deleted_reads, reads_getAsset).
  unfold bind at 1. rewrite exists_present. simpl store. rewrite logged_logged.
  unfold bind at 1.
  destruct (present (store w) p && negb exist_ok) eqn:Eand.
  { eexists _, _, _. split; [reflexivity|]. simpl.
    repeat split; auto using extends_refl; try discriminate.
    now rewrite deleted_app, Hd1. }
  unfold bind at 1. rewrite exists_present. simpl store. rewrite logged_logged.
  unfold ret at 1.
  set (tbc := if negb (present (store w) p) then p :: missing else missing).
  destruct (Nat.ltb 1 (length tbc) && negb parents_).
  { eexists _, _, _. split; [reflexivity|]. simpl.
    repeat split; auto using extends_refl; try discriminate.
    now rewrite !deleted_app, Hd1. }
  unfold bind at 1.
  match goal with
  | |- context [for_each _ (rev tbc) ?w0] =>
      destruct (create_all_run (rev tbc) w0) as (r & w' & cs & E & Hg & Hok & Hl & Hd)
  end.
  rewrite E. simpl in Hg, Hl.
  assert (Hlog : log w' = log w ++ ((cs1 ++ [GetAsset (Asset.as_posix p)])
                                      ++ [GetAsset (Asset.as_posix p)]) ++ cs)
    by (rewrite Hl; now rewrite <- !app_assoc).
  assert (Hdel : deleted (((cs1 ++ [GetAsset (Asset.as_posix p)])
                             ++ [GetAsset (Asset.as_posix p)]) ++ cs) = [])
    by (now rewrite !deleted_app, Hd1, Hd).
  destruct r as [[]|e].
  - exists (Ok p), w', (((cs1 ++ [GetAsset (Asset.as_posix p)])
                          ++ [GetAsset (Asset.as_posix p)]) ++ cs).
    repeat split; auto.
    intros _ _. unfold present.
    destruct (present (store w) p) eqn:Ep.
    + unfold present in Ep.
      destruct (lookup (Asset.as_posix p) (store w)) eqn:El; [|discriminate].
      now rewrite (Hg _ _ El).
    + assert (H : lookup (Asset.as_posix p) (store w') <> None).
      { apply Hok; auto. apply in_rev. rewrite rev_involutive. subst tbc. now left. }
      now destruct (lookup (Asset.as_posix p) (store w')).
  - exists (Raise e), w', (((cs1 ++ [GetAsset (Asset.as_posix p)])
                             ++ [GetAsset (Asset.as_posix p)]) ++ cs).
    repeat split; auto. discriminate.
Qed.



End Writes.

(** ** Moving a tree *)

Section Moves.
Import PyStr Remote TreeSpec Spec.

Lemma is_prefix_refl (l : list string) : PurePosixPath.is_prefix l l = true.
Proof. induction l as [|x l IH]; simpl; auto. now rewrite String.eqb_refl. Qed.

Lemma is_prefix_app (l r : list string) : PurePosixPath.is_prefix l (l ++ r) = true.
Proof. induction l as [|x l IH]; simpl; auto. now rewrite String.eqb_refl. Qed.

Lemma is_prefix_trans (a b c : list string) :
  PurePosixPath.is_prefix a b = true -> PurePosixPath.is_prefix b c = true ->
  PurePosixPath.is_prefix a c = true.
Proof.
  revert b c. induction a as [|x a IH]; intros [|y b] [|z c]; simpl; auto;
    try discriminate.
  intros H1 H2. apply andb_true_iff in H1 as [E1 H1]. apply andb_true_iff in H2 as [E2 H2].
  apply String.eqb_eq in E1, E2. subst. rewrite String.eqb_refl. simpl. eauto.
Qed.

Lemma as_posix_normal (src : Asset.t) :
  normal src ->
  Asset.as_posix src
  = match Asset.parts src with [] => "." | _ => join (Asset.parts src) end.
Proof.
  intros [Hr Hv]. destruct src as [[root parts]]. simpl in *. subst root.
  unfold Asset.as_posix, PurePosixPath.as_posix. simpl. now apply str_unrooted.
Qed.

Lemma as_posix_normal_head (src : Asset.t) :
  normal src -> head_not_sep (Asset.as_posix src) /\ Asset.as_posix src <> "".
Proof.
  intros Hn. rewrite (as_posix_normal Hn). destruct Hn as [_ Hv].
  destruct (Asset.parts src) as [|x l] eqn:E.
  - split; [reflexivity | discriminate].
  - split; [now apply join_head_not_sep|].
    intros H. apply join_empty_inv in H; [discriminate | assumption].
Qed.

Lemma split_as_posix_normal (src : Asset.t) :
  normal src ->
  filter PurePosixPath.keep_name (split (Asset.as_posix src)) = Asset.parts src.
Proof.
  intros Hn. rewrite (as_posix_normal Hn). destruct Hn as [_ Hv].
  destruct (Asset.parts src) as [|x l] eqn:E; [reflexivity|].
  now apply parse_join.
Qed.

Lemma make_plain (s : string) :
  s <> "" -> head_not_sep s ->
  PurePosixPath.make [s] = PurePosixPath.mk "" (filter PurePosixPath.keep_name (split s)).
Proof.
  intros Hne Hh. unfold PurePosixPath.make. simpl rev.
  unfold PurePosixPath.parse_reversed.
  apply String.eqb_neq in Hne. rewrite Hne.
  now rewrite splitroot_plain.
Qed.




















Example move_example :
  fst Example.moved = Ok Example.H /\
  store (snd Example.moved)
  = [ ("projects/p/assets", "FOLDER");
      ("projects/p/assets/G", "IMAGE");
      ("projects/p/assets/H", "FOLDER");
      ("projects/p/assets/H/a", "IMAGE");
      ("projects/p/assets/H/b", "FOLDER");
      ("projects/p/assets/H/b/c", "TABLE") ] /\
  deleted (log (snd Example.moved))
  = ["projects/p/assets/F/a"; "projects/p/assets/F/b/c";
     "projects/p/assets/F/b"; "projects/p/assets/F"].
Proof. repeat split; reflexivity. Qed.

(** A leaf: copy, existence check and deletion close the log. *)
Example move_leaf_example :
  exists w',
    Asset.move 30 Example.G (Asset.new ["projects/p/assets/K/g"]) false Example.w0
    = Some (Ok (Asset.new ["projects/p/assets/K/g"]), w') /\
    lookup "projects/p/assets/G" (store w') = None /\
    lookup "projects/p/assets/K/g" (store w') = Some "IMAGE" /\
    skipn (length (log w') - 3) (log w')
    = [CopyAsset "projects/p/assets/G" "projects/p/assets/K/g";
       GetAsset "projects/p/assets/G";
       DeleteAsset "projects/p/assets/G"].
Proof. eexists. split; [vm_compute; reflexivity | repeat split; reflexivity]. Qed.

(** Why the destination has to lie outside the source: moved onto itself
    with [overwrite], an asset is copied over itself and then deleted. *)
Example move_onto_itself_example :
  exists w',
    Asset.move 30 Example.G Example.G true Example.w0 = Some (Ok Example.G, w') /\
    present (store w') Example.G = false.
Proof. eexists. split; [vm_compute; reflexivity | reflexivity]. Qed.

End Moves.

(** ** Expanding the home marker *)

Section Home.
Import PyStr Spec.

Lemma replace1_absent (new s : string) :
  contains "~" s = false -> replace1 "~" new s = s.
Proof.
  induction s as [|c s IH]; intros H; [reflexivity|].
  cbn [contains] in H. apply orb_false_iff in H as [Hc Hs].
  cbn [replace1 strip_prefix]. rewrite Hc. now rewrite IH.
Qed.

(** Only the first occurrence is replaced. *)
Lemma replace1_first (new pre post : string) :
  contains "~" pre = false ->
  replace1 "~" new (pre ++ String "~" post) = (pre ++ new ++ post)%string.
Proof.
  induction pre as [|c pre IH]; intros H.
  - reflexivity.
  - cbn [contains] in H. apply orb_false_iff in H as [Hc Hs].
    change ((String c pre ++ String "~" post)%string)
      with (String c (pre ++ String "~" post)).
    cbn [replace1 strip_prefix]. rewrite Hc. now rewrite IH.
Qed.

Lemma join_split (s : string) : join (split s) = s.
Proof.
  induction s as [|c s IH]; [reflexivity|].
  simpl. destruct (is_sep c) eqn:Hc.
  - unfold is_sep in Hc. apply Ascii.eqb_eq in Hc. subst c.
    destruct (split s) as [|x xs] eqn:E; [now apply split_not_nil in E|].
    change (join ("" :: x :: xs)) with ("" ++ String sep (join (x :: xs)))%string.
    now rewrite IH.
  - destruct (split s) as [|x xs] eqn:E; [now apply split_not_nil in E|].
    destruct xs as [|y xs].
    + simpl in *. now rewrite IH.
    + change (join (String c x :: y :: xs))
        with (String c (x ++ String sep (join (y :: xs)))).
      change (join (x :: y :: xs)) with (x ++ String sep (join (y :: xs)))%string in IH.
      now rewrite IH.
Qed.

(** Where two strings meet, the last field of the first and the first
    field of the second become one field. *)
Lemma split_append (a b : string) :
  split (a ++ b)
  = removelast (split a) ++ (last (split a) "" ++ hd "" (split b))%string :: tl (split b).
Proof.
  induction a as [|c a IH].
  - simpl. destruct (split b) as [|x xs] eqn:E; [now apply split_not_nil in E|].
    reflexivity.
  - change ((String c a ++ b)%string) with (String c (a ++ b)).
    cbn [split]. rewrite IH.
    destruct (split a) as [|x xs] eqn:E; [now apply split_not_nil in E|].
    destruct (is_sep c).
    + destruct xs; reflexivity.
    + destruct xs as [|y xs]; reflexivity.
Qed.

(** A string whose fields are all valid names is printed back as it is. *)
Lemma str_new_valid_fields (s : string) :
  forallb valid_name (split s) = true ->
  Asset.str (Asset.new [s]) = s /\ normal (Asset.new [s]).
Proof.
  intros Hv.
  assert (Hne : s <> "") by (intros ->; discriminate Hv).
  assert (Hh : head_not_sep s).
  { destruct s as [|c s]; [exact I|]. simpl. destruct (is_sep c) eqn:Hc; auto.
    simpl in Hv. rewrite Hc in Hv. discriminate Hv. }
  unfold Asset.new. rewrite (make_plain Hne Hh), (filter_keep_valid _ Hv).
  unfold Asset.init_path, PurePosixPath.is_absolute. cbn [PurePosixPath._root String.eqb negb].
  split.
  - unfold Asset.str, Asset.as_posix, PurePosixPath.as_posix. simpl.
    rewrite str_unrooted by assumption.
    destruct (split s) eqn:E; [now apply split_not_nil in E|].
    rewrite <- E. apply join_split.
  - split; [reflexivity | exact Hv].
Qed.

Lemma valid_name_glue_r (x : string) :
  contains_sep x = false -> forall lit, lit <> "" -> lit <> "." ->
  contains_sep lit = false -> String.length lit > 1 ->
  valid_name (x ++ lit) = true.
Proof.
  intros Hx lit Hne Hdot Hsep Hlen.
  unfold valid_name, PurePosixPath.keep_name.
  rewrite contains_sep_append, Hx, Hsep. simpl. rewrite andb_true_r.
  apply andb_true_iff. split; apply negb_true_iff, String.eqb_neq; intros E;
    apply (f_equal String.length) in E; rewrite length_append in E; simpl in E; lia.
Qed.

Lemma valid_name_glue_l (x : string) :
  contains_sep x = false -> forall lit,
  contains_sep lit = false -> String.length lit > 1 ->
  valid_name (lit ++ x) = true.
Proof.
  intros Hx lit Hsep Hlen.
  unfold valid_name, PurePosixPath.keep_name.
  rewrite contains_sep_append, Hx, Hsep. simpl. rewrite andb_true_r.
  apply andb_true_iff. split; apply negb_true_iff, String.eqb_neq; intros E;
    apply (f_equal String.length) in E; rewrite length_append in E; simpl in E; lia.
Qed.

Lemma forallb_removelast {A} (f : A -> bool) (l : list A) :
  forallb f l = true -> forallb f (removelast l) = true.
Proof.
  induction l as [|x l IH]; simpl; auto.
  intros H. apply andb_true_iff in H as [Hx Hl].
  destruct l; simpl in *; auto. rewrite Hx. simpl. auto.
Qed.

Lemma last_no_sep (s : string) : contains_sep (last (split s) "") = false.
Proof.
  pose proof (split_fields_no_sep s) as H. rewrite Forall_forall in H.
  apply H. apply last_In. apply split_not_nil.
Qed.

Lemma hd_no_sep (s : string) : contains_sep (hd "" (split s)) = false.
Proof.
  pose proof (split_fields_no_sep s) as H. rewrite Forall_forall in H.
  apply H. destruct (split s) eqn:E; [now apply split_not_nil in E|]. now left.
Qed.

(** The home folder of a project whose name is a valid component. *)
Lemma home_as_posix (project : string) :
  valid_name project = true ->
  Asset.as_posix (Asset.home project) = ("projects/" ++ project ++ "/assets")%string.
Proof.
  intros Hp. pose proof Hp as Hp'.
  apply valid_name_inv in Hp' as (_ & _ & Hsep & _).
  unfold Asset.home, Asset.new.
  rewrite make_plain; [|discriminate|reflexivity].
  change ("projects/" ++ project ++ "/assets/")%string
    with ("projects" ++ String sep (project ++ String sep "assets/"))%string.
  rewrite split_append_sep by reflexivity.
  rewrite split_append_sep by assumption.
  assert (Hk : PurePosixPath.keep_name project = true).
  { unfold valid_name in Hp. now apply andb_true_iff in Hp as [Hp _]. }
  cbn [filter split is_sep]. simpl filter. rewrite Hk.
  unfold Asset.init_path, PurePosixPath.is_absolute. cbn [PurePosixPath._root String.eqb negb].
  unfold Asset.as_posix, PurePosixPath.as_posix.
  change (PurePosixPath.keep_name "projects") with true. cbn [Asset._path].
  rewrite str_unrooted; [reflexivity|].
  simpl. now rewrite Hp.
Qed.

Lemma normal_fields (a : Asset.t) (pre post : string) :
  normal a ->
  Asset.as_posix a = (pre ++ String "~" post)%string ->
  forallb valid_name (split (pre ++ String "~" post)) = true.
Proof.
  intros Hn E. rewrite <- E, (as_posix_normal Hn).
  rewrite (as_posix_normal Hn) in E. destruct Hn as [_ Hv].
  destruct (Asset.parts a) as [|x l] eqn:Ep.
  - exfalso. destruct pre as [|c pre]; [discriminate E|].
    destruct pre; discriminate E.
  - rewrite split_join; [assumption | discriminate | now apply valid_names_no_sep].
Qed.

(** On a normal asset, [expanduser] returns the asset itself when its
    string form has no [~], and otherwise the asset whose string form is
    that of the argument with the first [~] replaced by the home folder. *)
Lemma expanduser_normal (project : string) (a : Asset.t) :
  normal a ->
  valid_name project = true ->
  (contains "~" (Asset.as_posix a) = false -> Asset.expanduser project a = a) /\
  (forall pre post,
      Asset.as_posix a = (pre ++ String "~" post)%string ->
      contains "~" pre = false ->
      Asset.as_posix (Asset.expanduser project a)
      = (pre ++ ("projects/" ++ project ++ "/assets") ++ post)%string).
Proof.
  intros Hn Hp. split.
  - intros H. unfold Asset.expanduser. rewrite replace1_absent by assumption.
    now apply new_str_normal.
  - intros pre post E Hpre. unfold Asset.expanduser.
    rewrite E, replace1_first, home_as_posix by assumption.
    apply str_new_valid_fields.
    pose proof (normal_fields _ _ Hn E) as Hv.
    rewrite split_append in Hv |- *.
    assert (Ew : (("projects/" ++ project ++ "/assets") ++ post)%string
                 = ("projects" ++ String sep (project ++ String sep ("assets" ++ post)))%string).
    { change ("projects/" ++ project ++ "/assets")%string
        with ("projects" ++ String sep (project ++ "/assets"))%string.
      rewrite append_assoc. cbn [String.append]. rewrite append_assoc. reflexivity. }
    rewrite Ew.
    pose proof Hp as Hp'. apply valid_name_inv in Hp' as (_ & _ & Hsep & _).
    rewrite split_append_sep by reflexivity.
    rewrite split_append_sep by assumption.
    rewrite (split_append "assets" post).
    cbn [split is_sep] in Hv. 
    destruct (split post) as [|q qs] eqn:Eq; [now apply split_not_nil in Eq|].
    assert (Hq : contains_sep q = false).
    { pose proof (hd_no_sep post) as H. now rewrite Eq in H. }
    assert (Hs : is_sep "~" = false) by reflexivity.
    rewrite Hs in Hv.
    cbn [hd tl] in Hv |- *. simpl removelast. simpl last. cbn [app].
    rewrite forallb_app in Hv |- *.
    apply andb_true_iff in Hv as [Hv1 Hv2]. cbn [forallb] in Hv2 |- *.
    apply andb_true_iff in Hv2 as [_ Hv2].
    rewrite Hv1, Hp, Hv2. simpl andb.
    rewrite (@valid_name_glue_r _ (last_no_sep pre) "projects");
      [| discriminate | discriminate | reflexivity | simpl; lia].
    change (String "a" (String "s" (String "s" (String "e" (String "t" (String "s" q))))))
      with ("assets" ++ q)%string.
    rewrite (@valid_name_glue_l _ Hq "assets"); [| reflexivity | simpl; lia].
    reflexivity.
Qed.

Example expanduser_later_component :
  Asset.as_posix (Asset.expanduser "ee-geetools" (Asset.new ["a/~x/~"]))
  = "a/projects/ee-geetools/assetsx/~".
Proof. reflexivity. Qed.

(** C10: on the asset built from ["//a"], whose string form ["/a"] has no
    [~], [expanduser] returns a different asset (the asset ["a"]): the
    leading separator the constructor left in place is dropped by the
    re-parse. *)
Theorem C10_expanduser_changes_rooted_asset :
  let a := Asset.new ["//a"] in
  Asset.as_posix a = "/a" /\
  contains "~" (Asset.as_posix a) = false /\
  Asset.as_posix (Asset.expanduser "ee-geetools" a) = "a" /\
  Asset.eq (Asset.expanduser "ee-geetools" a) a = false /\
  Asset.expanduser "ee-geetools" a <> a.
Proof. repeat split; try reflexivity. vm_compute. discriminate. Qed.

End Home.

(** ** Joining, parents and names *)

Section Joining.
Import PyStr Spec TreeSpec.

Lemma normal_eta (a : Asset.t) :
  normal a -> a = Asset.mk (PurePosixPath.mk "" (Asset.parts a)).
Proof.
  intros [Hr _]. destruct a as [[root parts]]. simpl in *. now subst root.
Qed.

Lemma normal_mk (names : list string) :
  forallb valid_name names = true -> normal (Asset.mk (PurePosixPath.mk "" names)).
Proof. intros H. split; [reflexivity | exact H]. Qed.

Lemma make_unrooted (x : string) :
  head_not_sep x ->
  PurePosixPath.make [x] = PurePosixPath.mk "" (filter PurePosixPath.keep_name (split x)).
Proof.
  intros Hh. destruct x as [|c x].
  - reflexivity.
  - apply make_plain; [discriminate | exact Hh].
Qed.

Lemma truediv_unrooted (a : Asset.t) (x : string) :
  normal a -> head_not_sep x ->
  Asset.truediv a x
  = Asset.mk (PurePosixPath.mk "" (Asset.parts a ++ filter PurePosixPath.keep_name (split x))).
Proof.
  intros [Hr Hv] Hh. unfold Asset.truediv, PurePosixPath.truediv.
  rewrite (@make_unrooted x Hh). cbn [PurePosixPath._root PurePosixPath._parts String.eqb].
  rewrite Hr. apply of_path_names.
  rewrite forallb_app, Hv. apply filter_keep_is_valid.
Qed.

Lemma truediv_normal (a : Asset.t) (x : string) :
  normal a -> head_not_sep x -> normal (Asset.truediv a x).
Proof.
  intros Hn Hh. rewrite (@truediv_unrooted a x Hn Hh). apply normal_mk.
  rewrite forallb_app. destruct Hn as [_ Hv]. rewrite Hv. apply filter_keep_is_valid.
Qed.

Lemma relative_to_self (p : PurePosixPath.t) :
  wf_path p -> PurePosixPath.is_relative_to p p = true.
Proof.
  intros (names & _ & [[Hr Hp] | [[Hr Hp] | [Hr Hp]]]);
    destruct p as [root parts]; simpl in *; subst;
    unfold PurePosixPath.is_relative_to, PurePosixPath.relative_to, PurePosixPath.abs_parts;
    cbn [PurePosixPath._root PurePosixPath._parts String.eqb Ascii.eqb Bool.eqb tl length negb Nat.eqb].
  - destruct names as [|n names]; [reflexivity|].
    cbn [length Nat.eqb]. now rewrite is_prefix_refl.
  - now rewrite is_prefix_refl.
  - now rewrite is_prefix_refl.
Qed.

(** X1.  Every asset the constructor returns is relative to itself:
    [a.is_relative_to(str(a))] holds whatever the arguments were. *)
Theorem is_relative_to_itself (args : list string) :
  Asset.is_relative_to (Asset.new args) (Asset.str (Asset.new args)) = true.
Proof.
  unfold Asset.is_relative_to. rewrite make_str_new. apply relative_to_self, new_wf.
Qed.

(** X2.  Joining a segment that does not start with a separator onto an
    asset in normal form appends the segment's names to the asset's
    components, and the result is relative to the asset. *)
Theorem truediv_stays_below (a : Asset.t) (x : string) :
  normal a -> head_not_sep x ->
  Asset.parts (Asset.truediv a x)
  = Asset.parts a ++ filter PurePosixPath.keep_name (split x) /\
  normal (Asset.truediv a x) /\
  Asset.is_relative_to (Asset.truediv a x) (Asset.str a) = true.
Proof.
  intros Hn Hh. split; [|split].
  - now rewrite (@truediv_unrooted a x Hn Hh).
  - now apply truediv_normal.
  - unfold Asset.is_relative_to, Asset.str, Asset.as_posix, PurePosixPath.as_posix.
    rewrite (@make_str _ (@normal_wf a Hn)).
    rewrite (@truediv_unrooted a x Hn Hh).
    destruct Hn as [Hr _].
    unfold PurePosixPath.is_relative_to, PurePosixPath.relative_to, PurePosixPath.abs_parts.
    cbn [Asset._path PurePosixPath._root PurePosixPath._parts String.eqb negb].
    rewrite Hr. cbn [String.eqb negb].
    unfold Asset.parts, PurePosixPath.parts.
    destruct (Nat.eqb (length (PurePosixPath._parts (Asset._path a))) 0); [reflexivity|].
    now rewrite is_prefix_app.
Qed.

Lemma truediv_stays_below_witness :
  Asset.parts (Asset.truediv (Asset.new ["projects/p/assets"]) "F//./b/")
  = ["projects"; "p"; "assets"; "F"; "b"] /\
  Asset.is_relative_to (Asset.truediv (Asset.new ["projects/p/assets"]) "F//./b/")
                       "projects/p/assets" = true.
Proof.
  assert (Hn : normal (Asset.new ["projects/p/assets"])) by (split; reflexivity).
  assert (Hh : head_not_sep "F//./b/") by reflexivity.
  destruct (@truediv_stays_below _ _ Hn Hh) as (Hp & _ & Hrel).
  split; [exact Hp | exact Hrel].
Defined.

Lemma valid_segment (n : string) :
  valid_name n = true -> filter PurePosixPath.keep_name (split n) = [n].
Proof.
  intros Hv. pose proof (@valid_name_inv n Hv) as (_ & _ & Hsep & _).
  rewrite (@split_no_sep n Hsep). cbn [filter].
  unfold valid_name in Hv. apply andb_true_iff in Hv as [-> _]. reflexivity.
Qed.

Lemma valid_last (names : list string) :
  forallb valid_name names = true -> names <> [] -> valid_name (last names "") = true.
Proof.
  intros Hv Hne. rewrite forallb_forall in Hv. apply Hv. now apply last_In.
Qed.

Lemma parent_unrooted (names : list string) :
  forallb valid_name names = true ->
  Asset.parent (Asset.mk (PurePosixPath.mk "" names))
  = Asset.mk (PurePosixPath.mk "" (removelast names)).
Proof.
  intros Hv. unfold Asset.parent, PurePosixPath.parent.
  cbn [Asset._path PurePosixPath._root PurePosixPath._parts String.eqb negb].
  rewrite andb_false_r. apply of_path_names. now apply forallb_removelast.
Qed.

(** X3.  Joining one valid name onto an asset in normal form and taking
    the parent gives the asset back, and the name of the joined asset is
    the name that was joined. *)
Theorem parent_of_truediv (a : Asset.t) (n : string) :
  normal a -> valid_name n = true ->
  Asset.parent (Asset.truediv a n) = a /\ Asset.name (Asset.truediv a n) = n.
Proof.
  intros Hn Hv. pose proof (@valid_name_inv n Hv) as (_ & _ & _ & Hh).
  rewrite (@truediv_unrooted a n Hn Hh), (@valid_segment n Hv). split.
  - rewrite parent_unrooted, removelast_last; [symmetry; now apply normal_eta|].
    destruct Hn as [_ Hvs]. rewrite forallb_app, Hvs. cbn [forallb]. now rewrite Hv.
  - unfold Asset.name, PurePosixPath.name.
    cbn [Asset._path PurePosixPath._root PurePosixPath._parts String.eqb].
    rewrite length_app, Nat.add_comm. cbn [length Nat.add Nat.eqb].
    apply last_last.
Qed.

Lemma parent_of_truediv_witness :
  Asset.parent (Asset.truediv (Asset.new ["projects/p/assets/F"]) "img")
  = Asset.new ["projects/p/assets/F"] /\
  Asset.name (Asset.truediv (Asset.new ["projects/p/assets/F"]) "img") = "img".
Proof.
  apply (@parent_of_truediv (Asset.new ["projects/p/assets/F"]) "img").
  - split; reflexivity.
  - reflexivity.
Defined.

(** X4.  An asset in normal form with at least one component is its parent
    joined with its name. *)
Theorem truediv_of_parent (a : Asset.t) :
  normal a -> Asset.parts a <> [] ->
  Asset.truediv (Asset.parent a) (Asset.name a) = a.
Proof.
  intros Hn Hne. pose proof Hn as [_ Hv].
  rewrite (@normal_eta a Hn) at 1 2. rewrite parent_unrooted by exact Hv.
  assert (En : Asset.name (Asset.mk (PurePosixPath.mk "" (Asset.parts a)))
               = last (Asset.parts a) "").
  { unfold Asset.name, PurePosixPath.name.
    cbn [Asset._path PurePosixPath._root PurePosixPath._parts String.eqb].
    destruct (Asset.parts a); [congruence | reflexivity]. }
  rewrite En.
  pose proof (@valid_last _ Hv Hne) as Hl.
  pose proof (@valid_name_inv _ Hl) as (_ & _ & _ & Hh).
  rewrite truediv_unrooted;
    [| apply normal_mk; now apply forallb_removelast | exact Hh].
  cbn [Asset.parts PurePosixPath.parts Asset._path PurePosixPath._parts].
  rewrite (@valid_segment _ Hl).
  rewrite <- app_removelast_last by assumption.
  symmetry. now apply normal_eta.
Qed.

Lemma truediv_of_parent_witness :
  Asset.truediv (Asset.parent (Asset.new ["projects/p/assets/F/img"]))
                (Asset.name (Asset.new ["projects/p/assets/F/img"]))
  = Asset.new ["projects/p/assets/F/img"].
Proof.
  apply (@truediv_of_parent (Asset.new ["projects/p/assets/F/img"])).
  - split; reflexivity.
  - discriminate.
Defined.

Lemma ends_with_sep_contains (s : string) :
  contains_sep s = false -> PurePosixPath.ends_with_sep s = false.
Proof.
  induction s as [|c s IH]; [reflexivity|].
  cbn [contains_sep]. intros H. apply orb_false_iff in H as [Hc Hs].
  cbn [PurePosixPath.ends_with_sep]. destruct s; [exact Hc | now apply IH].
Qed.

Lemma name_unrooted (names : list string) :
  forallb valid_name names = true -> names <> [] ->
  PurePosixPath.name (PurePosixPath.mk "" names) = last names "" /\
  (last names "" =? "") = false.
Proof.
  intros Hv Hne. split.
  - unfold PurePosixPath.name. cbn [PurePosixPath._root PurePosixPath._parts String.eqb].
    destruct names; [congruence | reflexivity].
  - pose proof (@valid_last names Hv Hne) as Hl.
    pose proof (@valid_name_inv _ Hl) as (Hn & _). now apply String.eqb_neq.
Qed.

(** X5.  On an asset in normal form with at least one component,
    [with_name] with a valid name succeeds: the last component is replaced,
    the new asset has the given name and the parent of the old one. *)
Theorem with_name_replaces_last (a : Asset.t) (n : string) :
  normal a -> Asset.parts a <> [] -> valid_name n = true ->
  exists b,
    Asset.with_name a n = Ok b /\
    Asset.parts b = removelast (Asset.parts a) ++ [n] /\
    Asset.name b = n /\
    Asset.parent b = Asset.parent a /\
    normal b.
Proof.
  intros Hn Hne Hv. pose proof Hn as [_ Hvs].
  pose proof (@valid_name_inv n Hv) as (Hn0 & _ & Hsep & Hh).
  destruct (@name_unrooted _ Hvs Hne) as [En Enn].
  exists (Asset.mk (PurePosixPath.mk "" (removelast (Asset.parts a) ++ [n]))).
  assert (Hvb : forallb valid_name (removelast (Asset.parts a) ++ [n]) = true).
  { rewrite forallb_app, (@forallb_removelast _ _ _ Hvs). cbn [forallb].
    now rewrite Hv. }
  split; [|split; [|split; [|split]]].
  - unfold Asset.with_name, PurePosixPath.with_name.
    rewrite (@normal_eta a Hn) at 1 2. cbn [Asset._path].
    rewrite En, Enn, (@make_unrooted n Hh), (@valid_segment n Hv).
    apply String.eqb_neq in Hn0. rewrite Hn0, (@ends_with_sep_contains n Hsep).
    cbn [PurePosixPath._root PurePosixPath._parts String.eqb negb length Nat.eqb orb].
    destruct Hn as [Hr _]. rewrite Hr.
    unfold Asset.parts, PurePosixPath.parts in Hvb |- *. cbn [Asset._path PurePosixPath._parts].
    now rewrite (of_path_names _ Hvb).
  - reflexivity.
  - unfold Asset.name, PurePosixPath.name.
    cbn [Asset._path PurePosixPath._root PurePosixPath._parts String.eqb].
    rewrite length_app, Nat.add_comm. cbn [length Nat.add Nat.eqb]. apply last_last.
  - rewrite parent_unrooted, removelast_last by exact Hvb.
    rewrite (@normal_eta a Hn) at 2. now rewrite parent_unrooted.
  - now apply normal_mk.
Qed.

Lemma with_name_replaces_last_witness :
  exists b,
    Asset.with_name (Asset.new ["projects/p/assets/F/img"]) "new_img" = Ok b /\
    Asset.parts b = ["projects"; "p"; "assets"; "F"; "new_img"] /\
    Asset.name b = "new_img".
Proof.
  destruct (@with_name_replaces_last (Asset.new ["projects/p/assets/F/img"]) "new_img")
    as (b & E & Hp & Hname & _).
  - split; reflexivity.
  - discriminate.
  - reflexivity.
  - exists b. split; [exact E | split; [exact Hp | exact Hname]].
Defined.

Lemma make_rooted_root (r : string) :
  (PurePosixPath._root (PurePosixPath.make [String sep r]) =? "") = false.
Proof.
  unfold PurePosixPath.make. cbn [rev app PurePosixPath.parse_reversed String.eqb].
  unfold PurePosixPath.splitroot. cbn [is_sep sep Ascii.eqb Bool.eqb].
  destruct (Nat.eqb _ 2); reflexivity.
Qed.

(** X6.  [with_name] raises [ValueError] on an asset whose name is empty,
    and for a new name that is empty, starts with a separator or ends with
    one. *)
Theorem with_name_rejects (a : Asset.t) (n : string) :
  Asset.name a = "" \/ n = "" \/ (exists r, n = String sep r) \/
  PurePosixPath.ends_with_sep n = true ->
  exists msg, Asset.with_name a n = Raise (ValueError msg).
Proof.
  intros H. unfold Asset.with_name, PurePosixPath.with_name.
  fold (Asset.name a).
  destruct (Asset.name a =? "") eqn:En; [eexists; reflexivity|].
  destruct H as [H | [H | [[r H] | H]]].
  - rewrite H in En. discriminate.
  - subst n. eexists; reflexivity.
  - subst n. rewrite make_rooted_root. cbn [negb]. rewrite !orb_true_r.
    cbn [orb]. eexists; reflexivity.
  - rewrite H. rewrite orb_true_r. cbn [orb]. eexists; reflexivity.
Qed.

Lemma with_name_rejects_witness :
  exists msg, Asset.with_name (Asset.new ["projects/p/assets/F/img"]) "x/"
              = Raise (ValueError msg).
Proof.
  apply (@with_name_rejects (Asset.new ["projects/p/assets/F/img"]) "x/").
  right. right. right. reflexivity.
Defined.

Lemma parse_reversed_unrooted (it : list string) :
  Forall head_not_sep it ->
  PurePosixPath.parse_reversed it
  = ("", concat (map (fun x => filter PurePosixPath.keep_name (split x)) (rev it))).
Proof.
  induction it as [|part it IH]; intros H; [reflexivity|].
  inversion H as [|? ? Hh Hit]; subst. specialize (IH Hit).
  cbn [rev]. rewrite map_app, concat_app. cbn [map concat]. rewrite app_nil_r.
  destruct part as [|c part].
  - cbn [PurePosixPath.parse_reversed String.eqb]. rewrite IH.
    cbn [split filter PurePosixPath.keep_name String.eqb negb andb].
    now rewrite app_nil_r.
  - cbn [PurePosixPath.parse_reversed String.eqb].
    rewrite (@splitroot_plain (String c part) Hh), IH. reflexivity.
Qed.

Lemma fold_truediv_unrooted (args : list string) :
  Forall head_not_sep args ->
  forall a, normal a ->
    fold_left Asset.truediv args a
    = Asset.mk (PurePosixPath.mk ""
        (Asset.parts a
           ++ concat (map (fun x => filter PurePosixPath.keep_name (split x)) args))).
Proof.
  induction 1 as [|x args Hh Hargs IH]; intros a Hn.
  - cbn [fold_left map concat]. rewrite app_nil_r. now apply normal_eta.
  - cbn [fold_left map concat].
    rewrite (IH _ (@truediv_normal a x Hn Hh)), (@truediv_unrooted a x Hn Hh).
    cbn [Asset.parts PurePosixPath.parts Asset._path PurePosixPath._parts].
    now rewrite app_assoc.
Qed.

(** X7.  [joinpath] with several segments is the same as joining them one
    after the other with [/], for an asset in normal form and segments none
    of which starts with a separator. *)
Theorem joinpath_is_iterated_truediv (a : Asset.t) (args : list string) :
  normal a -> Forall head_not_sep args ->
  Asset.joinpath a args = fold_left Asset.truediv args a.
Proof.
  intros Hn Hargs. rewrite (@fold_truediv_unrooted args Hargs a Hn).
  unfold Asset.joinpath, PurePosixPath.joinpath, PurePosixPath.make.
  rewrite parse_reversed_unrooted by (now apply Forall_rev).
  rewrite rev_involutive.
  cbn [PurePosixPath._root PurePosixPath._parts String.eqb].
  destruct Hn as [Hr Hv]. rewrite Hr. apply of_path_names.
  fold (Asset.parts a). rewrite forallb_app, Hv. clear.
  induction args as [|x args IH]; [reflexivity|].
  cbn [map concat]. now rewrite forallb_app, filter_keep_is_valid.
Qed.

Lemma joinpath_is_iterated_truediv_witness :
  Asset.joinpath (Asset.new ["projects/p/assets"]) ["F"; ""; "b/./c"]
  = Asset.truediv (Asset.truediv (Asset.truediv (Asset.new ["projects/p/assets"]) "F") "")
                  "b/./c".
Proof.
  apply (@joinpath_is_iterated_truediv (Asset.new ["projects/p/assets"]) ["F"; ""; "b/./c"]).
  - split; reflexivity.
  - repeat constructor.
Defined.

Lemma home_path (project : string) :
  valid_name project = true ->
  Asset.home project = Asset.mk (PurePosixPath.mk "" (home_parts project)).
Proof.
  intros Hp. pose proof Hp as Hp'.
  apply valid_name_inv in Hp' as (_ & _ & Hsep & _).
  unfold Asset.home, Asset.new.
  rewrite make_plain; [|discriminate|reflexivity].
  change ("projects/" ++ project ++ "/assets/")%string
    with ("projects" ++ String sep (project ++ String sep "assets/"))%string.
  rewrite split_append_sep by reflexivity.
  rewrite split_append_sep by assumption.
  assert (Hk : PurePosixPath.keep_name project = true).
  { unfold valid_name in Hp. now apply andb_true_iff in Hp as [Hp _]. }
  cbn [filter split is_sep]. simpl filter. rewrite Hk.
  reflexivity.
Qed.

Lemma home_normal (project : string) :
  valid_name project = true -> normal (Asset.home project).
Proof.
  intros Hp. rewrite (@home_path project Hp). apply normal_mk.
  unfold home_parts. cbn [forallb]. rewrite Hp. reflexivity.
Qed.

(** X8.  The home folder of a project with a valid name has the three
    components [projects], the project and [assets] (the trailing separator
    of the source's string is dropped); it is absolute, it is a project, its
    owner is the project and it has no parent to create. *)
Theorem home_is_a_project (project : string) :
  valid_name project = true ->
  Asset.parts (Asset.home project) = home_parts project /\
  Asset.is_absolute (Asset.home project) true = Ok true /\
  Asset.is_project (Asset.home project) true = Ok true /\
  Asset.owner (Asset.home project) = Ok project /\
  Asset.parents (Asset.home project) = [].
Proof.
  intros Hp. rewrite (@home_path project Hp).
  split; [reflexivity|]. split; [reflexivity|]. split; [reflexivity|].
  split; [reflexivity|].
  pose proof (@scaffolding_owner project Hp) as E1.
  assert (E2 : scaffolding (PurePosixPath.str (PurePosixPath.mk "" ["projects"])) = true)
    by reflexivity.
  assert (E3 : scaffolding (PurePosixPath.str (PurePosixPath.mk "" [])) = true)
    by reflexivity.
  unfold scaffolding in E1, E2, E3.
  unfold Asset.parents, PurePosixPath.parents, home_parts.
  cbn [Asset._path PurePosixPath._root PurePosixPath._parts String.eqb length seq map
       Nat.sub firstn filter].
  rewrite E1, E2, E3. reflexivity.
Qed.

Lemma home_is_a_project_witness :
  Asset.parts (Asset.home "ee-geetools") = ["projects"; "ee-geetools"; "assets"] /\
  Asset.is_project (Asset.home "ee-geetools") true = Ok true /\
  Asset.parents (Asset.home "ee-geetools") = [].
Proof.
  destruct (@home_is_a_project "ee-geetools") as (Hparts & _ & Hproj & _ & Hpar).
  - reflexivity.
  - split; [exact Hparts | split; [exact Hproj | exact Hpar]].
Defined.

Lemma is_prefix_home_inv (project : string) (l : list string) :
  PurePosixPath.is_prefix (home_parts project) l = true ->
  exists rest, l = "projects" :: project :: "assets" :: rest.
Proof.
  unfold home_parts. intros H.
  destruct l as [|x0 [|x1 [|x2 rest]]]; cbn [PurePosixPath.is_prefix] in H;
    try discriminate.
  - apply andb_true_iff in H as [_ H]. discriminate.
  - apply andb_true_iff in H as [_ H]. apply andb_true_iff in H as [_ H]. discriminate.
  - apply andb_true_iff in H as [H0 H]. apply andb_true_iff in H as [H1 H].
    apply andb_true_iff in H as [H2 _].
    apply String.eqb_eq in H0, H1, H2. subst. now exists rest.
Qed.

(** X9.  For a project with a valid name and an asset in normal form,
    [is_user_project] holds exactly when the asset's components start with
    [projects], the project, [assets]; it raises [ValueError] only when
    asked to.  The owner of such an asset is the project. *)
Theorem is_user_project_by_components (project : string) (a : Asset.t) (raised : bool) :
  valid_name project = true -> normal a ->
  Asset.is_user_project project a raised
  = (if PurePosixPath.is_prefix (home_parts project) (Asset.parts a) then Ok true
     else if raised
          then Raise (ValueError ("Asset " ++ Asset.as_posix a
                                    ++ " is not in the same project as the user ("
                                    ++ project ++ ")"))
          else Ok false) /\
  (PurePosixPath.is_prefix (home_parts project) (Asset.parts a) = true ->
   Asset.owner a = Ok project).
Proof.
  intros Hp Hn. split.
  - unfold Asset.is_user_project, Asset.is_relative_to.
    rewrite (@make_str _ (@normal_wf _ (@home_normal project Hp))).
    rewrite (@home_path project Hp). destruct Hn as [Hr _].
    unfold PurePosixPath.is_relative_to, PurePosixPath.relative_to, PurePosixPath.abs_parts.
    cbn [Asset._path PurePosixPath._root PurePosixPath._parts String.eqb].
    rewrite Hr. cbn [String.eqb]. unfold home_parts at 1. cbn [length Nat.eqb].
    unfold Asset.parts, PurePosixPath.parts.
    destruct (PurePosixPath.is_prefix (home_parts project)
                (PurePosixPath._parts (Asset._path a))); reflexivity.
  - intros H. apply is_prefix_home_inv in H as [rest E].
    unfold Asset.owner, Asset.is_absolute. rewrite E. reflexivity.
Qed.

Lemma is_user_project_by_components_witness :
  Asset.is_user_project "p" (Asset.new ["projects/p/assets/F/a"]) true = Ok true /\
  Asset.owner (Asset.new ["projects/p/assets/F/a"]) = Ok "p" /\
  Asset.is_user_project "q" (Asset.new ["projects/p/assets/F/a"]) false = Ok false.
Proof.
  assert (Hn : normal (Asset.new ["projects/p/assets/F/a"])) by (split; reflexivity).
  destruct (@is_user_project_by_components "p" _ true eq_refl Hn) as [E1 E2].
  destruct (@is_user_project_by_components "q" _ false eq_refl Hn) as [E3 _].
  split; [exact E1 | split; [apply E2; reflexivity | exact E3]].
Defined.

(** X10.  Unless the arguments parse to the double-slash root, the
    constructor returns an asset without a root whose components are all
    non-empty, different from ["."] and free of separators. *)
Theorem constructor_gives_normal_form (args : list string) :
  PurePosixPath._root (PurePosixPath.make args) <> "//" ->
  PurePosixPath._root (Asset._path (Asset.new args)) = "" /\
  Forall (fun x => x <> "" /\ x <> "." /\ contains_sep x = false)
         (Asset.parts (Asset.new args)).
Proof.
  intros H. destruct (@new_normal args H) as [Hr Hv]. split; [exact Hr|].
  apply Forall_forall. intros x Hx. rewrite forallb_forall in Hv.
  destruct (@valid_name_inv x (Hv x Hx)) as (H1 & H2 & H3 & _). auto.
Qed.

Lemma constructor_gives_normal_form_witness :
  PurePosixPath._root (Asset._path (Asset.new ["///projects//p/./assets/"; "x/"])) = "" /\
  Forall (fun x => x <> "" /\ x <> "." /\ contains_sep x = false)
         (Asset.parts (Asset.new ["///projects//p/./assets/"; "x/"])).
Proof.
  apply (@constructor_gives_normal_form ["///projects//p/./assets/"; "x/"]).
  discriminate.
Defined.

(** X11.  Unless the arguments parse to the double-slash root, printing an
    asset and parsing the text again gives the same asset, and so does
    building an asset from the asset; the two compare equal. *)
Theorem print_then_parse (args : list string) :
  PurePosixPath._root (PurePosixPath.make args) <> "//" ->
  Asset.new [Asset.str (Asset.new args)] = Asset.new args /\
  Asset.of_asset (Asset.new args) = Asset.new args /\
  Asset.eq (Asset.new [Asset.str (Asset.new args)]) (Asset.new args) = true.
Proof.
  intros H. pose proof (@new_normal args H) as Hn.
  pose proof (@new_str_normal _ Hn) as E. split; [exact E|]. split.
  - destruct Hn as [Hr _]. unfold Asset.of_asset, Asset.init_path, PurePosixPath.is_absolute.
    rewrite Hr. cbn [String.eqb negb]. now destruct (Asset.new args).
  - rewrite E. unfold Asset.eq. rewrite make_str_new.
    unfold PurePosixPath.eqb, PurePosixPath.list_eqb.
    now rewrite (proj2 (list_compare_eq_iff _ _) eq_refl).
Qed.

Lemma print_then_parse_witness :
  Asset.new [Asset.str (Asset.new ["/projects"; "p//assets/./x/"])]
  = Asset.new ["/projects"; "p//assets/./x/"].
Proof.
  apply (@print_then_parse ["/projects"; "p//assets/./x/"]). discriminate.
Defined.

(** X12.  On an asset in normal form, and for a project with a valid
    name, [expanduser] returns the asset itself when its text holds no
    tilde; otherwise the text of the result is the text of the asset with
    its first tilde, and only that one, replaced by the home folder
    [projects/<project>/assets]. *)
Theorem expanduser_replaces_first_tilde (project : string) (a : Asset.t) :
  normal a ->
  valid_name project = true ->
  (contains "~" (Asset.as_posix a) = false -> Asset.expanduser project a = a) /\
  (forall pre post,
      Asset.as_posix a = (pre ++ String "~" post)%string ->
      contains "~" pre = false ->
      Asset.as_posix (Asset.expanduser project a)
      = (pre ++ ("projects/" ++ project ++ "/assets") ++ post)%string).
Proof. intros Hn Hp. exact (@expanduser_normal project a Hn Hp). Qed.

Lemma expanduser_replaces_first_tilde_witness :
  Asset.expanduser "ee-geetools" (Asset.new ["projects/p/assets/x"])
  = Asset.new ["projects/p/assets/x"] /\
  Asset.as_posix (Asset.expanduser "ee-geetools" (Asset.new ["~/folder/~img"]))
  = "projects/ee-geetools/assets/folder/~img".
Proof.
  split.
  - apply (@expanduser_replaces_first_tilde "ee-geetools" (Asset.new ["projects/p/assets/x"]));
      [split; reflexivity | reflexivity | reflexivity].
  - apply (proj2 (@expanduser_replaces_first_tilde "ee-geetools" (Asset.new ["~/folder/~img"])
                    (conj eq_refl eq_refl) eq_refl) "" "/folder/~img");
      reflexivity.
Defined.

End Joining.

(** ** Task descriptions *)

Section Descriptions.
Import PyStr TreeSpec.

Lemma contains_append (c : ascii) (a b : string) :
  contains c (a ++ b) = contains c a || contains c b.
Proof.
  induction a as [|d a IH]; [reflexivity|].
  cbn [append contains]. now rewrite IH, orb_assoc.
Qed.

Lemma existsb_eqb_In (c : ascii) (chars : list ascii) :
  existsb (Ascii.eqb c) chars = true <-> In c chars.
Proof.
  rewrite existsb_exists. split.
  - intros (x & Hx & E). apply Ascii.eqb_eq in E. now subst.
  - intros H. exists c. split; [exact H | apply Ascii.eqb_refl].
Qed.

Lemma contains_re_sub (chars : list ascii) (rep : string) (c : ascii) :
  contains c rep = false ->
  forall s,
    contains c (Asset.re_sub chars rep s)
    = if existsb (Ascii.eqb c) chars then false else contains c s.
Proof.
  intros Hrep. induction s as [|c0 s IH].
  - cbn [Asset.re_sub contains]. now destruct (existsb (Ascii.eqb c) chars).
  - cbn [Asset.re_sub]. destruct (existsb (Ascii.eqb c0) chars) eqn:E0.
    + rewrite contains_append, Hrep, IH. cbn [orb contains].
      destruct (existsb (Ascii.eqb c) chars) eqn:Ec; [reflexivity|].
      destruct (Ascii.eqb c c0) eqn:E; [|reflexivity].
      apply Ascii.eqb_eq in E. subst. congruence.
    + cbn [contains]. rewrite IH.
      destruct (existsb (Ascii.eqb c) chars) eqn:Ec; [|reflexivity].
      destruct (Ascii.eqb c c0) eqn:E; [|reflexivity].
      apply Ascii.eqb_eq in E. subst. congruence.
Qed.

Lemma re_sub_absent (chars : list ascii) (rep : string) :
  forall s,
    (forall c, In c chars -> contains c s = false) ->
    Asset.re_sub chars rep s = s.
Proof.
  induction s as [|c0 s IH]; intros H; [reflexivity|].
  cbn [Asset.re_sub].
  destruct (existsb (Ascii.eqb c0) chars) eqn:E0.
  - apply existsb_eqb_In in E0. specialize (H c0 E0). cbn [contains] in H.
    now rewrite Ascii.eqb_refl in H.
  - f_equal. apply IH. intros c Hc. specialize (H c Hc). cbn [contains] in H.
    now apply orb_false_iff in H as [_ H].
Qed.

Lemma substring_length_le (n : nat) :
  forall s, String.length (substring 0 n s) <= n.
Proof.
  induction n as [|n IH]; intros [|c s]; cbn [substring String.length]; try lia.
  specialize (IH s). lia.
Qed.

Lemma substring_absent (c : ascii) (n : nat) :
  forall s, contains c s = false -> contains c (substring 0 n s) = false.
Proof.
  induction n as [|n IH]; intros [|d s] H; cbn [substring contains]; try reflexivity.
  cbn [contains] in H. apply orb_false_iff in H as [H1 H2].
  now rewrite H1, (IH s H2).
Qed.

Lemma substring_all (n : nat) :
  forall s, String.length s <= n -> substring 0 n s = s.
Proof.
  induction n as [|n IH]; intros [|c s] H; cbn [substring]; try reflexivity.
  - cbn [String.length] in H. lia.
  - cbn [String.length] in H. f_equal. apply IH. lia.
Qed.

Lemma format_description_facts (anyascii : string -> string) (description : string) :
  String.length (Asset.format_description anyascii description) <= 100 /\
  forall c, In c replaced_chars ->
    contains c (Asset.format_description anyascii description) = false.
Proof.
  unfold Asset.format_description. split; [apply substring_length_le|].
  intros c Hc. apply substring_absent.
  unfold Asset.replacements. cbn [fold_left fst snd].
  unfold replaced_chars, Asset.replacements in Hc. cbn [flat_map fst app] in Hc.
  repeat (destruct Hc as [<- | Hc];
          [rewrite !contains_re_sub by reflexivity; reflexivity |]).
  destruct Hc.
Qed.

(** X13.  Whatever the transliteration returns, the formatted description
    has at most 100 characters and holds none of the characters the
    function replaces: space, slash, the question and exclamation marks,
    the star and the six brackets.  So does the description of an asset,
    which is its formatted name. *)
Theorem format_description_is_bounded_and_clean
        (anyascii : string -> string) (description : string) (a : Asset.t) :
  (String.length (Asset.format_description anyascii description) <= 100 /\
   forall c, In c replaced_chars ->
     contains c (Asset.format_description anyascii description) = false) /\
  (String.length (Asset.as_description anyascii a) <= 100 /\
   forall c, In c replaced_chars ->
     contains c (Asset.as_description anyascii a) = false).
Proof.
  split; [apply format_description_facts|].
  unfold Asset.as_description. apply format_description_facts.
Qed.

(** X14.  Formatting is idempotent: when the transliteration leaves the
    formatted text alone, as it does any ASCII text, formatting it again
    changes nothing. *)
Theorem format_description_idempotent
        (anyascii : string -> string) (description : string) :
  anyascii (Asset.format_description anyascii description)
  = Asset.format_description anyascii description ->
  Asset.format_description anyascii (Asset.format_description anyascii description)
  = Asset.format_description anyascii description.
Proof.
  intros Hid.
  destruct (format_description_facts anyascii description) as [Hlen Hclean].
  set (r := Asset.format_description anyascii description) in *.
  unfold Asset.format_description at 1. rewrite Hid.
  unfold Asset.replacements. cbn [fold_left fst snd].
  assert (Hsub : forall chars rep,
             incl chars replaced_chars -> Asset.re_sub chars rep r = r).
  { intros chars rep Hincl. apply re_sub_absent. intros c Hc. apply Hclean, Hincl, Hc. }
  rewrite (Hsub [" "%char]), (Hsub ["/"%char]),
    (Hsub ["?"%char; "!"%char; Asset.inverted_question; "*"%char]),
    (Hsub ["("%char; ")"%char; "["%char; "]"%char; "{"%char; "}"%char]);
    try (intros c Hc; unfold replaced_chars, Asset.replacements;
         cbn [flat_map fst app]; cbn [In] in Hc |- *; tauto).
  now apply substring_all.
Qed.

Lemma format_description_idempotent_witness :
  Asset.format_description (fun s => s)
    (Asset.format_description (fun s => s) "My image (v2) / test?")
  = Asset.format_description (fun s => s) "My image (v2) / test?".
Proof.
  apply (@format_description_idempotent (fun s => s) "My image (v2) / test?").
  reflexivity.
Defined.

Example format_description_example :
  Asset.format_description (fun s => s) "My image (v2) / test?" = "My_image_:v2:_-_test.".
Proof. reflexivity. Qed.

End Descriptions.

(** ** Copies *)

Section Copies.
Import PyStr Remote TreeSpec Spec.

Lemma no_deletion_refl (w : world) : no_deletion w w.
Proof. split; [apply grows_refl | exists []; now rewrite app_nil_r]. Qed.

Lemma no_deletion_trans (w1 w2 w3 : world) :
  no_deletion w1 w2 -> no_deletion w2 w3 -> no_deletion w1 w3.
Proof.
  intros [G1 (c1 & L1 & D1)] [G2 (c2 & L2 & D2)]. split.
  - now apply grows_trans with (store w2).
  - exists (c1 ++ c2). rewrite L2, L1, <- app_assoc, deleted_app, D1, D2. auto.
Qed.

Lemma no_deletion_logged (w : world) (cs : list call) :
  forallb is_read cs = true -> no_deletion w (logged w cs).
Proof.
  intros H. split; [apply grows_refl|]. exists cs. split; [reflexivity|].
  now apply deleted_reads.
Qed.

Lemma bind_no_deletion {A B} (m : M A) (f : A -> M B) (w w' : world) (r : outcome B) :
  (forall r1 w1, m w = Some (r1, w1) -> no_deletion w w1) ->
  (forall a w1, m w = Some (Ok a, w1) -> f a w1 = Some (r, w') -> no_deletion w1 w') ->
  bind m f w = Some (r, w') ->
  no_deletion w w'.
Proof.
  intros Hm Hf H. apply bind_inv in H as [(a & w1 & H1 & H2) | (e & H1 & _)].
  - apply no_deletion_trans with w1; eauto.
  - eauto.
Qed.

Lemma exists_no_deletion (p : Asset.t) (raised : bool) (w w' : world) (r : outcome bool) :
  Asset.exists_ p raised w = Some (r, w') -> no_deletion w w'.
Proof.
  rewrite exists_run. intros H. inversion H; subst. now apply no_deletion_logged.
Qed.

Lemma is_type_quiet (p : Asset.t) (asset_type : string) (raised : bool) (w : world) :
  exists r cs,
    Asset.is_type p asset_type raised w = Some (r, logged w cs) /\
    forallb is_read cs = true /\
    (forall b, r = Ok b -> lookup (Asset.as_posix p) (store w) <> None).
Proof.
  destruct (lookup (Asset.as_posix p) (store w)) as [ty|] eqn:E.
  - rewrite (@is_type_run p asset_type ty raised w E).
    eexists _, _. split; [reflexivity|]. split; [reflexivity | discriminate].
  - rewrite (is_type_missing p asset_type raised w E).
    eexists _, _. split; [reflexivity|]. split; [reflexivity | discriminate].
Qed.

Lemma is_type_no_deletion (p : Asset.t) (ty : string) (raised : bool) (w w' : world)
      (r : outcome bool) :
  Asset.is_type p ty raised w = Some (r, w') -> no_deletion w w'.
Proof.
  destruct (is_type_quiet p ty raised w) as (r0 & cs & E & Hr & _).
  rewrite E. intros H. inversion H; subst. now apply no_deletion_logged.
Qed.

Lemma iterdir_plain_quiet (p : Asset.t) (w : world) :
  exists r cs,
    Asset.iterdir 0 p false w = Some (r, logged w cs) /\
    forallb is_read cs = true /\
    (forall l, r = Ok l ->
       l = map (fun e => Asset.new [fst e]) (children (Asset.as_posix p) (store w))).
Proof.
  unfold Asset.iterdir, bind at 1.
  assert (Hc : exists r cs,
             (match Asset.is_project p false with
              | Ok true => ret true
              | _ => Asset.is_type p "FOLDER" true
              end) w = Some (r, logged w cs) /\ forallb is_read cs = true).
  { destruct (Asset.is_project p false) as [[|]|e];
      try (destruct (is_type_quiet p "FOLDER" true w) as (r & cs & E & Hr & _);
           now exists r, cs).
    exists (Ok true), []. now rewrite logged_nil. }
  destruct Hc as (r0 & cs0 & -> & Hr0).
  destruct r0 as [b|e].
  - cbn [negb]. unfold bind. rewrite listAssets_run. unfold ret.
    rewrite logged_logged. eexists _, _. split; [reflexivity|]. split.
    + rewrite forallb_app, Hr0. reflexivity.
    + intros l Hl. inversion Hl. reflexivity.
  - eexists _, _. split; [reflexivity|]. split; [exact Hr0 | discriminate].
Qed.

Lemma iterdir_plain_no_deletion (p : Asset.t) (w w' : world) (r : outcome (list Asset.t)) :
  Asset.iterdir 0 p false w = Some (r, w') -> no_deletion w w'.
Proof.
  destruct (iterdir_plain_quiet p w) as (r0 & cs & E & Hr & _).
  rewrite E. intros H. inversion H; subst. now apply no_deletion_logged.
Qed.

Lemma mkdir_no_deletion (p : Asset.t) (parents_ exist_ok : bool) (w w' : world)
      (r : outcome Asset.t) :
  Asset.mkdir p parents_ exist_ok w = Some (r, w') -> no_deletion w w'.
Proof.
  destruct (mkdir_run p parents_ exist_ok w) as (r0 & w0 & cs & E & Hg & _ & Hl & Hd).
  rewrite E. intros H. inversion H; subst. split; [now apply extends_grows | eauto].
Qed.

Lemma copyAsset_no_deletion (a b : string) (w w' : world) (r : outcome unit) :
  copyAsset a b w = Some (r, w') -> no_deletion w w'.
Proof.
  destruct (copyAsset_run a b w) as (r0 & w0 & E & Hg & _ & Hl & _).
  rewrite E. intros H. inversion H; subst. split; [exact Hg|].
  exists [CopyAsset a b]. split; [exact Hl | reflexivity].
Qed.

Lemma copy_children_no_deletion (fuel : nat) (src dst : Asset.t) (overwrite : bool) :
  (forall a b w r w',
      Asset.copy fuel a b overwrite w = Some (r, w') -> no_deletion w w') ->
  forall assets w r w',
    for_each (fun asset =>
                rel <- Asset.relative_to asset src ;;
                Asset.copy fuel asset (Asset.truediv dst (PurePosixPath.str rel)) overwrite ;;;
                ret tt)%remote assets w = Some (r, w') ->
    no_deletion w w'.
Proof.
  intros IH assets. induction assets as [|a assets IHa]; intros w r w' H; simpl in H.
  - inversion H; subst. apply no_deletion_refl.
  - revert H. apply bind_no_deletion; [|intros u w1 _; apply IHa].
    intros r1 w1. apply bind_no_deletion.
    + intros r2 w2 H. unfold Asset.relative_to in H.
      destruct (PurePosixPath.relative_to _ _); inversion H; apply no_deletion_refl.
    + intros rel w2 _. apply bind_no_deletion.
      * intros r3 w3 H. now apply IH in H.
      * intros x w3 _ H. inversion H; subst. apply no_deletion_refl.
Qed.

Lemma copy_no_deletion (fuel : nat) :
  forall src dst overwrite w r w',
    Asset.copy fuel src dst overwrite w = Some (r, w') -> no_deletion w w'.
Proof.
  induction fuel as [|fuel IH]; intros src dst overwrite w r w' H; [discriminate|].
  cbn [Asset.copy] in H.
  revert H. apply bind_no_deletion.
  { intros r1 w1 H1. now apply exists_no_deletion in H1. }
  intros e w1 _.
  destruct (e && negb overwrite).
  { intros H. inversion H. apply no_deletion_refl. }
  apply bind_no_deletion.
  { intros r1 w2 H1. now apply mkdir_no_deletion in H1. }
  intros _ w2 _.
  apply bind_no_deletion.
  { intros r1 w3 H1. now apply is_type_no_deletion in H1. }
  intros f w3 _.
  apply bind_no_deletion.
  { intros r1 w4. destruct f.
    - apply bind_no_deletion.
      { intros r2 w5 H1. now apply mkdir_no_deletion in H1. }
      intros _ w5 _.
      apply bind_no_deletion.
      { intros r2 w6 H1. now apply iterdir_plain_no_deletion in H1. }
      intros l w6 _. apply copy_children_no_deletion. intros a b wa ra wa'. apply IH.
    - apply copyAsset_no_deletion. }
  intros _ w4 _ H. inversion H. apply no_deletion_refl.
Qed.

Lemma present_grows (s s' : list entry) (a : Asset.t) :
  grows s s' -> present s a = true -> present s' a = true.
Proof.
  unfold present. intros Hg H.
  destruct (lookup (Asset.as_posix a) s) eqn:E; [|discriminate].
  assert (Hn : lookup (Asset.as_posix a) s' <> None) by (apply Hg; congruence).
  now destruct (lookup (Asset.as_posix a) s').
Qed.

Lemma present_lookup (s : list entry) (a : Asset.t) :
  lookup (Asset.as_posix a) s <> None -> present s a = true.
Proof. unfold present. now destruct (lookup (Asset.as_posix a) s). Qed.

Lemma copy_success (fuel : nat) (src dst : Asset.t) (overwrite : bool)
      (w w' : world) (x : Asset.t) :
  Asset.copy fuel src dst overwrite w = Some (Ok x, w') ->
  x = dst /\ present (store w') src = true /\ present (store w') dst = true.
Proof.
  intros H. destruct fuel as [|fuel]; [discriminate|].
  cbn [Asset.copy] in H.
  apply bind_inv in H as [(e & w1 & _ & H) | (e & _ & Hr)]; [|discriminate Hr].
  destruct (e && negb overwrite); [discriminate|].
  apply bind_inv in H as [(x1 & w2 & _ & H) | (e1 & _ & Hr)]; [|discriminate Hr].
  apply bind_inv in H as [(f & w3 & Hf & H) | (e1 & _ & Hr)]; [|discriminate Hr].
  apply bind_inv in H as [(u & w4 & Hbody & H) | (e1 & _ & Hr)]; [|discriminate Hr].
  inversion H; subst. split; [reflexivity|].
  assert (Hsrc : present (store w3) src = true).
  { destruct (is_type_quiet src "FOLDER" false w2) as (r0 & cs & E & _ & Hex).
    unfold Asset.is_folder in Hf. rewrite E in Hf. inversion Hf; subst.
    apply present_lookup. simpl. now apply (Hex f). }
  destruct f.
  - apply bind_inv in Hbody as [(x1' & w5 & Hmk & Hbody) | (e1 & _ & Hr)];
      [|discriminate Hr].
    pose proof (@mkdir_no_deletion _ _ _ _ _ _ Hmk) as [G1 _].
    destruct (mkdir_run x true true w3) as (r0 & w0 & cs0 & E & _ & Hok & _).
    rewrite E in Hmk. inversion Hmk; subst. specialize (Hok x1' eq_refl).
    assert (G2 : grows (store w5) (store w')).
    { revert Hbody. intros Hbody.
      apply bind_inv in Hbody as [(l & w6 & Hl & Hfor) | (e1 & _ & Hr)];
        [|discriminate Hr].
      apply iterdir_plain_no_deletion in Hl as [Gl _].
      apply copy_children_no_deletion in Hfor as [Gf _];
        [| intros a b wa ra wa'; apply copy_no_deletion].
      now apply grows_trans with (store w6). }
    split; apply (@present_grows _ _ _ G2); [apply (@present_grows _ _ _ G1)|]; assumption.
  - pose proof (@copyAsset_no_deletion _ _ _ _ _ Hbody) as [G1 _].
    destruct (copyAsset_run (Asset.as_posix src) (Asset.as_posix x) w3)
      as (r0 & w0 & E & _ & Hok & _).
    rewrite E in Hbody. inversion Hbody; subst.
    split; [now apply (@present_grows _ _ _ G1) | apply present_lookup, Hok; now destruct u].
Qed.

(** X15.  [copy] never deletes: whatever its outcome, every identifier of
    the store is still there afterwards and no [deleteAsset] call was
    issued.  When it succeeds it returns the destination, and source and
    destination both exist. *)
Theorem copy_never_deletes (fuel : nat) (src dst : Asset.t) (overwrite : bool)
        (w w' : world) (r : outcome Asset.t) :
  Asset.copy fuel src dst overwrite w = Some (r, w') ->
  grows (store w) (store w') /\
  (exists cs, log w' = log w ++ cs /\ deleted cs = []) /\
  (forall x, r = Ok x ->
     x = dst /\ present (store w') src = true /\ present (store w') dst = true).
Proof.
  intros H. destruct (@copy_no_deletion fuel _ _ _ _ _ _ H) as [Hg Hl].
  split; [exact Hg|]. split; [exact Hl|].
  intros x ->. now apply (@copy_success fuel src dst overwrite w w' x).
Qed.

Lemma copy_never_deletes_witness :
  grows (store Example.w0) (store (snd Example.copied)) /\
  (exists cs, log (snd Example.copied) = log Example.w0 ++ cs /\ deleted cs = []) /\
  (forall x, fst Example.copied = Ok x ->
     x = Example.H /\
     present (store (snd Example.copied)) Example.F = true /\
     present (store (snd Example.copied)) Example.H = true).
Proof.
  apply (@copy_never_deletes 30 Example.F Example.H false Example.w0).
  vm_compute. reflexivity.
Defined.

Example copy_example :
  fst Example.copied = Ok Example.H /\
  store (snd Example.copied)
  = Example.store0 ++
    [ ("projects/p/assets/H", "FOLDER");
      ("projects/p/assets/H/a", "IMAGE");
      ("projects/p/assets/H/b", "FOLDER");
      ("projects/p/assets/H/b/c", "TABLE") ] /\
  deleted (log (snd Example.copied)) = [].
Proof. repeat split; reflexivity. Qed.

End Copies.

(** ** Folder creation *)

Section Folders.
Import PyStr Remote TreeSpec Spec.

Lemma is_absolute_true_inv (p : Asset.t) (b : bool) :
  Asset.is_absolute p true = Ok b -> Asset.is_absolute p false = Ok true.
Proof.
  unfold Asset.is_absolute.
  destruct (match nth_error (Asset.parts p) 0, nth_error (Asset.parts p) 2 with
            | Some p0, Some p2 => (p0 =? "projects") && (p2 =? "assets")
            | _, _ => false
            end); [reflexivity | discriminate].
Qed.

Lemma mkdir_shape (p : Asset.t) (parents_ exist_ok : bool) (w : world) :
  Asset.is_absolute p false = Ok true ->
  let missing := filter (fun q => negb (present (store w) q)) (Asset.parents p) in
  let to_be_created := if present (store w) p then missing else p :: missing in
  let cs1 := map (fun q => GetAsset (Asset.as_posix q)) (Asset.parents p) in
  Asset.mkdir p parents_ exist_ok w
  = if present (store w) p && negb exist_ok
    then Some (Raise (ValueError ("Asset " ++ Asset.as_posix p ++ " already exists.")),
               logged w (cs1 ++ [GetAsset (Asset.as_posix p)]))
    else if Nat.ltb 1 (length to_be_created) && negb parents_
         then Some (Raise (ValueError
                             ("Parent Asset "
                                ++ String dquote (Asset.str (last to_be_created p))
                                ++ String dquote " does not exist.")),
                    logged w (cs1 ++ [GetAsset (Asset.as_posix p);
                                      GetAsset (Asset.as_posix p)]))
         else (for_each (fun q => createAsset (Asset.as_posix q)) (rev to_be_created) ;;;
               ret p)%remote
                (logged w (cs1 ++ [GetAsset (Asset.as_posix p);
                                   GetAsset (Asset.as_posix p)])).
Proof.
  intros Habs missing tbc cs1.
  unfold Asset.mkdir, bind at 1.
  rewrite (is_absolute_raised _ Habs). cbn [lift]. unfold ret at 1.
  unfold bind at 1. rewrite missing_run. fold missing. fold cs1.
  unfold bind at 1. rewrite exists_present. simpl store.
  unfold bind at 1. rewrite logged_logged.
  destruct (present (store w) p && negb exist_ok) eqn:Eand; [reflexivity|].
  unfold bind at 1. rewrite exists_present. simpl store.
  unfold ret at 1. rewrite logged_logged, <- app_assoc. cbn [app].
  assert (Etbc : (if negb (present (store w) p) then p :: missing else missing) = tbc).
  { subst tbc. now destruct (present (store w) p). }
  rewrite Etbc.
  destruct (Nat.ltb 1 (length tbc) && negb parents_); reflexivity.
Qed.

Lemma create_all_fresh (ps : list Asset.t) :
  forall w,
    NoDup (map Asset.as_posix ps) ->
    (forall q, In q ps -> lookup (Asset.as_posix q) (store w) = None) ->
    for_each (fun q => createAsset (Asset.as_posix q)) ps w
    = Some (Ok tt,
            mkWorld (store w ++ map (fun q => (Asset.as_posix q, "FOLDER")) ps)
                    (copy_denied w)
                    (log w ++ map (fun q => CreateAsset (Asset.as_posix q)) ps)).
Proof.
  induction ps as [|p ps IH]; intros w Hnd Hfresh.
  - cbn [for_each map]. rewrite !app_nil_r. now destruct w.
  - cbn [for_each map]. unfold bind at 1.
    unfold createAsset, bind, record, get_store, put_store. cbn [store].
    rewrite (Hfresh p (or_introl eq_refl)). cbn [copy_denied log].
    inversion Hnd as [|? ? Hnotin Hnd']; subst.
    rewrite IH; [| exact Hnd' |].
    + cbn [store copy_denied log]. rewrite <- !app_assoc. reflexivity.
    + intros q Hq. cbn [store]. rewrite lookup_app, (Hfresh q (or_intror Hq)).
      cbn [lookup]. destruct (Asset.as_posix p =? Asset.as_posix q) eqn:E; [|reflexivity].
      apply String.eqb_eq in E. exfalso. apply Hnotin. rewrite E.
      now apply in_map.
Qed.

Lemma create_all_raises (ps : list Asset.t) :
  forall w e w',
    for_each (fun q => createAsset (Asset.as_posix q)) ps w = Some (Raise e, w') ->
    exists msg, e = EEException msg.
Proof.
  induction ps as [|p ps IH]; intros w e w' H; [discriminate|].
  cbn [for_each] in H.
  apply bind_inv in H as [(u & w1 & _ & H) | (e1 & H & Hr)]; [now apply (IH _ _ _ H)|].
  inversion Hr; subst e1. clear Hr.
  unfold createAsset, bind, record, get_store, put_store, raise in H. cbn [store] in H.
  destruct (lookup (Asset.as_posix p) (store w)); inversion H; eauto.
Qed.

(** X16.  When [mkdir] raises a [ValueError] (the path is not absolute, the
    asset already exists, or a parent is missing), the store is as it was:
    the calls issued are [getAsset] calls only, and none at all for a path
    that is not absolute. *)
Theorem mkdir_value_error_changes_nothing
        (p : Asset.t) (parents_ exist_ok : bool) (w w' : world) (msg : string) :
  Asset.mkdir p parents_ exist_ok w = Some (Raise (ValueError msg), w') ->
  exists cs,
    w' = logged w cs /\ forallb is_read cs = true /\
    (Asset.is_absolute p false <> Ok true -> cs = []).
Proof.
  intros H.
  destruct (Asset.is_absolute p true) as [b|e] eqn:Eabs.
  - pose proof (@is_absolute_true_inv p b Eabs) as Habs.
    rewrite (@mkdir_shape p parents_ exist_ok w Habs) in H.
    set (cs1 := map (fun q => GetAsset (Asset.as_posix q)) (Asset.parents p)) in *.
    assert (R1 : forallb is_read cs1 = true) by apply reads_getAsset.
    destruct (present (store w) p && negb exist_ok).
    { inversion H; subst. eexists. split; [reflexivity|]. split; [|congruence].
      now rewrite forallb_app, R1. }
    destruct (Nat.ltb 1 _ && negb parents_).
    { inversion H; subst. eexists. split; [reflexivity|]. split; [|congruence].
      now rewrite forallb_app, R1. }
    apply bind_inv in H as [(u & w1 & _ & H) | (e1 & H & Hr)]; [discriminate H|].
    inversion Hr; subst e1.
    apply create_all_raises in H as [m H]. discriminate H.
  - unfold Asset.mkdir, bind at 1 in H. rewrite Eabs in H. cbn [lift] in H.
    inversion H; subst. exists []. rewrite logged_nil. auto.
Qed.

Lemma mkdir_value_error_changes_nothing_witness :
  exists cs,
    Asset.mkdir Example.F false false Example.w0
    = Some (Raise (ValueError "Asset projects/p/assets/F already exists."),
            logged Example.w0 cs) /\
    forallb is_read cs = true.
Proof.
  destruct (@mkdir_value_error_changes_nothing
              Example.F false false Example.w0
              (logged Example.w0 [GetAsset "projects/p/assets/F"])
              "Asset projects/p/assets/F already exists.")
    as (cs & E & Hr & _).
  - vm_compute. reflexivity.
  - exists cs. split; [|exact Hr]. rewrite <- E. vm_compute. reflexivity.
Defined.

Lemma parents_below (args : list string) :
  Asset.is_absolute (Asset.new args) false = Ok true ->
  normal (Asset.new args) /\
  forall q, In q (Asset.parents (Asset.new args)) ->
    normal q /\ depth q < depth (Asset.new args).
Proof.
  intros Habs.
  destruct (new_wf args) as (names & Hv & Hcase).
  unfold Asset.is_absolute, Asset.parts, PurePosixPath.parts in Habs.
  unfold normal, depth, Asset.parents, PurePosixPath.parents, Asset.parts, PurePosixPath.parts.
  destruct (Asset._path (Asset.new args)) as [root parts]. simpl in *.
  assert (Hroot : root = "").
  { destruct Hcase as [[Hr _] | [[_ Hp] | [_ Hp]]]; auto; subst parts;
      simpl in Habs; destruct names as [|? [|? ?]]; simpl in Habs; discriminate. }
  subst root. cbn [String.eqb].
  assert (Hparts : forallb valid_name parts = true).
  { destruct Hcase as [[_ Hp] | [[Hr _] | [Hr _]]]; [now subst | discriminate Hr
                                                     | discriminate Hr]. }
  split; [split; [reflexivity | exact Hparts]|].
  intros q Hq. apply in_map_iff in Hq as (x & <- & Hx).
  apply filter_In in Hx as [Hx _].
  apply in_map_iff in Hx as (idx & <- & Hidx). apply in_seq in Hidx.
  rewrite of_path_names by now apply forallb_firstn.
  cbn [Asset._path PurePosixPath._parts PurePosixPath._root].
  split; [split; [reflexivity | now apply forallb_firstn]|].
  rewrite firstn_length_le by lia. lia.
Qed.

Lemma as_posix_inj (a b : Asset.t) :
  normal a -> normal b -> Asset.as_posix a = Asset.as_posix b -> a = b.
Proof.
  intros Ha Hb E. rewrite <- (@new_str_normal a Ha), <- (@new_str_normal b Hb).
  unfold Asset.str. now rewrite E.
Qed.

Lemma sorted_nodup (l : list Asset.t) :
  StronglySorted (fun a b => depth b < depth a) l ->
  (forall q, In q l -> normal q) ->
  NoDup (map Asset.as_posix l).
Proof.
  induction 1 as [|a l Hs IH Hall]; intros Hn; cbn [map]; constructor.
  - intros Hin. apply in_map_iff in Hin as (b & E & Hb).
    rewrite Forall_forall in Hall. specialize (Hall b Hb).
    assert (b = a) by (apply as_posix_inj; auto using in_eq, in_cons).
    subst. lia.
  - apply IH. intros q Hq. apply Hn. now right.
Qed.

Lemma StronglySorted_rev {A} (R : A -> A -> Prop) (l : list A) :
  StronglySorted R l -> StronglySorted (fun x y => R y x) (rev l).
Proof.
  induction 1 as [|a l Hs IH Hall]; cbn [rev]; [constructor|].
  apply StronglySorted_app; [exact IH | repeat constructor |].
  intros x y Hx [<- | []]. rewrite Forall_forall in Hall. apply Hall.
  now apply in_rev.
Qed.

Lemma created_app (a b : list call) : created (a ++ b) = created a ++ created b.
Proof.
  induction a as [|c a IH]; [reflexivity|].
  destruct c; simpl; now rewrite IH.
Qed.

Lemma created_reads (cs : list call) : forallb is_read cs = true -> created cs = [].
Proof.
  induction cs as [|c cs IH]; [reflexivity|].
  destruct c; simpl; intros H; try discriminate; now apply IH.
Qed.

Lemma created_map (ps : list Asset.t) :
  created (map (fun q => CreateAsset (Asset.as_posix q)) ps) = map Asset.as_posix ps.
Proof. induction ps as [|p ps IH]; [reflexivity|]. simpl. now rewrite IH. Qed.

Lemma deleted_creates (ps : list Asset.t) :
  deleted (map (fun q => CreateAsset (Asset.as_posix q)) ps) = [].
Proof. induction ps as [|p ps IH]; [reflexivity|]. exact IH. Qed.

Lemma lookup_In (k v : string) (s : list entry) : In (k, v) s -> lookup k s <> None.
Proof.
  induction s as [|[k' v'] s IH]; intros H; [destruct H|].
  cbn [lookup]. destruct (k' =? k) eqn:E; [discriminate|].
  destruct H as [H | H]; [|now apply IH].
  inversion H; subst. now rewrite String.eqb_refl in E.
Qed.

Lemma to_be_created_facts (args : list string) (w : world) :
  let p := Asset.new args in
  let missing := filter (fun q => negb (present (store w) q)) (Asset.parents p) in
  let to_be_created := if present (store w) p then missing else p :: missing in
  Asset.is_absolute p false = Ok true ->
  StronglySorted (fun a b => depth b < depth a) to_be_created /\
  (forall q, In q to_be_created -> normal q /\ present (store w) q = false) /\
  (forall q, In q (p :: Asset.parents p) -> present (store w) q = false ->
             In q to_be_created).
Proof.
  intros p missing tbc Habs.
  destruct (@parents_below args Habs) as [Hnp Hpar]. fold p in Hnp, Hpar.
  pose proof (@parents_deepest_first args Habs) as Hs. fold p in Hs.
  assert (Hsm : StronglySorted (fun a b => depth b < depth a) missing)
    by now apply StronglySorted_filter.
  assert (Hm : forall q, In q missing -> normal q /\ present (store w) q = false).
  { intros q Hq. apply filter_In in Hq as [Hq Hpq]. split; [now apply Hpar|].
    now apply negb_true_iff. }
  subst tbc. destruct (present (store w) p) eqn:Ep.
  - split; [exact Hsm|]. split; [exact Hm|].
    intros q [<- | Hq] Hpq; [congruence|].
    apply filter_In. split; [exact Hq | now rewrite Hpq].
  - split; [|split].
    + constructor; [exact Hsm|]. apply Forall_forall. intros q Hq.
      apply filter_In in Hq as [Hq _]. now apply Hpar.
    + intros q [<- | Hq]; auto.
    + intros q [<- | Hq] Hpq; [now left|]. right.
      apply filter_In. split; [exact Hq | now rewrite Hpq].
Qed.

Lemma mkdir_parents_run (args : list string) (w : world) :
  let p := Asset.new args in
  let missing := filter (fun q => negb (present (store w) q)) (Asset.parents p) in
  let to_be_created := if present (store w) p then missing else p :: missing in
  Asset.is_absolute p false = Ok true ->
  Asset.mkdir p true true w
  = Some (Ok p,
          mkWorld (store w ++ map (fun q => (Asset.as_posix q, "FOLDER")) (rev to_be_created))
                  (copy_denied w)
                  (log w ++ (map (fun q => GetAsset (Asset.as_posix q)) (Asset.parents p)
                               ++ [GetAsset (Asset.as_posix p); GetAsset (Asset.as_posix p)])
                         ++ map (fun q => CreateAsset (Asset.as_posix q))
                                (rev to_be_created))).
Proof.
  intros p missing tbc Habs.
  destruct (@to_be_created_facts args w Habs) as (Hs & Hall & _).
  fold p in Hs, Hall. fold missing in Hs, Hall. fold tbc in Hs, Hall.
  rewrite (@mkdir_shape p true true w Habs). fold missing. fold tbc.
  rewrite !andb_false_r. unfold bind at 1.
  rewrite create_all_fresh.
  - unfold ret, logged. cbn [store copy_denied log]. now rewrite <- app_assoc.
  - rewrite map_rev. apply NoDup_rev. apply sorted_nodup; [exact Hs|].
    intros q Hq. now apply Hall.
  - intros q Hq. apply in_rev in Hq. destruct (Hall q Hq) as [_ Hpq].
    unfold present in Hpq. cbn [store logged].
    now destruct (lookup (Asset.as_posix q) (store w)).
Qed.

Lemma present_after_mkdir (args : list string) (w : world) :
  let p := Asset.new args in
  let missing := filter (fun q => negb (present (store w) q)) (Asset.parents p) in
  let to_be_created := if present (store w) p then missing else p :: missing in
  Asset.is_absolute p false = Ok true ->
  forall q, In q (p :: Asset.parents p) ->
    present (store w ++ map (fun q => (Asset.as_posix q, "FOLDER")) (rev to_be_created)) q
    = true.
Proof.
  intros p missing tbc Habs q Hq.
  destruct (@to_be_created_facts args w Habs) as (_ & _ & Hin).
  fold p in Hin. fold missing in Hin. fold tbc in Hin.
  apply present_lookup. rewrite lookup_app.
  destruct (lookup (Asset.as_posix q) (store w)) eqn:E; [discriminate|].
  apply lookup_In with "FOLDER".
  apply (in_map (fun q => (Asset.as_posix q, "FOLDER"))), in_rev.
  rewrite rev_involutive. apply Hin; [exact Hq|]. unfold present. now rewrite E.
Qed.

(** X17.  On an absolute path, [mkdir(parents=True, exist_ok=True)] always
    succeeds.  It creates, as folders appended to the store, exactly the
    path and ancestors that did not exist, the shallowest first, so that a
    parent is created before its child, and deletes nothing; afterwards the
    path and all its ancestors below the project root exist. *)
Theorem mkdir_with_parents_creates_what_is_missing (args : list string) (w : world) :
  let p := Asset.new args in
  let missing := filter (fun q => negb (present (store w) q)) (Asset.parents p) in
  let to_be_created := if present (store w) p then missing else p :: missing in
  Asset.is_absolute p false = Ok true ->
  exists w' cs,
    Asset.mkdir p true true w = Some (Ok p, w') /\
    store w' = store w ++ map (fun q => (Asset.as_posix q, "FOLDER")) (rev to_be_created) /\
    log w' = log w ++ cs /\
    created cs = map Asset.as_posix (rev to_be_created) /\
    deleted cs = [] /\
    StronglySorted (fun a b => depth a < depth b) (rev to_be_created) /\
    present (store w') p = true /\
    (forall q, In q (Asset.parents p) -> present (store w') q = true).
Proof.
  intros p missing tbc Habs.
  pose proof (@mkdir_parents_run args w Habs) as E.
  fold p in E. fold missing in E. fold tbc in E.
  destruct (@to_be_created_facts args w Habs) as (Hs & _ & _).
  fold p in Hs. fold missing in Hs. fold tbc in Hs.
  pose proof (@present_after_mkdir args w Habs) as Hp.
  fold p in Hp. fold missing in Hp. fold tbc in Hp.
  eexists _, _. split; [exact E|]. cbn [store log].
  split; [reflexivity|]. split; [reflexivity|].
  split; [|split; [|split; [|split]]].
  - rewrite created_app, created_map, created_reads; [reflexivity|].
    rewrite forallb_app, reads_getAsset. reflexivity.
  - rewrite deleted_app, deleted_creates, deleted_reads; [reflexivity|].
    rewrite forallb_app, reads_getAsset. reflexivity.
  - now apply StronglySorted_rev in Hs.
  - apply Hp. now left.
  - intros q Hq. apply Hp. now right.
Qed.

Lemma mkdir_with_parents_creates_what_is_missing_witness :
  exists w' cs,
    Asset.mkdir (Asset.new ["projects/p/assets/x/y/z"]) true true Example.w0
    = Some (Ok (Asset.new ["projects/p/assets/x/y/z"]), w') /\
    store w' = store Example.w0 ++ [ ("projects/p/assets/x", "FOLDER");
                                     ("projects/p/assets/x/y", "FOLDER");
                                     ("projects/p/assets/x/y/z", "FOLDER") ] /\
    log w' = log Example.w0 ++ cs /\
    created cs = ["projects/p/assets/x"; "projects/p/assets/x/y";
                  "projects/p/assets/x/y/z"] /\
    deleted cs = [].
Proof.
  destruct (@mkdir_with_parents_creates_what_is_missing
              ["projects/p/assets/x/y/z"] Example.w0 eq_refl)
    as (w' & cs & E & Hst & Hl & Hc & Hd & _).
  exists w', cs. repeat split; assumption.
Defined.

(** X18.  [mkdir(parents=True, exist_ok=True)] is idempotent on an absolute
    path: a second call right after the first succeeds as well, creates
    nothing and leaves the store as the first call left it. *)
Theorem mkdir_twice_creates_once (args : list string) (w : world) :
  let p := Asset.new args in
  Asset.is_absolute p false = Ok true ->
  exists w' cs,
    Asset.mkdir p true true w = Some (Ok p, w') /\
    Asset.mkdir p true true w' = Some (Ok p, logged w' cs) /\
    forallb is_read cs = true.
Proof.
  intros p Habs.
  pose proof (@mkdir_parents_run args w Habs) as E. fold p in E.
  pose proof (@present_after_mkdir args w Habs) as Hp. fold p in Hp.
  match type of E with
  | _ = Some (_, ?w0) => set (w1 := w0) in *
  end.
  assert (Hp1 : forall q, In q (p :: Asset.parents p) -> present (store w1) q = true)
    by exact Hp.
  clearbody w1. clear Hp.
  pose proof (@mkdir_parents_run args w1 Habs) as E2. fold p in E2.
  rewrite (Hp1 p (or_introl eq_refl)) in E2.
  rewrite filter_none in E2.
  2:{ intros q Hq. rewrite (Hp1 q (or_intror Hq)). reflexivity. }
  cbn [rev map] in E2. rewrite !app_nil_r in E2.
  eexists _, _. split; [exact E|]. split; [exact E2|].
  rewrite forallb_app, reads_getAsset. reflexivity.
Qed.

Lemma mkdir_twice_creates_once_witness :
  exists w' cs,
    Asset.mkdir (Asset.new ["projects/p/assets/x/y/z"]) true true Example.w0
    = Some (Ok (Asset.new ["projects/p/assets/x/y/z"]), w') /\
    Asset.mkdir (Asset.new ["projects/p/assets/x/y/z"]) true true w'
    = Some (Ok (Asset.new ["projects/p/assets/x/y/z"]), logged w' cs) /\
    forallb is_read cs = true.
Proof.
  apply (@mkdir_twice_creates_once ["projects/p/assets/x/y/z"] Example.w0).
  reflexivity.
Defined.

End Folders.

(** ** Removing one folder *)

Section PlainRemoval.
Import PyStr Remote TreeSpec Spec.

(** X19.  Unless the asset is a folder of the store, [rmdir] raises a
    [ValueError] in every mode, recursive or not, dry or not, after
    [getAsset] calls only: nothing is listed and nothing is deleted. *)
Theorem rmdir_requires_a_folder
        (fuel : nat) (p : Asset.t) (recursive : bool) (dry_run : option bool) (w : world) :
  lookup (Asset.as_posix p) (store w) <> Some "FOLDER" ->
  exists msg cs,
    Asset.rmdir fuel p recursive dry_run w = Some (Raise (ValueError msg), logged w cs) /\
    forallb is_read cs = true /\
    ~ In (ListAssets (Asset.as_posix p)) cs.
Proof.
  intros H. unfold Asset.rmdir, bind at 1.
  destruct (lookup (Asset.as_posix p) (store w)) as [ty|] eqn:E.
  - rewrite (@is_type_run p "FOLDER" ty true w E).
    destruct (ty =? "FOLDER") eqn:Ety.
    + apply String.eqb_eq in Ety. congruence.
    + eexists _, _. split; [reflexivity|]. split; [reflexivity|].
      cbn [In]. intros [F | [F | [F | []]]]; discriminate F.
  - rewrite (is_type_missing p "FOLDER" true w E).
    eexists _, _. split; [reflexivity|]. split; [reflexivity|].
    cbn [In]. intros [F | []]; discriminate F.
Qed.

Lemma rmdir_requires_a_folder_witness :
  exists msg cs,
    Asset.rmdir 30 Example.G true (Some false) Example.w0
    = Some (Raise (ValueError msg), logged Example.w0 cs) /\
    forallb is_read cs = true /\
    ~ In (ListAssets (Asset.as_posix Example.G)) cs.
Proof.
  apply (@rmdir_requires_a_folder 30 Example.G true (Some false) Example.w0).
  discriminate.
Defined.

(** X20.  Without [recursive], [rmdir] is live by default: on a folder it
    issues, after three [getAsset] calls, one [deleteAsset] call for the
    folder itself, whatever the recursion budget.  An empty folder is
    removed and its identifier returned; a folder that still has children
    is refused by the store, which stays as it was.  With [dry_run=True]
    the identifier is returned and nothing is deleted. *)
Theorem rmdir_plain_is_live (fuel : nat) (p : Asset.t) (w : world) :
  lookup (Asset.as_posix p) (store w) = Some "FOLDER" ->
  let id := Asset.as_posix p in
  let reads := [GetAsset id; GetAsset id; GetAsset id] in
  (children id (store w) = [] ->
   Asset.rmdir fuel p false None w
   = Some (Ok [Asset.str p],
           mkWorld (remove id (store w)) (copy_denied w)
                   (log w ++ reads ++ [DeleteAsset id]))) /\
  (children id (store w) <> [] ->
   Asset.rmdir fuel p false None w
   = Some (Raise (EEException ("Asset " ++ id ++ " is not empty.")),
           logged w (reads ++ [DeleteAsset id]))) /\
  Asset.rmdir fuel p false (Some true) w = Some (Ok [Asset.str p], logged w reads).
Proof.
  intros H id reads.
  assert (E : forall dry,
             Asset.rmdir fuel p false dry w
             = Asset.rmdir_delete (match dry with Some d => d | None => false end)
                                  [] p (logged w reads)).
  { intros dry. unfold Asset.rmdir, bind at 1.
    rewrite (@is_type_run p "FOLDER" "FOLDER" true w H). cbn [String.eqb Ascii.eqb Bool.eqb].
    reflexivity. }
  split; [|split].
  - intros Hc. rewrite E.
    unfold Asset.rmdir_delete, bind, deleteAsset, bind, record, get_store, put_store, ret.
    cbn [store logged log copy_denied app].
    unfold Asset.str. subst id. rewrite H, Hc.
    cbn [String.eqb Ascii.eqb Bool.eqb length Nat.eqb negb andb].
    now rewrite <- app_assoc.
  - intros Hc. rewrite E.
    unfold Asset.rmdir_delete, bind, deleteAsset, bind, record, get_store, put_store, raise.
    cbn [store logged log copy_denied app].
    unfold Asset.str. subst id. rewrite H.
    destruct (children (Asset.as_posix p) (store w)) as [|c cs]; [congruence|].
    cbn [String.eqb Ascii.eqb Bool.eqb length Nat.eqb negb andb].
    unfold logged. cbn [store log copy_denied]. now rewrite <- app_assoc.
  - rewrite E. reflexivity.
Qed.

Lemma rmdir_plain_is_live_witness :
  Asset.rmdir 0 (Asset.new ["projects/p/assets/F/b"]) false None Example.w0
  = Some (Raise (EEException "Asset projects/p/assets/F/b is not empty."),
          logged Example.w0 [GetAsset "projects/p/assets/F/b";
                             GetAsset "projects/p/assets/F/b";
                             GetAsset "projects/p/assets/F/b";
                             DeleteAsset "projects/p/assets/F/b"]) /\
  Asset.rmdir 0 (Asset.new ["projects/p/assets/F/b"]) false (Some true) Example.w0
  = Some (Ok ["projects/p/assets/F/b"],
          logged Example.w0 [GetAsset "projects/p/assets/F/b";
                             GetAsset "projects/p/assets/F/b";
                             GetAsset "projects/p/assets/F/b"]).
Proof.
  destruct (@rmdir_plain_is_live 0 (Asset.new ["projects/p/assets/F/b"]) Example.w0 eq_refl)
    as (_ & Hfull & Hdry).
  split; [apply Hfull; discriminate | exact Hdry].
Defined.

End PlainRemoval.

(** ** What a listing returns *)

Section Descendants.
Import PyStr Remote TreeSpec Spec.

Lemma prefix_relative (a p : Asset.t) :
  normal a -> normal p ->
  PurePosixPath.is_prefix (Asset.parts p) (Asset.parts a) = true ->
  Asset.is_relative_to a (Asset.str p) = true.
Proof.
  intros [Ha _] Hp Hpre.
  unfold Asset.is_relative_to, Asset.str, Asset.as_posix, PurePosixPath.as_posix.
  rewrite (@make_str _ (@normal_wf p Hp)). destruct Hp as [Hp _].
  unfold PurePosixPath.is_relative_to, PurePosixPath.relative_to, PurePosixPath.abs_parts.
  rewrite Ha, Hp. cbn [String.eqb negb].
  unfold Asset.parts, PurePosixPath.parts in Hpre. rewrite Hpre.
  now destruct (Nat.eqb _ 0).
Qed.

Lemma child_below (P : list string) (f id : string) :
  is_child f id = true ->
  f <> "" -> head_not_sep f ->
  PurePosixPath.is_prefix P (filter PurePosixPath.keep_name (split f)) = true ->
  id <> "" /\ head_not_sep id /\
  PurePosixPath.is_prefix P (filter PurePosixPath.keep_name (split id)) = true.
Proof.
  intros Hch Hne Hh Hpre. apply is_child_inv in Hch as (name & -> & _ & _).
  destruct f as [|c f]; [congruence|]. split; [discriminate|]. split; [exact Hh|].
  rewrite split_append_any, filter_app.
  apply is_prefix_trans with (filter PurePosixPath.keep_name (split (String c f)));
    [exact Hpre | apply is_prefix_app].
Qed.

Lemma reachable_below (P : list string) (s : list entry) (f id : string) :
  Reachable s f id ->
  f <> "" -> head_not_sep f ->
  PurePosixPath.is_prefix P (filter PurePosixPath.keep_name (split f)) = true ->
  id <> "" /\ head_not_sep id /\
  PurePosixPath.is_prefix P (filter PurePosixPath.keep_name (split id)) = true.
Proof.
  induction 1 as [f id ty Hin | f mid id Hin _ IH]; intros Hne Hh Hpre.
  - apply children_In in Hin as [_ Hch]. now apply (@child_below P f id).
  - apply children_In in Hin as [_ Hch].
    destruct (@child_below P f mid Hch Hne Hh Hpre) as (H1 & H2 & H3).
    now apply IH.
Qed.

Lemma new_below (p : Asset.t) (id : string) :
  normal p ->
  id <> "" -> head_not_sep id ->
  PurePosixPath.is_prefix (Asset.parts p) (filter PurePosixPath.keep_name (split id)) = true ->
  normal (Asset.new [id]) /\
  PurePosixPath.is_prefix (Asset.parts p) (Asset.parts (Asset.new [id])) = true /\
  Asset.is_relative_to (Asset.new [id]) (Asset.str p) = true.
Proof.
  intros Hp Hne Hh Hpre.
  assert (E : Asset.new [id]
              = Asset.mk (PurePosixPath.mk "" (filter PurePosixPath.keep_name (split id)))).
  { unfold Asset.new. now rewrite (@make_plain id Hne Hh). }
  assert (Hn : normal (Asset.new [id])).
  { rewrite E. split; [reflexivity | apply filter_keep_is_valid]. }
  assert (Hpre' : PurePosixPath.is_prefix (Asset.parts p) (Asset.parts (Asset.new [id]))
                  = true) by (now rewrite E).
  split; [exact Hn|]. split; [exact Hpre'|]. now apply prefix_relative.
Qed.

(** X21.  The recursive listing of a folder in normal form never leaves
    the folder: every asset it returns is in normal form, has the folder's
    components as a prefix of its own and is relative to the folder. *)
Theorem iterdir_stays_below (w : world) (p : Asset.t) (fuel : nat) :
  normal p ->
  Asset.is_project p false = Ok true \/
  lookup (Asset.as_posix p) (store w) = Some "FOLDER" ->
  max_id_length (store w) < fuel ->
  exists l cs,
    Asset.iterdir fuel p true w = Some (Ok l, logged w cs) /\
    forall a, In a l ->
      normal a /\
      PurePosixPath.is_prefix (Asset.parts p) (Asset.parts a) = true /\
      Asset.is_relative_to a (Asset.str p) = true.
Proof.
  intros Hn Hp Hfuel.
  destruct (@iterdir_recursive_run w p fuel Hp Hfuel) as (l & cs & E & _ & _ & _ & Hsound).
  exists l, cs. split; [exact E|].
  intros a Ha. destruct (Hsound a Ha) as (id & -> & Hreach).
  destruct (@as_posix_normal_head p Hn) as [Hh Hne].
  destruct (@reachable_below (Asset.parts p) _ _ _ Hreach Hne Hh) as (H1 & H2 & H3).
  { rewrite (@split_as_posix_normal p Hn). apply is_prefix_refl. }
  now apply new_below.
Qed.

Lemma iterdir_stays_below_witness :
  exists l cs,
    Asset.iterdir 30 Example.F true Example.w0 = Some (Ok l, logged Example.w0 cs) /\
    forall a, In a l ->
      normal a /\
      PurePosixPath.is_prefix (Asset.parts Example.F) (Asset.parts a) = true /\
      Asset.is_relative_to a (Asset.str Example.F) = true.
Proof.
  apply (@iterdir_stays_below Example.w0 Example.F 30).
  - split; reflexivity.
  - right. reflexivity.
  - vm_compute. lia.
Defined.

Lemma iterdir_plain_listing (w : world) (p : Asset.t) :
  Asset.is_project p false = Ok true \/
  lookup (Asset.as_posix p) (store w) = Some "FOLDER" ->
  exists cs,
    Asset.iterdir 0 p false w
    = Some (Ok (map (fun e => Asset.new [fst e]) (children (Asset.as_posix p) (store w))),
            logged w cs) /\
    forallb is_read cs = true.
Proof.
  intros Hp. unfold Asset.iterdir, bind at 1.
  destruct (@iterdir_check_run p w Hp) as (cs & -> & Hr).
  cbn [negb]. unfold bind. rewrite listAssets_run. unfold ret.
  rewrite logged_logged. eexists. split; [reflexivity|].
  rewrite forallb_app, Hr. reflexivity.
Qed.

Lemma plain_within_recursive (w : world) (p : Asset.t) (l2 : list Asset.t) :
  (forall id, Reachable (store w) (Asset.as_posix p) id -> In (Asset.new [id]) l2) ->
  incl (map (fun e => Asset.new [fst e]) (children (Asset.as_posix p) (store w))) l2.
Proof.
  intros Hc a Ha. apply in_map_iff in Ha as ([id ty] & <- & He).
  apply Hc. now apply Reachable_child with ty.
Qed.

(** X22.  On a folder, the plain listing returns the children of the
    folder in the store's order, and each of them is also returned by the
    recursive listing; both runs only read. *)
Theorem iterdir_plain_within_recursive (w : world) (p : Asset.t) (fuel : nat) :
  Asset.is_project p false = Ok true \/
  lookup (Asset.as_posix p) (store w) = Some "FOLDER" ->
  max_id_length (store w) < fuel ->
  exists l1 l2 cs1 cs2,
    Asset.iterdir 0 p false w = Some (Ok l1, logged w cs1) /\
    Asset.iterdir fuel p true w = Some (Ok l2, logged w cs2) /\
    forallb is_read cs1 = true /\ forallb is_read cs2 = true /\
    l1 = map (fun e => Asset.new [fst e]) (children (Asset.as_posix p) (store w)) /\
    incl l1 l2.
Proof.
  intros Hp Hfuel.
  destruct (@iterdir_plain_listing w p Hp) as (cs1 & E1 & R1).
  destruct (@iterdir_recursive_run w p fuel Hp Hfuel) as (l2 & cs2 & E2 & R2 & _ & Hc & _).
  eexists _, l2, cs1, cs2. split; [exact E1|]. split; [exact E2|].
  split; [exact R1|]. split; [exact R2|]. split; [reflexivity|].
  now apply plain_within_recursive.
Qed.

Lemma iterdir_plain_within_recursive_witness :
  exists l1 l2 cs1 cs2,
    Asset.iterdir 0 Example.F false Example.w0 = Some (Ok l1, logged Example.w0 cs1) /\
    Asset.iterdir 30 Example.F true Example.w0 = Some (Ok l2, logged Example.w0 cs2) /\
    forallb is_read cs1 = true /\ forallb is_read cs2 = true /\
    l1 = map (fun e => Asset.new [fst e])
             (children (Asset.as_posix Example.F) (store Example.w0)) /\
    incl l1 l2.
Proof.
  apply (@iterdir_plain_within_recursive Example.w0 Example.F 30).
  - right. reflexivity.
  - vm_compute. lia.
Defined.

End Descendants.

(** ** Patterns over listings *)

Section Globbing.
Import PyStr Remote TreeSpec Spec.

Lemma filter_m_lift_inv (f : Asset.t -> outcome bool) (l : list Asset.t) :
  forall w r w',
    filter_m (fun a => lift (f a)) l w = Some (r, w') ->
    w' = w /\
    (forall l', r = Ok l' ->
       (forall a, In a l -> exists b, f a = Ok b) /\
       l' = filter (fun a => match f a with Ok true => true | _ => false end) l) /\
    (forall e, r = Raise e -> exists a, In a l /\ f a = Raise e).
Proof.
  induction l as [|x l IH]; intros w r w' H.
  - inversion H; subst. split; [reflexivity|]. split.
    + intros l' E. inversion E. split; [intros a []|reflexivity].
    + intros e E. discriminate E.
  - cbn [filter_m] in H.
    apply bind_inv in H as [(b & w1 & Hx & H) | (e & Hx & Hr)].
    + destruct (f x) as [b'|e'] eqn:Ex; cbn [lift] in Hx; inversion Hx; subst b' w1.
      apply bind_inv in H as [(rest & w2 & Hrest & H) | (e & Hrest & Hr)].
      * destruct (IH _ _ _ Hrest) as (-> & Hok & _).
        destruct (Hok rest eq_refl) as [Hall ->].
        inversion H; subst. split; [reflexivity|]. split.
        -- intros l' E. inversion E; subst. split.
           ++ intros a [<- | Ha]; eauto.
           ++ cbn [filter]. rewrite Ex. now destruct b.
        -- intros e E. discriminate E.
      * destruct (IH _ _ _ Hrest) as (-> & _ & Herr).
        subst r. split; [reflexivity|]. split; [intros l' E; discriminate E|].
        intros e' E. inversion E; subst.
        destruct (Herr e' eq_refl) as (a & Ha & Ea). exists a. split; [now right | exact Ea].
    + destruct (f x) as [b'|e'] eqn:Ex; cbn [lift] in Hx; inversion Hx; subst.
      split; [reflexivity|]. split; [intros l' E; discriminate E|].
      intros e' E. inversion E; subst. exists x. split; [now left | exact Ex].
Qed.

Lemma filter_m_lift_total (f : Asset.t -> outcome bool) (l : list Asset.t) (w : world) :
  exists r, filter_m (fun a => lift (f a)) l w = Some (r, w).
Proof.
  induction l as [|x l [r IH]]; [now exists (Ok [])|].
  cbn [filter_m]. unfold bind at 1.
  destruct (f x) as [b|e]; cbn [lift ret raise]; [|eauto].
  unfold bind at 1. rewrite IH. destruct r; unfold ret; eauto.
Qed.

(** X23.  [glob] and [rglob] only read.  What [glob] returns are children
    of the folder that match the pattern, in the store's order; and
    whenever [rglob] succeeds, [glob] succeeds too and each of its results
    is among those of [rglob].  This holds for any name matcher
    standing for [fnmatch.fnmatchcase]. *)
Theorem glob_within_rglob (fnmatchcase : string -> string -> bool)
        (w : world) (p : Asset.t) (fuel : nat) (pattern : string) :
  Asset.is_project p false = Ok true \/
  lookup (Asset.as_posix p) (store w) = Some "FOLDER" ->
  max_id_length (store w) < fuel ->
  exists r1 r2 cs1 cs2,
    Asset.glob fnmatchcase p pattern w = Some (r1, logged w cs1) /\
    Asset.rglob fnmatchcase fuel p pattern w = Some (r2, logged w cs2) /\
    forallb is_read cs1 = true /\ forallb is_read cs2 = true /\
    (forall l1, r1 = Ok l1 ->
       l1 = filter (fun a => match Asset.match_ fnmatchcase a pattern with
                             | Ok true => true
                             | _ => false
                             end)
                   (map (fun e => Asset.new [fst e])
                        (children (Asset.as_posix p) (store w)))) /\
    (forall l2, r2 = Ok l2 -> exists l1, r1 = Ok l1 /\ incl l1 l2).
Proof.
  intros Hp Hfuel.
  destruct (@iterdir_plain_listing w p Hp) as (cs1 & E1 & R1).
  destruct (@iterdir_recursive_run w p fuel Hp Hfuel) as (L2 & cs2 & E2 & R2 & _ & Hc & _).
  set (L1 := map (fun e => Asset.new [fst e]) (children (Asset.as_posix p) (store w))) in *.
  pose proof (@plain_within_recursive w p L2 Hc) as Hincl. fold L1 in Hincl.
  set (f := fun a => Asset.match_ fnmatchcase a pattern).
  destruct (filter_m_lift_total f L1 (logged w cs1)) as [r1 F1].
  destruct (filter_m_lift_total f L2 (logged w cs2)) as [r2 F2].
  exists r1, r2, cs1, cs2.
  assert (G1 : Asset.glob fnmatchcase p pattern w = Some (r1, logged w cs1)).
  { unfold Asset.glob, bind. rewrite E1. exact F1. }
  assert (G2 : Asset.rglob fnmatchcase fuel p pattern w = Some (r2, logged w cs2)).
  { unfold Asset.rglob, bind. rewrite E2. exact F2. }
  split; [exact G1|]. split; [exact G2|]. split; [exact R1|]. split; [exact R2|].
  destruct (filter_m_lift_inv f L1 _ F1) as (_ & Hok1 & Herr1).
  destruct (filter_m_lift_inv f L2 _ F2) as (_ & Hok2 & _).
  split.
  - intros l1 ->. now destruct (Hok1 l1 eq_refl) as [_ ->].
  - intros l2 ->. destruct (Hok2 l2 eq_refl) as [Hall ->].
    destruct r1 as [l1|e].
    + exists l1. split; [reflexivity|].
      destruct (Hok1 l1 eq_refl) as [_ ->].
      intros a Ha. apply filter_In in Ha as [Ha Hm]. apply filter_In. auto.
    + destruct (Herr1 e eq_refl) as (a & Ha & Ea).
      destruct (Hall a (Hincl a Ha)) as [b Eb]. unfold f in Ea, Eb. congruence.
Qed.

Lemma glob_within_rglob_witness :
  exists r1 r2 cs1 cs2,
    Asset.glob String.eqb Example.F "b" Example.w0 = Some (r1, logged Example.w0 cs1) /\
    Asset.rglob String.eqb 30 Example.F "b" Example.w0 = Some (r2, logged Example.w0 cs2) /\
    forallb is_read cs1 = true /\ forallb is_read cs2 = true /\
    (forall l1, r1 = Ok l1 ->
       l1 = filter (fun a => match Asset.match_ String.eqb a "b" with
                             | Ok true => true
                             | _ => false
                             end)
                   (map (fun e => Asset.new [fst e])
                        (children (Asset.as_posix Example.F) (store Example.w0)))) /\
    (forall l2, r2 = Ok l2 -> exists l1, r1 = Ok l1 /\ incl l1 l2).
Proof.
  apply (@glob_within_rglob String.eqb Example.w0 Example.F 30 "b").
  - right. reflexivity.
  - vm_compute. lia.
Defined.

(** X24.  An empty pattern is only noticed when there is something to
    match: [glob] with the empty pattern returns the empty list on a folder
    without children and raises [ValueError] on any other folder, whatever
    the name matcher. *)
Theorem glob_empty_pattern (fnmatchcase : string -> string -> bool)
        (w : world) (p : Asset.t) :
  Asset.is_project p false = Ok true \/
  lookup (Asset.as_posix p) (store w) = Some "FOLDER" ->
  exists cs,
    Asset.glob fnmatchcase p "" w
    = Some (match children (Asset.as_posix p) (store w) with
            | [] => Ok []
            | _ :: _ => Raise (ValueError "empty pattern")
            end, logged w cs) /\
    forallb is_read cs = true.
Proof.
  intros Hp. destruct (@iterdir_plain_listing w p Hp) as (cs & E & R).
  exists cs. split; [|exact R].
  unfold Asset.glob, bind. rewrite E.
  destruct (children (Asset.as_posix p) (store w)) as [|e es]; reflexivity.
Qed.

Lemma glob_empty_pattern_witness :
  exists cs,
    Asset.glob String.eqb Example.F "" Example.w0
    = Some (Raise (ValueError "empty pattern"), logged Example.w0 cs) /\
    forallb is_read cs = true.
Proof.
  apply (@glob_empty_pattern String.eqb Example.w0 Example.F). right. reflexivity.
Defined.

Example glob_example :
  exists w' w'',
    Asset.glob String.eqb Example.F "b" Example.w0
    = Some (Ok [Asset.new ["projects/p/assets/F/b"]], w') /\
    Asset.rglob String.eqb 30 Example.F "c" Example.w0
    = Some (Ok [Asset.new ["projects/p/assets/F/b/c"]], w'').
Proof. eexists _, _. split; vm_compute; reflexivity. Qed.

End Globbing.

(** ** Type predicates and refusals *)

Section Predicates.
Import PyStr Remote TreeSpec Spec.

(** X25.  On an asset that is not in the store, the type predicates raise
    [ValueError] after one [getAsset] call even when [raised] is false: the
    flag only governs a type mismatch, not a missing asset. *)
Theorem type_predicates_raise_on_missing (p : Asset.t) (raised : bool) (w : world) :
  lookup (Asset.as_posix p) (store w) = None ->
  let e := ValueError ("Asset " ++ Asset.as_posix p ++ " does not exist.") in
  let w' := logged w [GetAsset (Asset.as_posix p)] in
  Asset.is_folder p raised w = Some (Raise e, w') /\
  Asset.is_image p raised w = Some (Raise e, w') /\
  Asset.is_image_collection p raised w = Some (Raise e, w') /\
  Asset.is_feature_collection p raised w = Some (Raise e, w') /\
  Asset.type p w = Some (Raise e, w').
Proof.
  intros H e w'.
  unfold Asset.is_folder, Asset.is_image, Asset.is_image_collection,
    Asset.is_feature_collection.
  repeat split; try apply (is_type_missing p _ raised w H).
  - unfold bind. now rewrite (is_type_missing p _ raised w H).
  - unfold Asset.type, bind. rewrite exists_run, H. reflexivity.
Qed.

Lemma type_predicates_raise_on_missing_witness :
  Asset.is_folder Example.H false Example.w0
  = Some (Raise (ValueError "Asset projects/p/assets/H does not exist."),
          logged Example.w0 [GetAsset "projects/p/assets/H"]).
Proof.
  apply (@type_predicates_raise_on_missing Example.H false Example.w0). reflexivity.
Defined.

(** X26.  On an asset of the store, a type predicate costs three
    [getAsset] calls and changes nothing; it answers whether the stored
    type is the one asked for, and raises on a mismatch only when [raised]
    is set.  The [type] property costs two calls.  Without [raised],
    [is_feature_collection] accepts both [FEATURE_COLLECTION] and
    [TABLE]. *)
Theorem type_predicates_on_existing
        (p : Asset.t) (asset_type ty : string) (raised : bool) (w : world) :
  lookup (Asset.as_posix p) (store w) = Some ty ->
  let g := GetAsset (Asset.as_posix p) in
  Asset.is_type p asset_type raised w
  = Some (if ty =? asset_type then Ok true
          else if raised
               then Raise (ValueError ("Asset " ++ Asset.as_posix p ++ " is not a "
                                         ++ asset_type ++ "."))
               else Ok false,
          logged w [g; g; g]) /\
  Asset.type p w = Some (Ok ty, logged w [g; g]) /\
  exists cs,
    Asset.is_feature_collection p false w
    = Some (Ok ((ty =? "FEATURE_COLLECTION") || (ty =? "TABLE")), logged w cs) /\
    forallb is_read cs = true.
Proof.
  intros H g. split; [exact (@is_type_run p asset_type ty raised w H)|].
  split; [exact (@type_run p ty w H)|].
  unfold Asset.is_feature_collection, bind.
  rewrite (@is_type_run p "FEATURE_COLLECTION" ty false w H).
  destruct (ty =? "FEATURE_COLLECTION").
  - eexists. split; reflexivity.
  - rewrite (@is_type_run p "TABLE" ty false (logged w _) H).
    rewrite logged_logged. destruct (ty =? "TABLE"); eexists; split; reflexivity.
Qed.

Lemma type_predicates_on_existing_witness :
  Asset.is_type Example.G "IMAGE" true Example.w0
  = Some (Ok true, logged Example.w0 [GetAsset "projects/p/assets/G";
                                      GetAsset "projects/p/assets/G";
                                      GetAsset "projects/p/assets/G"]) /\
  Asset.type Example.G Example.w0
  = Some (Ok "IMAGE", logged Example.w0 [GetAsset "projects/p/assets/G";
                                         GetAsset "projects/p/assets/G"]).
Proof.
  destruct (@type_predicates_on_existing Example.G "IMAGE" "IMAGE" true Example.w0 eq_refl)
    as (E1 & E2 & _).
  split; [exact E1 | exact E2].
Defined.

(** X27.  Without [overwrite], [copy] and [move] refuse a destination that
    exists: they raise [ValueError] after the one [getAsset] call that
    found it, before reading the source or writing anything. *)
Theorem existing_destination_is_refused (fuel : nat) (src dst : Asset.t) (w : world) :
  present (store w) dst = true ->
  let e := ValueError ("Asset " ++ Asset.as_posix dst ++ " already exists.") in
  let w' := logged w [GetAsset (Asset.as_posix dst)] in
  Asset.copy (S fuel) src dst false w = Some (Raise e, w') /\
  Asset.move (S fuel) src dst false w = Some (Raise e, w').
Proof.
  intros H e w'. cbn [Asset.copy Asset.move].
  split; unfold bind at 1; rewrite exists_present, H; reflexivity.
Qed.

Lemma existing_destination_is_refused_witness :
  Asset.copy 1 Example.F Example.G false Example.w0
  = Some (Raise (ValueError "Asset projects/p/assets/G already exists."),
          logged Example.w0 [GetAsset "projects/p/assets/G"]) /\
  Asset.move 1 Example.F Example.G false Example.w0
  = Some (Raise (ValueError "Asset projects/p/assets/G already exists."),
          logged Example.w0 [GetAsset "projects/p/assets/G"]).
Proof.
  apply (@existing_destination_is_refused 0 Example.F Example.G Example.w0). reflexivity.
Defined.

End Predicates.

(** ** The order of a recursive removal is a stable sort *)

Section Stability.
Import Remote TreeSpec.

Lemma getitem_setdefault (d : levels) (k : nat) (a : Asset.t) (k' : nat) :
  Asset.getitem (Asset.setdefault_append d k a) k'
  = if Nat.eqb k k' then Asset.getitem d k' ++ [a] else Asset.getitem d k'.
Proof.
  induction d as [|[k0 b] d IH]; cbn [Asset.setdefault_append Asset.getitem].
  - now destruct (Nat.eqb k k').
  - destruct (Nat.eqb k0 k) eqn:E0; cbn [Asset.getitem].
    + apply Nat.eqb_eq in E0. subst k0. now destruct (Nat.eqb k k').
    + rewrite IH. destruct (Nat.eqb k0 k') eqn:E1; [|reflexivity].
      apply Nat.eqb_eq in E1. subst k'. rewrite Nat.eqb_sym, E0. reflexivity.
Qed.

Lemma getitem_fold (l : list Asset.t) :
  forall d k,
    Asset.getitem
      (fold_left (fun d asset => Asset.setdefault_append d (length (Asset.parts asset)) asset)
                 l d) k
    = Asset.getitem d k ++ filter (fun a => Nat.eqb (depth a) k) l.
Proof.
  induction l as [|a l IH]; intros d k; cbn [fold_left filter].
  - now rewrite app_nil_r.
  - rewrite IH, getitem_setdefault. unfold depth.
    destruct (Nat.eqb (length (Asset.parts a)) k); [now rewrite <- app_assoc | reflexivity].
Qed.

Lemma getitem_insert_reverse (e : nat * list Asset.t) (d : levels) (k : nat) :
  ~ In (fst e) (map fst d) ->
  Asset.getitem (Asset.insert_reverse e d) k
  = if Nat.eqb (fst e) k then snd e else Asset.getitem d k.
Proof.
  destruct e as [k0 b]. cbn [fst snd].
  induction d as [|[k1 b1] d IH]; intros Hnotin; cbn [Asset.insert_reverse Asset.getitem].
  - reflexivity.
  - cbn [fst]. destruct (Nat.ltb k1 k0); cbn [Asset.getitem]; [reflexivity|].
    rewrite IH by (intros F; apply Hnotin; now right).
    destruct (Nat.eqb k1 k) eqn:E1; [|reflexivity].
    destruct (Nat.eqb k0 k) eqn:E0; [|reflexivity].
    apply Nat.eqb_eq in E0, E1. subst. exfalso. apply Hnotin. now left.
Qed.

Lemma getitem_sorted_reverse (d : levels) (k : nat) :
  NoDup (map fst d) ->
  Asset.getitem (Asset.sorted_reverse d) k = Asset.getitem d k.
Proof.
  induction d as [|e d IH]; intros Hnd; [reflexivity|].
  inversion Hnd as [|? ? Hnotin Hnd']; subst.
  cbn [Asset.sorted_reverse fold_right]. fold (Asset.sorted_reverse d).
  rewrite getitem_insert_reverse.
  - rewrite (IH Hnd'). now destruct e.
  - intros F. apply Hnotin.
    eapply Permutation_in; [|exact F]. apply Permutation_map, sorted_reverse_perm.
Qed.

Lemma deletion_order_buckets (l : list Asset.t) :
  deletion_order l
  = flat_map (fun k => filter (fun a => Nat.eqb (depth a) k) l)
             (map fst (Asset.assets_ordered l)).
Proof.
  unfold deletion_order. apply flat_map_ext. intros k.
  unfold Asset.assets_ordered. rewrite getitem_sorted_reverse.
  - now rewrite getitem_fold.
  - apply (@buckets_fold l []); [constructor | intros e []].
Qed.

Lemma before_filter {A} (f : A -> bool) (l : list A) (a b : A) :
  before l a b -> f a = true -> f b = true -> before (filter f l) a b.
Proof.
  intros (l1 & l2 & l3 & ->) Ha Hb.
  exists (filter f l1), (filter f l2), (filter f l3).
  rewrite filter_app. cbn [filter]. rewrite Ha, filter_app. cbn [filter]. now rewrite Hb.
Qed.

Lemma before_middle {A} (x m y : list A) (a b : A) :
  before m a b -> before (x ++ m ++ y) a b.
Proof.
  intros (l1 & l2 & l3 & ->). exists (x ++ l1), l2, (l3 ++ y).
  rewrite <- !app_assoc. cbn [app]. rewrite <- !app_assoc. reflexivity.
Qed.

Lemma depth_is_a_level (l : list Asset.t) (a : Asset.t) :
  In a l -> In (depth a) (map fst (Asset.assets_ordered l)).
Proof.
  intros Ha. destruct (assets_ordered_facts l) as (_ & Hfiled & _ & Hperm).
  apply Permutation_sym in Hperm.
  apply (Permutation_in _ Hperm) in Ha. apply in_flat_map in Ha as (e & He & Hae).
  rewrite (Hfiled e He a Hae). now apply in_map.
Qed.

(** X28.  The order in which a recursive [rmdir] handles the listed assets
    is a stable sort of the listing by decreasing number of components:
    the same assets, never a shallower one before a deeper one, and two
    assets of the same depth in the order the listing gave them. *)
Theorem deletion_order_is_a_stable_sort (l : list Asset.t) :
  Permutation (deletion_order l) l /\
  StronglySorted not_shallower (deletion_order l) /\
  forall a b, before l a b -> depth a = depth b -> before (deletion_order l) a b.
Proof.
  split; [apply deletion_order_perm|]. split; [apply deletion_order_sorted|].
  intros a b Hab Hd.
  assert (Ha : In a l).
  { destruct Hab as (l1 & l2 & l3 & ->). apply in_or_app. right. now left. }
  apply depth_is_a_level in Ha. apply in_split in Ha as (ks1 & ks2 & Hk).
  rewrite deletion_order_buckets, Hk, flat_map_app. cbn [flat_map].
  apply before_middle, before_filter; [exact Hab | apply Nat.eqb_refl |].
  rewrite Hd. apply Nat.eqb_refl.
Qed.

Example deletion_order_example :
  map Asset.str
      (deletion_order [Asset.new ["projects/p/assets/F/a"];
                       Asset.new ["projects/p/assets/F/b"];
                       Asset.new ["projects/p/assets/F/b/c"];
                       Asset.new ["projects/p/assets/F/d"]])
  = ["projects/p/assets/F/b/c"; "projects/p/assets/F/a";
     "projects/p/assets/F/b"; "projects/p/assets/F/d"].
Proof. reflexivity. Qed.

End Stability.

(** ** Single assets: size and removal *)

Section Leaves.
Import PyStr Remote TreeSpec Spec.

(** X29.  [st_size] raises [ValueError] on an asset that is missing and on
    a folder, without asking for a size; on any other asset it returns the
    size the service reports.  The store is never changed. *)
Theorem st_size_refuses_folders (sizeBytes : string -> nat) (p : Asset.t) (w : world) :
  let id := Asset.as_posix p in
  let g := GetAsset id in
  Asset.st_size sizeBytes p w
  = match lookup id (store w) with
    | None =>
        Some (Raise (ValueError ("Asset " ++ id ++ " does not exist.")), logged w [g])
    | Some ty =>
        if ty =? "FOLDER"
        then Some (Raise (ValueError ("Asset " ++ id ++ " is a folder.")),
                   logged w [g; g; g; g])
        else Some (Ok (sizeBytes id), logged w [g; g; g; g; g])
    end.
Proof.
  intros id g. subst g id. unfold Asset.st_size, bind at 1. rewrite exists_run.
  destruct (lookup (Asset.as_posix p) (store w)) as [ty|] eqn:E; [|reflexivity].
  unfold bind at 1, Asset.is_folder.
  rewrite (@is_type_run p "FOLDER" ty false (logged w [GetAsset (Asset.as_posix p)]))
    by exact E.
  rewrite logged_logged. destruct (ty =? "FOLDER"); [reflexivity|].
  unfold bind. rewrite getAsset_run. cbn [store logged]. rewrite E.
  unfold ret. now rewrite logged_logged.
Qed.

(** X30.  [unlink] removes one record at most.  On a missing asset it
    raises [ValueError] before any [deleteAsset] call; a folder that still
    has children is refused by the store, which stays as it was; otherwise
    the record of the asset is removed, every other record is kept as it
    was, and [exists] answers false afterwards.  [delete] is the same
    operation. *)
Theorem unlink_removes_one_record (p : Asset.t) (w : world) :
  let id := Asset.as_posix p in
  match lookup id (store w) with
  | None =>
      Asset.unlink p w
      = Some (Raise (ValueError ("Asset " ++ id ++ " does not exist.")),
              logged w [GetAsset id])
  | Some ty =>
      if (ty =? "FOLDER") && negb (Nat.eqb (length (children id (store w))) 0)
      then Asset.unlink p w
           = Some (Raise (EEException ("Asset " ++ id ++ " is not empty.")),
                   logged w [GetAsset id; DeleteAsset id])
      else
        let w' := mkWorld (remove id (store w)) (copy_denied w)
                          (log w ++ [GetAsset id; DeleteAsset id]) in
        Asset.unlink p w = Some (Ok tt, w') /\
        Asset.exists_ p false w' = Some (Ok false, logged w' [GetAsset id]) /\
        forall id', id' <> id -> lookup id' (store w') = lookup id' (store w)
  end /\
  Asset.delete p w = Asset.unlink p w.
Proof.
  intros id. subst id. split; [|reflexivity].
  assert (U : Asset.unlink p w
              = match lookup (Asset.as_posix p) (store w) with
                | None =>
                    Some (Raise (ValueError ("Asset " ++ Asset.as_posix p
                                               ++ " does not exist.")),
                          logged w [GetAsset (Asset.as_posix p)])
                | Some ty =>
                    if (ty =? "FOLDER")
                       && negb (Nat.eqb (length (children (Asset.as_posix p) (store w))) 0)
                    then Some (Raise (EEException ("Asset " ++ Asset.as_posix p
                                                     ++ " is not empty.")),
                               logged w [GetAsset (Asset.as_posix p);
                                         DeleteAsset (Asset.as_posix p)])
                    else Some (Ok tt,
                               mkWorld (remove (Asset.as_posix p) (store w)) (copy_denied w)
                                       (log w ++ [GetAsset (Asset.as_posix p);
                                                  DeleteAsset (Asset.as_posix p)]))
                end).
  { unfold Asset.unlink, bind at 1. rewrite exists_run.
    destruct (lookup (Asset.as_posix p) (store w)) as [ty|] eqn:E; [|reflexivity].
    unfold deleteAsset, bind, record, get_store, put_store, raise.
    cbn [store logged log copy_denied]. rewrite E.
    destruct ((ty =? "FOLDER")
              && negb (Nat.eqb (length (children (Asset.as_posix p) (store w))) 0));
      unfold logged; cbn [store log copy_denied]; now rewrite <- app_assoc. }
  rewrite U.
  destruct (lookup (Asset.as_posix p) (store w)) as [ty|]; [|reflexivity].
  destruct ((ty =? "FOLDER")
            && negb (Nat.eqb (length (children (Asset.as_posix p) (store w))) 0));
    [reflexivity|].
  cbn zeta. split; [reflexivity|]. split.
  - rewrite exists_run. cbn [store]. now rewrite lookup_remove_same.
  - intros id' Hne. cbn [store]. now apply lookup_remove_other.
Qed.

End Leaves.

(** ** A live recursive removal runs to its end *)

Section LiveRemoval.
Import PyStr Remote TreeSpec Spec.

Lemma bind_ret_r {A} (m : M A) (w : world) : bind m ret w = m w.
Proof. unfold bind, ret. destruct (m w) as [[[a|e] w1]|]; reflexivity. Qed.

Lemma fold_m_app {A S} (f : S -> A -> M S) (l1 l2 : list A) :
  forall s w, fold_m f (l1 ++ l2) s w = bind (fold_m f l1 s) (fold_m f l2) w.
Proof.
  induction l1 as [|x l1 IH]; intros s w; cbn [app fold_m]; [reflexivity|].
  unfold bind in *. destruct (f s x w) as [[[a|e] w1]|]; auto.
Qed.

Lemma fold_levels_flat {A K S} (f : S -> A -> M S) (g : K -> list A) (keys : list K) :
  forall s w,
    fold_m (fun output lvl => fold_m f (g lvl) output) keys s w
    = fold_m f (flat_map g keys) s w.
Proof.
  induction keys as [|k keys IH]; intros s w; cbn [fold_m flat_map]; [reflexivity|].
  rewrite fold_m_app. unfold bind.
  destruct (fold_m f (g k) s w) as [[[a|e] w1]|]; auto.
Qed.

Lemma rmdir_live_unfold (w w1 : world) (p : Asset.t) (fuel : nat) (l : list Asset.t) :
  lookup (Asset.as_posix p) (store w) = Some "FOLDER" ->
  Asset.iterdir fuel p true
    (logged w [GetAsset (Asset.as_posix p); GetAsset (Asset.as_posix p);
               GetAsset (Asset.as_posix p)]) = Some (Ok l, w1) ->
  Asset.rmdir fuel p true (Some false) w
  = fold_m (Asset.rmdir_delete false) (deletion_order l ++ [p]) [] w1.
Proof.
  intros Hp Hl. unfold Asset.rmdir, bind at 1.
  rewrite (@is_type_run p _ "FOLDER") by exact Hp. simpl String.eqb. cbv iota zeta.
  unfold bind at 1. unfold bind at 1. rewrite Hl.
  rewrite fold_levels_flat. fold (deletion_order l).
  rewrite fold_m_app. unfold bind at 1.
  destruct (fold_m (Asset.rmdir_delete false) (deletion_order l) [] w1)
    as [[[a|e] w2]|]; [|reflexivity|reflexivity].
  cbn [fold_m]. now rewrite bind_ret_r.
Qed.

Lemma without_step (ids : list string) (e : entry) (s : list entry) :
  without ids (e :: s)
  = if existsb (String.eqb (fst e)) ids then without ids s else e :: without ids s.
Proof. unfold without. cbn [filter]. now destruct (existsb (String.eqb (fst e)) ids). Qed.

Lemma remove_step (id : string) (e : entry) (s : list entry) :
  remove id (e :: s) = if fst e =? id then remove id s else e :: remove id s.
Proof. unfold remove. cbn [filter]. now destruct (fst e =? id). Qed.

Lemma without_nil (s : list entry) : without [] s = s.
Proof.
  induction s as [|e s IH]; [reflexivity|].
  rewrite without_step. cbn [existsb]. now rewrite IH.
Qed.

Lemma without_cons (id : string) (ids : list string) (s : list entry) :
  without (id :: ids) s = without ids (remove id s).
Proof.
  induction s as [|e s IH]; [reflexivity|].
  rewrite without_step, remove_step. cbn [existsb].
  destruct (fst e =? id); cbn [orb]; [exact IH|].
  rewrite without_step. destruct (existsb (String.eqb (fst e)) ids); now rewrite IH.
Qed.

Lemma without_In (ids : list string) (s : list entry) (e : entry) :
  In e (without ids s) <-> In e s /\ ~ In (fst e) ids.
Proof.
  unfold without. rewrite filter_In. split; intros [H1 H2]; split; auto.
  - intros Hin. apply negb_true_iff in H2.
    assert (existsb (String.eqb (fst e)) ids = true).
    { apply existsb_exists. exists (fst e). split; [exact Hin | apply String.eqb_refl]. }
    congruence.
  - apply negb_true_iff. destruct (existsb (String.eqb (fst e)) ids) eqn:E; [|reflexivity].
    apply existsb_exists in E as (x & Hx & Ex). apply String.eqb_eq in Ex. subst x.
    contradiction.
Qed.

Lemma lookup_without (ids : list string) (s : list entry) (id : string) :
  lookup id (without ids s) = if existsb (String.eqb id) ids then None else lookup id s.
Proof.
  induction s as [|[k v] s IH].
  - cbn. now destruct (existsb (String.eqb id) ids).
  - rewrite without_step. cbn [fst lookup].
    destruct (k =? id) eqn:Ek.
    + apply String.eqb_eq in Ek. subst k.
      destruct (existsb (String.eqb id) ids); [exact IH|].
      cbn [lookup]. now rewrite String.eqb_refl.
    + destruct (existsb (String.eqb k) ids); [exact IH|].
      cbn [lookup]. now rewrite Ek.
Qed.

Lemma lookup_In_store (k v : string) (s : list entry) :
  lookup k s = Some v -> In (k, v) s.
Proof.
  induction s as [|[k' v'] s IH]; [discriminate|]. cbn [lookup].
  destruct (k' =? k) eqn:E.
  - apply String.eqb_eq in E. intros H. inversion H; subst. now left.
  - intros H. right. now apply IH.
Qed.

Lemma before_first {A} (x c : A) (rest : list A) :
  NoDup (x :: rest) -> ~ before (x :: rest) c x.
Proof.
  intros Hnd (l1 & l2 & l3 & E). inversion Hnd as [|? ? Hnotin _]; subst.
  apply Hnotin. destruct l1 as [|y l1]; inversion E; subst;
    repeat (rewrite in_app_iff; cbn [In]); tauto.
Qed.

Lemma before_tail {A} (y c x : A) (rest : list A) :
  c <> y -> before (y :: rest) c x -> before rest c x.
Proof.
  intros Hne (l1 & l2 & l3 & E). destruct l1 as [|z l1]; inversion E; subst.
  - congruence.
  - now exists l1, l2, l3.
Qed.

(** Every identifier is in the store, none is listed twice, and the
    children of a listed folder come before it: then every deletion is
    accepted. *)
Lemma live_loop_succeeds (assets : list Asset.t) :
  forall out w,
    NoDup (map Asset.str assets) ->
    (forall id, In id (map Asset.str assets) -> lookup id (store w) <> None) ->
    (forall x e, In x (map Asset.str assets) ->
                 lookup x (store w) = Some "FOLDER" ->
                 In e (children x (store w)) ->
                 before (map Asset.str assets) (fst e) x) ->
    fold_m (Asset.rmdir_delete false) assets out w
    = Some (Ok (out ++ map Asset.str assets),
            mkWorld (without (map Asset.str assets) (store w)) (copy_denied w)
                    (log w ++ map DeleteAsset (map Asset.str assets))).
Proof.
  induction assets as [|a assets IH]; intros out w Hnd Hin Hbefore.
  - cbn [fold_m map]. rewrite without_nil, !app_nil_r. now destruct w.
  - cbn [fold_m map] in *. set (id := Asset.str a) in *.
    set (ids := map Asset.str assets) in *.
    unfold bind at 1. unfold Asset.rmdir_delete at 1. fold id.
    unfold bind at 1. unfold deleteAsset, bind, record, get_store, put_store.
    cbn [store copy_denied log].
    destruct (lookup id (store w)) as [ty|] eqn:El;
      [|exfalso; apply (Hin id); [now left | exact El]].
    assert (Hempty : (ty =? "FOLDER")
                     && negb (Nat.eqb (length (children id (store w))) 0) = false).
    { destruct (ty =? "FOLDER") eqn:Ety; [|reflexivity].
      apply String.eqb_eq in Ety. subst ty.
      destruct (children id (store w)) as [|e es] eqn:Ech; [reflexivity|].
      exfalso. apply (@before_first _ id (fst e) ids Hnd).
      apply Hbefore; [now left | exact El | rewrite Ech; now left]. }
    rewrite Hempty. cbn [ret].
    inversion Hnd as [|? ? Hnotin Hnd']; subst.
    rewrite IH.
    + cbn [store copy_denied log]. rewrite without_cons, <- !app_assoc. reflexivity.
    + exact Hnd'.
    + intros id' Hid'. cbn [store]. rewrite lookup_remove_other.
      * apply Hin. now right.
      * intros ->. contradiction.
    + intros x e Hx Hfolder Hch. cbn [store] in Hfolder, Hch.
      assert (Hxne : x <> id) by (intros ->; contradiction).
      rewrite (lookup_remove_other _ Hxne) in Hfolder.
      apply filter_In in Hch as [He Hchild].
      apply filter_In in He as [He Hne].
      apply before_tail with id.
      * intros E. rewrite E, String.eqb_refl in Hne. discriminate.
      * apply Hbefore; [now right | exact Hfolder |].
        apply filter_In. split; assumption.
Qed.

Lemma append_inj_l (a b c : string) : (a ++ b = a ++ c)%string -> b = c.
Proof. induction a as [|x a IH]; cbn [append]; intros H; [exact H|]. inversion H. auto. Qed.

Lemma sep_split_inj (a : string) :
  forall a' t t',
    contains_sep a = false -> contains_sep a' = false ->
    (a ++ String sep t = a' ++ String sep t')%string -> a = a'.
Proof.
  induction a as [|c a IH]; intros [|c' a'] t t' Ha Ha' E; cbn [append] in E.
  - reflexivity.
  - inversion E; subst. cbn [contains_sep] in Ha'.
    apply orb_false_iff in Ha' as [Hc _]. discriminate Hc.
  - inversion E; subst. cbn [contains_sep] in Ha.
    apply orb_false_iff in Ha as [Hc _]. discriminate Hc.
  - inversion E; subst. cbn [contains_sep] in Ha, Ha'.
    apply orb_false_iff in Ha as [_ Ha]. apply orb_false_iff in Ha' as [_ Ha'].
    f_equal. now apply (IH a' t t').
Qed.

Lemma no_self_extend (x t : string) : x <> (x ++ String sep t)%string.
Proof.
  intros E. apply (f_equal String.length) in E. rewrite length_append in E.
  cbn [String.length] in E. lia.
Qed.

(** Two children of one folder have nothing in common below them. *)
Lemma siblings_apart (f n n' x : string) :
  contains_sep n = false -> contains_sep n' = false -> n <> n' ->
  x = (f ++ String sep n)%string \/
  (exists t, x = ((f ++ String sep n) ++ String sep t)%string) ->
  x = (f ++ String sep n')%string \/
  (exists t, x = ((f ++ String sep n') ++ String sep t)%string) ->
  False.
Proof.
  intros Hn Hn' Hne [E | [t E]] [E' | [t' E']]; subst x;
    rewrite ?append_assoc in E'; apply append_inj_l in E'; cbn [append] in E';
    inversion E' as [E0].
  - congruence.
  - rewrite E0, contains_sep_append in Hn. cbn [contains_sep] in Hn.
    change (is_sep sep) with true in Hn. rewrite orb_true_r in Hn. discriminate.
  - rewrite <- E0, contains_sep_append in Hn'. cbn [contains_sep] in Hn'.
    change (is_sep sep) with true in Hn'. rewrite orb_true_r in Hn'. discriminate.
  - apply Hne. now apply (@sep_split_inj n n' t t').
Qed.

Lemma NoDup_keys_filter (f : entry -> bool) (s : list entry) :
  NoDup (map fst s) -> NoDup (map fst (filter f s)).
Proof.
  induction s as [|e s IH]; intros H; [constructor|].
  inversion H as [|? ? Hnotin Hnd]; subst. cbn [filter].
  destruct (f e); [|now apply IH]. cbn [map]. constructor; [|now apply IH].
  intros Hin. apply Hnotin. apply in_map_iff in Hin as (e' & E & He').
  apply filter_In in He' as [He' _]. apply in_map_iff. now exists e'.
Qed.

Lemma preorder_nodup (s : list entry) :
  canonical_store s ->
  NoDup (map fst s) ->
  forall es l,
    PreorderOf s es l ->
    forall f,
      NoDup (map fst es) -> incl es s ->
      (forall e, In e es -> is_child f (fst e) = true) ->
      NoDup (map Asset.str l) /\
      forall a, In a l ->
        exists e, In e es /\
          (Asset.str a = fst e \/
           exists t, Asset.str a = (fst e ++ String sep t)%string).
Proof.
  intros Hcan Hkeys es l Hpre.
  induction Hpre as [| id ty rest l Hty Hrest IH
                     | id rest sub l Hsub IHsub Hrest IH];
    intros f Hnd Hincl Hsib.
  - split; [constructor | intros a []].
  - inversion Hnd as [|? ? Hnotin Hnd']; subst.
    destruct (IH f Hnd' (fun e He => Hincl e (or_intror He))
                 (fun e He => Hsib e (or_intror He))) as [Hndl Hcov].
    assert (Hid : Asset.str (Asset.new [id]) = id).
    { apply canonical_str_new.
      apply (@canonical_store_In s (id, ty) Hcan). apply Hincl. now left. }
    split.
    + cbn [map]. rewrite Hid. constructor; [|exact Hndl].
      intros Hin. apply in_map_iff in Hin as (a & Ea & Ha).
      destruct (Hcov a Ha) as (e' & He' & Hunder). rewrite Ea in Hunder.
      pose proof (Hsib (id, ty) (or_introl eq_refl)) as Hc. cbn [fst] in Hc.
      pose proof (Hsib e' (or_intror He')) as Hc'.
      apply is_child_inv in Hc as (n & En & _ & Hn).
      apply is_child_inv in Hc' as (n' & En' & _ & Hn').
      apply (@siblings_apart f n n' id Hn Hn').
      * intros ->. apply Hnotin. cbn [fst]. rewrite En, <- En'. now apply in_map.
      * now left.
      * rewrite <- En'. exact Hunder.
    + intros a [<- | Ha].
      * exists (id, ty). split; [now left | left; exact Hid].
      * destruct (Hcov a Ha) as (e' & He' & Hunder).
        exists e'. split; [now right | exact Hunder].
  - inversion Hnd as [|? ? Hnotin Hnd']; subst.
    destruct (IH f Hnd' (fun e He => Hincl e (or_intror He))
                 (fun e He => Hsib e (or_intror He))) as [Hndl Hcov].
    destruct (IHsub id) as [Hndsub Hcovsub].
    { now apply NoDup_keys_filter. }
    { intros e He. now apply children_In in He as [He _]. }
    { intros e He. now apply children_In in He as [_ He]. }
    assert (Hid : Asset.str (Asset.new [id]) = id).
    { apply canonical_str_new.
      apply (@canonical_store_In s (id, "FOLDER") Hcan). apply Hincl. now left. }
    assert (Hbelow : forall a, In a sub ->
                       exists u, Asset.str a = (id ++ String sep u)%string).
    { intros a Ha. destruct (Hcovsub a Ha) as (e & He & Hunder).
      apply children_In in He as [_ Hc].
      apply is_child_inv in Hc as (n & En & _ & _). rewrite En in Hunder.
      destruct Hunder as [E | [t E]].
      - now exists n.
      - exists (n ++ String sep t)%string. rewrite E, append_assoc. reflexivity. }
    assert (Hrest_apart : forall a x, In a l -> Asset.str a = x ->
              x = id \/ (exists u, x = (id ++ String sep u)%string) -> False).
    { intros a x Ha Ea Hx. destruct (Hcov a Ha) as (e' & He' & Hunder).
      rewrite Ea in Hunder.
      pose proof (Hsib (id, "FOLDER") (or_introl eq_refl)) as Hc. cbn [fst] in Hc.
      pose proof (Hsib e' (or_intror He')) as Hc'.
      apply is_child_inv in Hc as (n & En & _ & Hn).
      apply is_child_inv in Hc' as (n' & En' & _ & Hn').
      apply (@siblings_apart f n n' x Hn Hn').
      - intros ->. apply Hnotin. cbn [fst]. rewrite En, <- En'. now apply in_map.
      - rewrite <- En. exact Hx.
      - rewrite <- En'. exact Hunder. }
    split.
    + cbn [map]. rewrite Hid, map_app. constructor.
      * intros Hin. apply in_app_or in Hin as [Hin | Hin];
          apply in_map_iff in Hin as (a & Ea & Ha).
        -- destruct (Hbelow a Ha) as [u Eu]. rewrite Ea in Eu.
           exact (@no_self_extend _ _ Eu).
        -- apply (Hrest_apart a id Ha Ea). now left.
      * apply NoDup_app; [exact Hndsub | exact Hndl |].
        intros x Hx Hx'. apply in_map_iff in Hx as (a & Ea & Ha).
        apply in_map_iff in Hx' as (b & Eb & Hb).
        apply (Hrest_apart b x Hb Eb). right.
        destruct (Hbelow a Ha) as [u Eu]. exists u. now rewrite <- Ea.
    + intros a [<- | Ha].
      * exists (id, "FOLDER"). split; [now left | left; exact Hid].
      * apply in_app_or in Ha as [Ha | Ha].
        -- exists (id, "FOLDER"). split; [now left | right]. cbn [fst]. now apply Hbelow.
        -- destruct (Hcov a Ha) as (e' & He' & Hunder).
           exists e'. split; [now right | exact Hunder].
Qed.

Lemma NoDup_split_unique {A} (x : A) (a : list A) :
  forall b a' b',
    NoDup (a ++ x :: b) -> a ++ x :: b = a' ++ x :: b' -> a = a'.
Proof.
  induction a as [|y a IH]; intros b a' b' Hnd E.
  - destruct a' as [|y' a']; [reflexivity|]. cbn [app] in *. inversion E; subst.
    inversion Hnd as [|? ? Hnotin _]; subst. exfalso. apply Hnotin.
    apply in_or_app. right. now left.
  - destruct a' as [|y' a']; cbn [app] in *; inversion E; subst.
    + inversion Hnd as [|? ? Hnotin _]; subst. exfalso. apply Hnotin.
      apply in_or_app. right. now left.
    + f_equal. inversion Hnd; subst. now apply (IH b a' b').
Qed.

Lemma plan_nodup (s : list entry) (p : Asset.t) (l : list Asset.t) :
  canonical_store s -> NoDup (map fst s) ->
  Preorder s (Asset.as_posix p) l ->
  NoDup (map Asset.str (deletion_order l) ++ [Asset.str p]).
Proof.
  intros Hcan Hkeys Hpre.
  destruct (@preorder_nodup s Hcan Hkeys _ _ Hpre (Asset.as_posix p)) as [Hnd Hcov].
  { now apply NoDup_keys_filter. }
  { intros e He. now apply children_In in He as [He _]. }
  { intros e He. now apply children_In in He as [_ He]. }
  assert (Hperm : Permutation (map Asset.str l) (map Asset.str (deletion_order l))).
  { apply Permutation_map, Permutation_sym, deletion_order_perm. }
  apply NoDup_app.
  - exact (Permutation_NoDup Hperm Hnd).
  - repeat constructor. intros [].
  - intros x Hx [<- | []].
    apply (Permutation_in _ (Permutation_sym Hperm)) in Hx.
    apply in_map_iff in Hx as (a & Ea & Ha).
    destruct (Hcov a Ha) as (e & He & Hunder).
    apply children_In in He as [_ Hc]. apply is_child_inv in Hc as (n & En & _ & _).
    rewrite Ea, En in Hunder. unfold Asset.str in Hunder.
    destruct Hunder as [E | [t E]].
    + exact (@no_self_extend _ _ E).
    + rewrite append_assoc in E. exact (@no_self_extend _ _ E).
Qed.

(** The live run on a store with one record per identifier, each in printed
    form: every [deleteAsset] call succeeds. *)
Lemma rmdir_live_succeeds (w : world) (p : Asset.t) (fuel : nat) (l : list Asset.t)
      (cs : list call) :
  lookup (Asset.as_posix p) (store w) = Some "FOLDER" ->
  canonical_store (store w) ->
  NoDup (map fst (store w)) ->
  Asset.iterdir fuel p true
    (logged w [GetAsset (Asset.as_posix p); GetAsset (Asset.as_posix p);
               GetAsset (Asset.as_posix p)]) = Some (Ok l, logged w cs) ->
  Preorder (store w) (Asset.as_posix p) l ->
  (forall id, Reachable (store w) (Asset.as_posix p) id -> In (Asset.new [id]) l) ->
  (forall a, In a l ->
     exists id, a = Asset.new [id] /\ Reachable (store w) (Asset.as_posix p) id) ->
  Asset.rmdir fuel p true (Some false) w
  = Some (Ok (map Asset.str (deletion_order l) ++ [Asset.str p]),
          mkWorld (without (map Asset.str (deletion_order l) ++ [Asset.str p]) (store w))
                  (copy_denied w)
                  ((log w ++ cs)
                     ++ map DeleteAsset (map Asset.str (deletion_order l) ++ [Asset.str p]))).
Proof.
  intros Hp Hcan Hkeys E Hl Hcomplete Hsound.
  pose proof (@plan_children_first (store w) p l Hcan Hcomplete Hsound) as Hfirst.
  pose proof (@plan_nodup (store w) p l Hcan Hkeys Hl) as Hnd.
  set (plan := map Asset.str (deletion_order l) ++ [Asset.str p]) in *.
  assert (Eplan : map Asset.str (deletion_order l ++ [p]) = plan)
    by (now rewrite map_app).
  rewrite (@rmdir_live_unfold w _ p fuel l Hp E).
  rewrite live_loop_succeeds; rewrite Eplan.
  - reflexivity.
  - exact Hnd.
  - intros id Hid. cbn [store logged].
    apply in_app_or in Hid as [Hid | [<- | []]].
    + apply in_map_iff in Hid as (a & <- & Ha).
      apply (Permutation_in _ (deletion_order_perm l)) in Ha.
      destruct (Hsound a Ha) as (id & -> & Hreach).
      destruct (@reachable_in_store _ _ _ Hreach) as (ty & Hin).
      pose proof (@canonical_store_In _ _ Hcan Hin) as Hc. cbn [fst] in Hc.
      rewrite (@canonical_str_new _ Hc). now apply lookup_In with ty.
    + unfold Asset.str. rewrite Hp. discriminate.
  - intros x [c ty] Hx Hfolder Hch. cbn [store logged fst] in *.
    apply (Hfirst x c ty Hx); [now apply lookup_In_store | exact Hch].
Qed.

(** C1 (amended): a recursive [rmdir] on a folder, with no [dry_run]
    argument, returns (given recursion depth beyond the longest identifier)
    after issuing nothing but [getAsset] and [listAssets] calls, so the
    store is left as it was.  Its result is the recursive listing
    rearranged, followed by the folder itself: it holds the folder, every
    asset reached from it through children of type [FOLDER], and nothing
    else.  It is the list the live run ([dry_run=False]) follows with its
    [deleteAsset] calls, in this order, up to its first failure; on a store
    with one record per identifier, each in printed form, the live run
    deletes exactly this list. *)
Theorem C1_recursive_rmdir_is_dry_by_default (w : world) (p : Asset.t) (fuel : nat) :
  lookup (Asset.as_posix p) (store w) = Some "FOLDER" ->
  max_id_length (store w) < fuel ->
  exists l cs,
    let out := map Asset.str (deletion_order l) ++ [Asset.str p] in
    Asset.rmdir fuel p true None w = Some (Ok out, logged w cs) /\
    forallb is_read cs = true /\
    Preorder (store w) (Asset.as_posix p) l /\
    Permutation out (map Asset.str l ++ [Asset.str p]) /\
    (forall id, Reachable (store w) (Asset.as_posix p) id ->
                In (Asset.str (Asset.new [id])) out) /\
    (forall x, In x out ->
               x = Asset.str p \/
               exists id, x = Asset.str (Asset.new [id]) /\
                          Reachable (store w) (Asset.as_posix p) id) /\
    (exists r w' cs' rest,
        Asset.rmdir fuel p true (Some false) w = Some (r, w') /\
        log w' = log w ++ cs' /\
        out = deleted cs' ++ rest /\
        (forall o, r = Ok o -> o = out /\ rest = [])) /\
    (canonical_store (store w) -> NoDup (map fst (store w)) ->
     exists w' cs',
       Asset.rmdir fuel p true (Some false) w = Some (Ok out, w') /\
       log w' = log w ++ cs' /\
       deleted cs' = out /\
       store w' = without out (store w)).
Proof.
  intros Hp Hfuel.
  destruct (@rmdir_listing w p fuel Hp Hfuel) as (l & cs & E & Hr & Hl & Hc & Hsound).
  exists l, cs. cbv zeta.
  split; [apply rmdir_dry_run; auto|].
  split; [exact Hr|]. split; [exact Hl|].
  split; [apply Permutation_app_tail, Permutation_map, deletion_order_perm|].
  split.
  { intros id Hid. apply in_or_app. left. apply in_map.
    apply (Permutation_in _ (Permutation_sym (deletion_order_perm l))). now apply Hc. }
  split.
  { intros x Hx. apply in_app_or in Hx as [Hx | [<- | []]]; [right | now left].
    apply in_map_iff in Hx as (a & <- & Ha).
    apply (Permutation_in _ (deletion_order_perm l)) in Ha.
    destruct (Hsound a Ha) as (id & -> & Hreach). eauto. }
  split.
  { destruct (@rmdir_live_run w _ p fuel l Hp E)
      as (r & w' & done & rest & E' & Hlog & Hsplit & Hok).
    exists r, w', (cs ++ map DeleteAsset done), rest.
    split; [exact E'|].
    split; [rewrite Hlog; simpl; now rewrite app_assoc|].
    split; [now rewrite deleted_app, (deleted_reads _ Hr), deleted_map|].
    intros o Ho. now destruct (Hok o Ho). }
  intros Hcan Hkeys.
  eexists _, (cs ++ map DeleteAsset _).
  split; [exact (@rmdir_live_succeeds w p fuel l cs Hp Hcan Hkeys E Hl Hc Hsound)|].
  cbn [log store].
  split; [now rewrite app_assoc|].
  split; [now rewrite deleted_app, (deleted_reads _ Hr), deleted_map | reflexivity].
Qed.

Lemma C1_witness :
  exists l cs,
    let out := map Asset.str (deletion_order l) ++ [Asset.str Example.F] in
    Asset.rmdir 30 Example.F true None Example.w0 = Some (Ok out, logged Example.w0 cs) /\
    forallb is_read cs = true /\
    Preorder (store Example.w0) (Asset.as_posix Example.F) l /\
    Permutation out (map Asset.str l ++ [Asset.str Example.F]) /\
    (forall id, Reachable (store Example.w0) (Asset.as_posix Example.F) id ->
                In (Asset.str (Asset.new [id])) out) /\
    (forall x, In x out ->
               x = Asset.str Example.F \/
               exists id, x = Asset.str (Asset.new [id]) /\
                          Reachable (store Example.w0) (Asset.as_posix Example.F) id) /\
    (exists r w' cs' rest,
        Asset.rmdir 30 Example.F true (Some false) Example.w0 = Some (r, w') /\
        log w' = log Example.w0 ++ cs' /\
        out = deleted cs' ++ rest /\
        (forall o, r = Ok o -> o = out /\ rest = [])) /\
    (canonical_store (store Example.w0) -> NoDup (map fst (store Example.w0)) ->
     exists w' cs',
       Asset.rmdir 30 Example.F true (Some false) Example.w0 = Some (Ok out, w') /\
       log w' = log Example.w0 ++ cs' /\
       deleted cs' = out /\
       store w' = without out (store Example.w0)).
Proof.
  apply (@C1_recursive_rmdir_is_dry_by_default Example.w0 Example.F 30).
  - reflexivity.
  - vm_compute. lia.
Defined.

(** C1 as stated fails: the image [F/y/i] lies in the subtree of [F], below
    the image collection [F/y], and the dry run of [rmdir] on [F] does not
    return it: the recursive listing goes down through folders only. *)
Lemma C1_dry_run_omits_what_a_collection_holds :
  exists cs,
    Asset.rmdir 30 Example.F true None Example.w2
    = Some (Ok ["projects/p/assets/F/a"; "projects/p/assets/F/y"; "projects/p/assets/F"],
            logged Example.w2 cs) /\
    forallb is_read cs = true /\
    lookup "projects/p/assets/F/y/i" (store Example.w2) = Some "IMAGE" /\
    Asset.is_relative_to (Asset.new ["projects/p/assets/F/y/i"]) (Asset.str Example.F) = true /\
    ~ In "projects/p/assets/F/y/i"
         ["projects/p/assets/F/a"; "projects/p/assets/F/y"; "projects/p/assets/F"].
Proof.
  eexists. split; [vm_compute; reflexivity|].
  repeat split; try reflexivity.
  cbn [In]. intros H. repeat (destruct H as [H | H]; [discriminate H|]). exact H.
Qed.

(** C3: on a folder of a store that holds one record per identifier, each
    in the constructor's printed form, a live recursive [rmdir] runs to its
    end.  Its [deleteAsset] calls are, in this order, the listed assets
    sorted by non-increasing number of components and then the folder
    itself; each of these records is removed and no other.  In that order
    every child of a folder comes strictly before the folder, so that each
    folder has no child left in the store when its turn comes. *)
Theorem C3_rmdir_deletes_deepest_first (w : world) (p : Asset.t) (fuel : nat) :
  lookup (Asset.as_posix p) (store w) = Some "FOLDER" ->
  canonical_store (store w) ->
  NoDup (map fst (store w)) ->
  max_id_length (store w) < fuel ->
  exists l w' cs,
    let order := deletion_order l in
    let plan := map Asset.str order ++ [Asset.str p] in
    Preorder (store w) (Asset.as_posix p) l /\
    Asset.rmdir fuel p true (Some false) w = Some (Ok plan, w') /\
    log w' = log w ++ cs /\
    deleted cs = plan /\
    created cs = [] /\
    store w' = without plan (store w) /\
    Permutation order l /\
    StronglySorted not_shallower order /\
    (forall x c ty,
        In x plan ->
        In (x, "FOLDER") (store w) ->
        In (c, ty) (children x (store w)) ->
        before plan c x) /\
    (forall done x rest,
        plan = done ++ x :: rest ->
        lookup x (store w) = Some "FOLDER" ->
        children x (without done (store w)) = []).
Proof.
  intros Hp Hcan Hkeys Hfuel.
  destruct (@rmdir_listing w p fuel Hp Hfuel) as (l & cs & E & Hr & Hl & Hcomplete & Hsound).
  pose proof (@plan_children_first (store w) p l Hcan Hcomplete Hsound) as Hfirst.
  pose proof (@plan_nodup (store w) p l Hcan Hkeys Hl) as Hnd.
  set (plan := map Asset.str (deletion_order l) ++ [Asset.str p]) in *.
  pose proof (@rmdir_live_succeeds w p fuel l cs Hp Hcan Hkeys E Hl Hcomplete Hsound)
    as Hrun.
  fold plan in Hrun.
  exists l, (mkWorld (without plan (store w)) (copy_denied w)
                     ((log w ++ cs) ++ map DeleteAsset plan)),
    (cs ++ map DeleteAsset plan).
  cbv zeta. fold plan.
  split; [exact Hl|]. split; [exact Hrun|]. cbn [log store].
  split; [now rewrite app_assoc|].
  split; [now rewrite deleted_app, (deleted_reads _ Hr), deleted_map|].
  split.
  { rewrite created_app, (created_reads _ Hr). clear.
    induction plan as [|x plan IH]; [reflexivity | exact IH]. }
  split; [reflexivity|].
  split; [apply deletion_order_perm|].
  split; [apply deletion_order_sorted|].
  split; [exact Hfirst|].
  intros done x rest Esplit Hfolder.
  destruct (children x (without done (store w))) as [|[c ty] es] eqn:Ech; [reflexivity|].
  exfalso.
  assert (He : In (c, ty) (children x (without done (store w))))
    by (rewrite Ech; now left).
  apply filter_In in He as [He Hc]. apply without_In in He as [He Hnotin].
  cbn [fst] in *.
  assert (Hbefore : before plan c x).
  { apply (Hfirst x c ty).
    - rewrite Esplit. apply in_or_app. right. now left.
    - now apply lookup_In_store.
    - apply filter_In. split; assumption. }
  destruct Hbefore as (l1 & l2 & l3 & E1).
  apply Hnotin.
  assert (Edone : l1 ++ c :: l2 = done).
  { apply (@NoDup_split_unique _ x (l1 ++ c :: l2) l3 done rest).
    - rewrite <- app_assoc. cbn [app]. rewrite <- E1. exact Hnd.
    - rewrite <- app_assoc. cbn [app]. rewrite <- E1. exact Esplit. }
  rewrite <- Edone. apply in_or_app. right. now left.
Qed.

Lemma C3_witness :
  exists l w' cs,
    let order := deletion_order l in
    let plan := map Asset.str order ++ [Asset.str Example.F] in
    Preorder (store Example.w0) (Asset.as_posix Example.F) l /\
    Asset.rmdir 30 Example.F true (Some false) Example.w0 = Some (Ok plan, w') /\
    log w' = log Example.w0 ++ cs /\
    deleted cs = plan /\
    created cs = [] /\
    store w' = without plan (store Example.w0) /\
    Permutation order l /\
    StronglySorted not_shallower order /\
    (forall x c ty,
        In x plan ->
        In (x, "FOLDER") (store Example.w0) ->
        In (c, ty) (children x (store Example.w0)) ->
        before plan c x) /\
    (forall done x rest,
        plan = done ++ x :: rest ->
        lookup x (store Example.w0) = Some "FOLDER" ->
        children x (without done (store Example.w0)) = []).
Proof.
  apply (@C3_rmdir_deletes_deepest_first Example.w0 Example.F 30).
  - reflexivity.
  - reflexivity.
  - repeat constructor; cbn [In]; intros H;
      repeat (destruct H as [H | H]; [discriminate H|]); exact H.
  - vm_compute. lia.
Defined.

End LiveRemoval.

(** ** The children of a moved folder *)

Section MoveTree.
Import PyStr Remote TreeSpec Spec.


(** *** What a move adds *)


























(** *** The log of a move *)












(** *** The children of a moved folder *)










End MoveTree.
